(** * Ultimate Twig: the line formatter of [extension.js]

    A shallow embedding of [TwigFormatter] (collapseTwigAttribute,
    splitTwigLine, format and the tag classifiers) together with the
    properties the specification states about it.

    JavaScript strings are sequences of UTF-16 code units; a string is
    modelled as a list of code units, each a number.  The regular
    expressions of the source are kept as syntax trees and run by a
    backtracking matcher that follows the priorities of the ECMAScript
    matcher (leftmost start, left alternative first, greedy or lazy
    repetition, captures, back-references). *)

From Stdlib Require Import Ascii String.
From Stdlib Require Import List ZArith NArith Bool Lia.
Import ListNotations.
Local Open Scope list_scope.

(** ** Strings *)

Definition char := N.
Definition str := list char.

Definition code (a : ascii) : char := N_of_ascii a.

Fixpoint u (s : string) : str :=
  match s with
  | EmptyString => []
  | String a s' => code a :: u s'
  end.

Definition NL : char := 10%N.   (* line feed *)
Definition TAB : char := 9%N.
Definition SP : char := 32%N.
Definition DQ : char := 34%N.   (* double quote *)
Definition SQ : char := 39%N.   (* single quote *)

Fixpoint str_eqb (a b : str) : bool :=
  match a, b with
  | [], [] => true
  | x :: a', y :: b' => N.eqb x y && str_eqb a' b'
  | _, _ => false
  end.

(** [s.startsWith(p)], returning what follows the prefix. *)
Fixpoint strip_prefix (p s : str) : option str :=
  match p with
  | [] => Some s
  | x :: p' =>
      match s with
      | [] => None
      | y :: s' => if N.eqb x y then strip_prefix p' s' else None
      end
  end.

Definition starts_with (p s : str) : bool :=
  match strip_prefix p s with Some _ => true | None => false end.

(** [s.endsWith(p)] *)
Definition ends_with (p s : str) : bool := starts_with (rev p) (rev s).

(** [s.includes(p)] *)
Fixpoint includes (p s : str) : bool :=
  starts_with p s ||
  match s with
  | [] => false
  | _ :: s' => includes p s'
  end.

(** [s.split(c)] for a one-character separator: never the empty list. *)
Fixpoint split_char (c : char) (s : str) : list str :=
  match s with
  | [] => [[]]
  | x :: s' =>
      if N.eqb x c then [] :: split_char c s'
      else match split_char c s' with
           | [] => [[x]]
           | p :: ps => (x :: p) :: ps
           end
  end.

(** [xs.join(sep)] *)
Fixpoint join (sep : str) (xs : list str) : str :=
  match xs with
  | [] => []
  | [x] => x
  | x :: xs' => x ++ sep ++ join sep xs'
  end.

(** [s.repeat(n)] for a count that is not negative.  A negative count is
    a RangeError in JavaScript; the depths of [format] are shown below
    never to be negative, so it never asks for one. *)
Fixpoint repeat_str (s : str) (n : nat) : str :=
  match n with
  | O => []
  | S n' => s ++ repeat_str s n'
  end.

(** ** Character classes *)

Record cset := { negated : bool; ranges : list (N * N) }.

Definition in_ranges (c : char) (rs : list (N * N)) : bool :=
  existsb (fun r => (fst r <=? c)%N && (c <=? snd r)%N) rs.

Definition cset_mem (cs : cset) (c : char) : bool :=
  xorb (negated cs) (in_ranges c (ranges cs)).

Definition one (a : ascii) : N * N := (code a, code a).
Definition rng (a b : ascii) : N * N := (code a, code b).
Definition pos (rs : list (N * N)) : cset := {| negated := false; ranges := rs |}.
Definition neg (rs : list (N * N)) : cset := {| negated := true; ranges := rs |}.

(** [\s] and [String.prototype.trim]: WhiteSpace and LineTerminator. *)
Definition ws_ranges : list (N * N) :=
  [ (9, 13); (32, 32); (160, 160); (5760, 5760); (8192, 8202);
    (8232, 8233); (8239, 8239); (8287, 8287); (12288, 12288);
    (65279, 65279) ]%N.

(** [.] matches everything but the line terminators. *)
Definition line_terminators : list (N * N) :=
  [ (10, 10); (13, 13); (8232, 8233) ]%N.

(** [\w] *)
Definition word_ranges : list (N * N) :=
  [ rng "a" "z"; rng "A" "Z"; rng "0" "9"; one "_" ]%char.

Definition is_space (c : char) : bool := in_ranges c ws_ranges.

(** [s.trim()] *)
Fixpoint trim_start (s : str) : str :=
  match s with
  | [] => []
  | c :: s' => if is_space c then trim_start s' else s
  end.

Definition trim (s : str) : str := rev (trim_start (rev (trim_start s))).

(** ** Regular expressions *)

Inductive regex : Type :=
| Eps                                   (* the empty pattern *)
| Cls (cs : cset)                       (* one character of a class *)
| Seq (r1 r2 : regex)
| Alt (r1 r2 : regex)                   (* r1|r2, r1 first *)
| Star (greedy : bool) (r : regex)      (* r* and r*? *)
| Group (n : nat) (r : regex)           (* the n-th capturing group *)
| Backref (n : nat)                     (* \n *)
| Bol                                   (* ^ *)
| Eol.                                  (* $ *)

Definition captures := list (nat * str).

Fixpoint cap_get (n : nat) (cs : captures) : option str :=
  match cs with
  | [] => None
  | (m, w) :: cs' => if Nat.eqb m n then Some w else cap_get n cs'
  end.

Definition cont := str -> captures -> option (str * captures).

(** The loop of a repetition [r*] or [r*?]: [step] matches [r] once.  An
    iteration that consumes nothing is refused, as in the ECMAScript
    RepeatMatcher, so [length rest] rounds are enough
    ([star_loop_rounds]). *)
Fixpoint star_loop (step : cont -> str -> captures -> option (str * captures))
    (g : bool) (k : cont) (fuel : nat) (rest : str) (caps : captures)
    {struct fuel} : option (str * captures) :=
  match fuel with
  | O => k rest caps
  | S fuel' =>
      let again (_ : unit) :=
        step (fun rest' caps' =>
                if (length rest' <? length rest)%nat
                then star_loop step g k fuel' rest' caps' else None)
             rest caps in
      if g then
        match again tt with
        | Some x => Some x
        | None => k rest caps
        end
      else
        match k rest caps with
        | Some x => Some x
        | None => again tt
        end
  end.

(** The matcher, in continuation-passing style as in the ECMAScript
    definition.  [len] is the length of the whole subject, [rest] what is
    left of it at the current position. *)
Fixpoint rmatch (len : nat) (r : regex) (k : cont) (rest : str)
    (caps : captures) {struct r} : option (str * captures) :=
  match r with
  | Eps => k rest caps
  | Cls cs =>
      match rest with
      | c :: rest' => if cset_mem cs c then k rest' caps else None
      | [] => None
      end
  | Seq r1 r2 =>
      rmatch len r1 (fun rest' caps' => rmatch len r2 k rest' caps') rest caps
  | Alt r1 r2 =>
      match rmatch len r1 k rest caps with
      | Some x => Some x
      | None => rmatch len r2 k rest caps
      end
  | Star g r1 => star_loop (rmatch len r1) g k (length rest) rest caps
  | Group n r1 =>
      rmatch len r1
        (fun rest' caps' =>
           k rest' ((n, firstn (length rest - length rest') rest) :: caps'))
        rest caps
  | Backref n =>
      match cap_get n caps with
      | None => k rest caps
      | Some w =>
          match strip_prefix w rest with
          | Some rest' => k rest' caps
          | None => None
          end
      end
  | Bol => if Nat.eqb (length rest) len then k rest caps else None
  | Eol => match rest with [] => k rest caps | _ :: _ => None end
  end.

(** The result of a successful match: the text before it, the matched
    text, the text after it and the captures. *)
Record Match := {
  m_pre : str;
  m_text : str;
  m_post : str;
  m_caps : captures
}.

Definition accept : cont := fun rest caps => Some (rest, caps).

(** Leftmost match at or after the current position; [pre_rev] is the
    text before the position, reversed. *)
Fixpoint search_from (len : nat) (r : regex) (pre_rev rest : str)
    : option Match :=
  match rmatch len r accept rest [] with
  | Some (rest', caps') =>
      Some {| m_pre := rev pre_rev;
              m_text := firstn (length rest - length rest') rest;
              m_post := rest';
              m_caps := caps' |}
  | None =>
      match rest with
      | [] => None
      | c :: rest' => search_from len r (c :: pre_rev) rest'
      end
  end.

(** [re.exec(s)] / [s.match(re)] without the global flag *)
Definition exec (r : regex) (s : str) : option Match :=
  search_from (length s) r [] s.

(** [re.test(s)] *)
Definition test (r : regex) (s : str) : bool :=
  match exec r s with Some _ => true | None => false end.

(** The n-th capture of a match; an unset group reads as the empty string
    where the source concatenates it. *)
Definition group (n : nat) (m : Match) : str :=
  match cap_get n (m_caps m) with Some w => w | None => [] end.

(** [s.replace(re, f)] without the global flag: the first match only. *)
Definition replace_first (r : regex) (f : Match -> str) (s : str) : str :=
  match exec r s with
  | None => s
  | Some m => m_pre m ++ f m ++ m_post m
  end.

(** [s.replace(re, f)] with the global flag: every match, left to right,
    the search resuming after the previous match (one character further
    after an empty match).  Each round consumes a character, so
    [S (length s)] rounds are enough ([replace_all_rounds]). *)
Fixpoint replace_all_from (fuel len : nat) (r : regex) (f : Match -> str)
    (pre_rev rest : str) : str :=
  match fuel with
  | O => rest
  | S fuel' =>
      match search_from len r pre_rev rest with
      | None => rest
      | Some m =>
          let skipped := skipn (length pre_rev) (m_pre m) in
          match m_text m, m_post m with
          | [], [] => skipped ++ f m
          | [], c :: post' =>
              skipped ++ f m ++ c ::
                replace_all_from fuel' len r f (c :: rev (m_pre m)) post'
          | _ :: _, post =>
              skipped ++ f m ++
                replace_all_from fuel' len r f
                  (rev (m_text m) ++ rev (m_pre m)) post
          end
      end
  end.

Definition replace_all (r : regex) (f : Match -> str) (s : str) : str :=
  replace_all_from (S (length s)) (length s) r f [] s.

(** Number of matches of [s.match(re)] with the global flag, for a class
    of one character: [(s.match(/c/g) || []).length]. *)
Definition count_char (c : char) (s : str) : nat :=
  length (filter (N.eqb c) s).

(** *** Replacement templates ([GetSubstitution]) *)

Definition digit_val (c : char) : option nat :=
  if ((48 <=? c) && (c <=? 57))%N then Some (N.to_nat (c - 48)) else None.

(** [ngroups] is the number of capturing groups of the pattern. *)
Fixpoint get_substitution (m : Match) (ngroups : nat) (tpl : str) : str :=
  match tpl with
  | [] => []
  | c :: t =>
      if negb (N.eqb c 36) then c :: get_substitution m ngroups t
      else
        match t with
        | [] => [c]
        | d :: t' =>
            if N.eqb d 36 then 36%N :: get_substitution m ngroups t'
            else if N.eqb d 38 then m_text m ++ get_substitution m ngroups t'
            else if N.eqb d 96 then m_pre m ++ get_substitution m ngroups t'
            else if N.eqb d 39 then m_post m ++ get_substitution m ngroups t'
            else
              match digit_val d with
              | None => c :: get_substitution m ngroups t
              | Some a =>
                  let single :=
                    if ((1 <=? a) && (a <=? ngroups))%nat
                    then group a m ++ get_substitution m ngroups t'
                    else c :: d :: get_substitution m ngroups t' in
                  match t' with
                  | [] => single
                  | e :: t'' =>
                      match digit_val e with
                      | None => single
                      | Some b =>
                          let idx := (10 * a + b)%nat in
                          if (ngroups <? idx)%nat then single
                          else if (1 <=? idx)%nat
                          then group idx m ++ get_substitution m ngroups t''
                          else c :: d :: e :: get_substitution m ngroups t''
                      end
                  end
              end
        end
  end.

(** [s.replace(re, template)] *)
Definition replace_first_tpl (r : regex) (ngroups : nat) (tpl s : str) : str :=
  replace_first r (fun m => get_substitution m ngroups tpl) s.

Definition replace_all_tpl (r : regex) (ngroups : nat) (tpl s : str) : str :=
  replace_all r (fun m => get_substitution m ngroups tpl) s.

(** *** Pattern syntax *)

Definition chr (a : ascii) : regex := Cls (pos [one a]).

(** A letter under the [i] flag: both ASCII cases. *)
Definition chr_i (a : ascii) : regex :=
  let c := code a in
  if ((97 <=? c) && (c <=? 122))%N then Cls (pos [(c - 32, c - 32); (c, c)]%N)
  else if ((65 <=? c) && (c <=? 90))%N then Cls (pos [(c, c); (c + 32, c + 32)]%N)
  else Cls (pos [(c, c)]).

Fixpoint lit (s : string) : regex :=
  match s with
  | EmptyString => Eps
  | String a EmptyString => chr a
  | String a s' => Seq (chr a) (lit s')
  end.

Fixpoint lit_i (s : string) : regex :=
  match s with
  | EmptyString => Eps
  | String a EmptyString => chr_i a
  | String a s' => Seq (chr_i a) (lit_i s')
  end.

Fixpoint seqs (rs : list regex) : regex :=
  match rs with
  | [] => Eps
  | [r] => r
  | r :: rs' => Seq r (seqs rs')
  end.

Fixpoint alts (rs : list regex) : regex :=
  match rs with
  | [] => Eps
  | [r] => r
  | r :: rs' => Alt r (alts rs')
  end.

Definition star (r : regex) : regex := Star true r.          (* r*  *)
Definition plus (r : regex) : regex := Seq r (Star true r).  (* r+  *)
Definition plus_lazy (r : regex) : regex := Seq r (Star false r). (* r+? *)
Definition star_lazy (r : regex) : regex := Star false r.    (* r*? *)
Definition opt (r : regex) : regex := Alt r Eps.             (* r?  *)
Definition at_least2 (r : regex) : regex := Seq r (Seq r (Star true r)). (* r{2,} *)

Definition ws : regex := Cls (pos ws_ranges).                (* \s *)
Definition dot : regex := Cls (neg line_terminators).        (* .  *)
Definition quote : regex := Cls (pos [(39, 39); (34, 34)]%N).     (* a single or double quote *)
Definition not_quote : regex := Cls (neg [(39, 39); (34, 34)]%N). (* anything but a quote *)
Definition not_gt : regex := Cls (neg [one ">"]%char).       (* [^>] *)

(** ** Configuration and formatter state *)

(** The three fields the constructor initialises. *)
Record Config := {
  indentSize : nat;
  useTabs : bool;
  preserveNewLines : bool
}.

(** [new TwigFormatter()] *)
Definition default_config : Config :=
  {| indentSize := 4; useTabs := false; preserveNewLines := true |}.

(** [const indentChar = this.useTabs ? '\t' : ' '.repeat(this.indentSize)] *)
Definition indentChar (cfg : Config) : str :=
  if useTabs cfg then [TAB] else repeat_str [SP] (indentSize cfg).

(** The local variables of [format].  The two depths are JavaScript
    numbers that only ever hold integers; they are integers here, with
    [Math.max(0, _)] written out, so that staying non-negative is a
    property of the code and not of the type. *)
Record State := {
  formattedLines : list str;
  twigIndentLevel : Z;
  htmlIndentLevel : Z;
  inComment : bool;
  inVerbatim : bool;
  inScriptTag : bool;
  inStyleTag : bool;
  scriptTagBaseIndent : Z;
  styleTagBaseIndent : Z;
  insideTwigAttribute : bool;
  attributeQuote : option char;        (* null, or the quote character *)
  attributeLines : list str
}.

Definition init_state : State :=
  {| formattedLines := [];
     twigIndentLevel := 0;
     htmlIndentLevel := 0;
     inComment := false;
     inVerbatim := false;
     inScriptTag := false;
     inStyleTag := false;
     scriptTagBaseIndent := 0;
     styleTagBaseIndent := 0;
     insideTwigAttribute := false;
     attributeQuote := None;
     attributeLines := [] |}.

Definition set_formattedLines (v : list str) (st : State) : State :=
  {| formattedLines := v;
     twigIndentLevel := twigIndentLevel st;
     htmlIndentLevel := htmlIndentLevel st;
     inComment := inComment st;
     inVerbatim := inVerbatim st;
     inScriptTag := inScriptTag st;
     inStyleTag := inStyleTag st;
     scriptTagBaseIndent := scriptTagBaseIndent st;
     styleTagBaseIndent := styleTagBaseIndent st;
     insideTwigAttribute := insideTwigAttribute st;
     attributeQuote := attributeQuote st;
     attributeLines := attributeLines st |}.

Definition set_twigIndentLevel (v : Z) (st : State) : State :=
  {| formattedLines := formattedLines st;
     twigIndentLevel := v;
     htmlIndentLevel := htmlIndentLevel st;
     inComment := inComment st;
     inVerbatim := inVerbatim st;
     inScriptTag := inScriptTag st;
     inStyleTag := inStyleTag st;
     scriptTagBaseIndent := scriptTagBaseIndent st;
     styleTagBaseIndent := styleTagBaseIndent st;
     insideTwigAttribute := insideTwigAttribute st;
     attributeQuote := attributeQuote st;
     attributeLines := attributeLines st |}.

Definition set_htmlIndentLevel (v : Z) (st : State) : State :=
  {| formattedLines := formattedLines st;
     twigIndentLevel := twigIndentLevel st;
     htmlIndentLevel := v;
     inComment := inComment st;
     inVerbatim := inVerbatim st;
     inScriptTag := inScriptTag st;
     inStyleTag := inStyleTag st;
     scriptTagBaseIndent := scriptTagBaseIndent st;
     styleTagBaseIndent := styleTagBaseIndent st;
     insideTwigAttribute := insideTwigAttribute st;
     attributeQuote := attributeQuote st;
     attributeLines := attributeLines st |}.

Definition set_inComment (v : bool) (st : State) : State :=
  {| formattedLines := formattedLines st;
     twigIndentLevel := twigIndentLevel st;
     htmlIndentLevel := htmlIndentLevel st;
     inComment := v;
     inVerbatim := inVerbatim st;
     inScriptTag := inScriptTag st;
     inStyleTag := inStyleTag st;
     scriptTagBaseIndent := scriptTagBaseIndent st;
     styleTagBaseIndent := styleTagBaseIndent st;
     insideTwigAttribute := insideTwigAttribute st;
     attributeQuote := attributeQuote st;
     attributeLines := attributeLines st |}.

Definition set_inVerbatim (v : bool) (st : State) : State :=
  {| formattedLines := formattedLines st;
     twigIndentLevel := twigIndentLevel st;
     htmlIndentLevel := htmlIndentLevel st;
     inComment := inComment st;
     inVerbatim := v;
     inScriptTag := inScriptTag st;
     inStyleTag := inStyleTag st;
     scriptTagBaseIndent := scriptTagBaseIndent st;
     styleTagBaseIndent := styleTagBaseIndent st;
     insideTwigAttribute := insideTwigAttribute st;
     attributeQuote := attributeQuote st;
     attributeLines := attributeLines st |}.

Definition set_inScriptTag (v : bool) (st : State) : State :=
  {| formattedLines := formattedLines st;
     twigIndentLevel := twigIndentLevel st;
     htmlIndentLevel := htmlIndentLevel st;
     inComment := inComment st;
     inVerbatim := inVerbatim st;
     inScriptTag := v;
     inStyleTag := inStyleTag st;
     scriptTagBaseIndent := scriptTagBaseIndent st;
     styleTagBaseIndent := styleTagBaseIndent st;
     insideTwigAttribute := insideTwigAttribute st;
     attributeQuote := attributeQuote st;
     attributeLines := attributeLines st |}.

Definition set_inStyleTag (v : bool) (st : State) : State :=
  {| formattedLines := formattedLines st;
     twigIndentLevel := twigIndentLevel st;
     htmlIndentLevel := htmlIndentLevel st;
     inComment := inComment st;
     inVerbatim := inVerbatim st;
     inScriptTag := inScriptTag st;
     inStyleTag := v;
     scriptTagBaseIndent := scriptTagBaseIndent st;
     styleTagBaseIndent := styleTagBaseIndent st;
     insideTwigAttribute := insideTwigAttribute st;
     attributeQuote := attributeQuote st;
     attributeLines := attributeLines st |}.

Definition set_scriptTagBaseIndent (v : Z) (st : State) : State :=
  {| formattedLines := formattedLines st;
     twigIndentLevel := twigIndentLevel st;
     htmlIndentLevel := htmlIndentLevel st;
     inComment := inComment st;
     inVerbatim := inVerbatim st;
     inScriptTag := inScriptTag st;
     inStyleTag := inStyleTag st;
     scriptTagBaseIndent := v;
     styleTagBaseIndent := styleTagBaseIndent st;
     insideTwigAttribute := insideTwigAttribute st;
     attributeQuote := attributeQuote st;
     attributeLines := attributeLines st |}.

Definition set_styleTagBaseIndent (v : Z) (st : State) : State :=
  {| formattedLines := formattedLines st;
     twigIndentLevel := twigIndentLevel st;
     htmlIndentLevel := htmlIndentLevel st;
     inComment := inComment st;
     inVerbatim := inVerbatim st;
     inScriptTag := inScriptTag st;
     inStyleTag := inStyleTag st;
     scriptTagBaseIndent := scriptTagBaseIndent st;
     styleTagBaseIndent := v;
     insideTwigAttribute := insideTwigAttribute st;
     attributeQuote := attributeQuote st;
     attributeLines := attributeLines st |}.

(** The three attribute variables are always assigned together. *)
Definition set_attribute (inside : bool) (q : option char) (ls : list str)
    (st : State) : State :=
  {| formattedLines := formattedLines st;
     twigIndentLevel := twigIndentLevel st;
     htmlIndentLevel := htmlIndentLevel st;
     inComment := inComment st;
     inVerbatim := inVerbatim st;
     inScriptTag := inScriptTag st;
     inStyleTag := inStyleTag st;
     scriptTagBaseIndent := scriptTagBaseIndent st;
     styleTagBaseIndent := styleTagBaseIndent st;
     insideTwigAttribute := inside;
     attributeQuote := q;
     attributeLines := ls |}.

(** [indentChar.repeat(twigIndentLevel + htmlIndentLevel)] *)
Definition indent (cfg : Config) (st : State) : str :=
  repeat_str (indentChar cfg)
    (Z.to_nat (twigIndentLevel st + htmlIndentLevel st)).

(** [formattedLines.push(x)] *)
Definition push (x : str) (st : State) : State :=
  set_formattedLines (formattedLines st ++ [x]) st.

(** [formattedLines.push(indent + x)] at the current depths *)
Definition emit (cfg : Config) (x : str) (st : State) : State :=
  push (indent cfg st ++ x) st.

(** ** The patterns of the source *)

Definition twig_open : regex := alts [lit "{%"; lit "{{"].     (* {%|{{ *)
Definition twig_close : regex := alts [lit "%}"; lit "}}"].    (* %}|}} *)
Definition not_twig_start : regex := Cls (neg [one "{"; one "%"]%char).
Definition twig_start : regex :=                                (* {[{%] *)
  Seq (chr "{") (Cls (pos [one "{"; one "%"]%char)).
Definition word_dash : regex := Cls (pos (word_ranges ++ [one "-"%char])).
Definition letter : regex := Cls (pos [rng "a" "z"; rng "A" "Z"]%char).
Definition alnum : regex :=
  Cls (pos [rng "a" "z"; rng "A" "Z"; rng "0" "9"]%char).

Module Re.

(** collapseTwigAttribute: [/\s*\n\s*/g] *)
Definition newline : regex := seqs [star ws; Cls (pos [(10, 10)]%N); star ws].

(** collapseTwigAttribute: [/\s{2,}/g] *)
Definition spaces : regex := at_least2 ws.

(** collapseTwigAttribute: [/({%|{{)/] *)
Definition has_twig : regex := Group 1 twig_open.

(** collapseTwigAttribute: the quoted value, an equals sign, white
    space, group 1 a quote, group 2 a greedy run of [.], then [\1] *)
Definition attr_value : regex :=
  seqs [chr "="; star ws; Group 1 quote; Group 2 (star dot); Backref 1].

(** collapseTwigAttribute: [/^([^\{\{%]+?)\s*({[{%])/] *)
Definition before_first : regex :=
  seqs [Bol; Group 1 (plus_lazy not_twig_start); star ws; Group 2 twig_start].

(** collapseTwigAttribute: [/(%}|}})\s*$/] *)
Definition after_last : regex := seqs [Group 1 twig_close; star ws; Eol].

(** collapseTwigAttribute, fallback: [/([^\{\{%]+?)\s*({[{%])/] *)
Definition before_any : regex :=
  seqs [Group 1 (plus_lazy not_twig_start); star ws; Group 2 twig_start].

(** collapseTwigAttribute, fallback: [(%}|}})], white space, then
    group 2 a quote; global *)
Definition close_quote : regex :=
  seqs [Group 1 twig_close; star ws; Group 2 quote].

(** splitTwigLine: [/(\{\%.*?\%\}|\{\{.*?\}\})/g] *)
Definition split : regex :=
  Group 1 (alts [ seqs [lit "{%"; star_lazy dot; lit "%}"];
                  seqs [lit "{{"; star_lazy dot; lit "}}"] ]).

(** format, attrMatch: [<[\w\-]+[^>]*(class|style|[a-zA-Z\-]+)=]
    then group 2 a quote, group 3 made of non-quotes, group 4
    [({%|{{)], non-quotes, and the end of the line *)
Definition attr_start : regex :=
  seqs [ chr "<"; plus word_dash; star not_gt;
         Group 1 (alts [ lit "class"; lit "style";
                         plus (Cls (pos [rng "a" "z"; rng "A" "Z"; one "-"]%char)) ]);
         chr "=";
         Group 2 quote;
         Group 3 (seqs [star not_quote; Group 4 twig_open; star not_quote]);
         Eol ].

(** format, single-line attribute: [<[\w\-]+[^>]*=] a quote,
    non-quotes, [({%|{{)], non-quotes, a quote, [[^>]*>] *)
Definition attr_inline : regex :=
  seqs [ chr "<"; plus word_dash; star not_gt; chr "="; quote;
         star not_quote; Group 1 twig_open; star not_quote; quote;
         star not_gt; chr ">" ].

(** format: [/\{%\s*verbatim\s*%\}/] and [/\{%\s*endverbatim\s*%\}/] *)
Definition verbatim : regex :=
  seqs [lit "{%"; star ws; lit "verbatim"; star ws; lit "%}"].
Definition endverbatim : regex :=
  seqs [lit "{%"; star ws; lit "endverbatim"; star ws; lit "%}"].

(** format: [/<script[^>]*>/i], [/<\/script>/i] and the same for style *)
Definition script_open : regex :=
  seqs [chr "<"; lit_i "script"; star not_gt; chr ">"].
Definition script_close : regex := seqs [lit "</"; lit_i "script"; chr ">"].
Definition style_open : regex :=
  seqs [chr "<"; lit_i "style"; star not_gt; chr ">"].
Definition style_close : regex := seqs [lit "</"; lit_i "style"; chr ">"].

(** The common head [\{%-?\s*] of the tag patterns *)
Definition tag_head : regex := seqs [lit "{%"; opt (chr "-"); star ws].

(** [/\{%-?\s*name\s+/] *)
Definition tag_sp (name : string) : regex :=
  seqs [tag_head; lit name; plus ws].

(** [/\{%-?\s*name\s*%\}/] *)
Definition tag_end (name : string) : regex :=
  seqs [tag_head; lit name; star ws; lit "%}"].

(** [/\{%-?\s*name\s*-?%\}/] *)
Definition tag_dash_end (name : string) : regex :=
  seqs [tag_head; lit name; star ws; opt (chr "-"); lit "%}"].

(** isOpeningTag: openingTags *)
Definition openingTags : list regex :=
  [ tag_sp "block"; tag_sp "for"; tag_sp "if"; tag_sp "macro";
    tag_sp "embed"; tag_sp "autoescape"; tag_end "spaceless";
    tag_end "trans"; tag_sp "apply"; tag_sp "cache"; tag_end "sandbox";
    tag_sp "with"; tag_end "verbatim" ].

(** isOpeningTag: [/^\{%-?\s*set\s+.+%\}$/] *)
Definition single_line_set : regex :=
  seqs [Bol; tag_head; lit "set"; plus ws; plus dot; lit "%}"; Eol].

(** isClosingTag: closingTags *)
Definition closingTags : list regex :=
  [ tag_dash_end "endblock"; tag_dash_end "endfor"; tag_dash_end "endif";
    tag_dash_end "endmacro"; tag_dash_end "endset"; tag_dash_end "endembed";
    tag_dash_end "endautoescape"; tag_dash_end "endspaceless";
    tag_dash_end "endtrans"; tag_dash_end "endapply";
    tag_dash_end "endcache"; tag_dash_end "endsandbox";
    tag_dash_end "endwith"; tag_dash_end "endverbatim";
    tag_dash_end "else"; tag_sp "elseif" ].

(** isSelfClosingTag: selfClosing *)
Definition selfClosing : list regex :=
  [ tag_sp "include"; tag_sp "import"; tag_sp "from"; tag_sp "use";
    tag_sp "extends"; tag_sp "do"; tag_dash_end "flush";
    tag_sp "deprecated" ].

(** isMidBlockTag: midBlockTags *)
Definition midBlockTags : list regex :=
  [ tag_dash_end "else"; tag_sp "elseif" ].

(** isSingleLineBlock:
    [/\{%-?\s*(if|for|block|macro|embed|autoescape|apply|cache|sandbox|with)\s+.*%\}\s*\{%-?\s*end\1\s*-?%\}/] *)
Definition single_line_block : regex :=
  seqs [ tag_head;
         Group 1 (alts [ lit "if"; lit "for"; lit "block"; lit "macro";
                         lit "embed"; lit "autoescape"; lit "apply";
                         lit "cache"; lit "sandbox"; lit "with" ]);
         plus ws; star dot; lit "%}"; star ws;
         tag_head; lit "end"; Backref 1; star ws; opt (chr "-"); lit "%}" ].

(** isTwigInsideAttribute: [[a-zA-Z0-9-]+=], group 1 a quote, [.*\{[{%].*\1] *)
Definition twig_inside_attribute : regex :=
  seqs [ plus (Cls (pos [rng "a" "z"; rng "A" "Z"; rng "0" "9"; one "-"]%char));
         chr "="; Group 1 quote; star dot; twig_start; star dot; Backref 1 ].

(** isHtmlOpeningTag: [<[a-zA-Z][a-zA-Z0-9]*], an optional group of a
    white-space character and [[^<>]*], then [>] *)
Definition html_open : regex :=
  seqs [ chr "<"; letter; star alnum;
         opt (Group 1 (Seq ws (star (Cls (neg [one "<"; one ">"]%char)))));
         chr ">" ].

(** isHtmlClosingTag: [/<\/[a-zA-Z][a-zA-Z0-9]*>/] *)
Definition html_close : regex :=
  seqs [lit "</"; letter; star alnum; chr ">"].

(** isHtmlSelfClosingTag, with the i flag:
    [<(area|base|br|col|embed|hr|img|input|link|meta|param|source|track|wbr)],
    an optional group of a white-space character and [[^>]*], then
    [\/?>$] *)
Definition html_void : regex :=
  seqs [ chr "<";
         Group 1 (alts [ lit_i "area"; lit_i "base"; lit_i "br"; lit_i "col";
                         lit_i "embed"; lit_i "hr"; lit_i "img";
                         lit_i "input"; lit_i "link"; lit_i "meta";
                         lit_i "param"; lit_i "source"; lit_i "track";
                         lit_i "wbr" ]);
         opt (Group 2 (Seq ws (star not_gt)));
         opt (chr "/"); chr ">"; Eol ].

End Re.

(** ** The tag classifiers *)

(** [patterns.some(pattern => pattern.test(line))] *)
Definition some_test (patterns : list regex) (line : str) : bool :=
  existsb (fun r => test r line) patterns.

Definition isOpeningTag (line : str) : bool :=
  let isSingleLineSet := test Re.single_line_set line in
  if isSingleLineSet then false
  else some_test Re.openingTags line.

Definition isClosingTag (line : str) : bool := some_test Re.closingTags line.

Definition isSelfClosingTag (line : str) : bool :=
  some_test Re.selfClosing line.

Definition isMidBlockTag (line : str) : bool :=
  some_test Re.midBlockTags line.

Definition isSingleLineBlock (line : str) : bool :=
  test Re.single_line_block line.

Definition isTwigInsideAttribute (line : str) : bool :=
  test Re.twig_inside_attribute line.

Definition isHtmlOpeningTag (line : str) : bool := test Re.html_open line.

Definition isHtmlClosingTag (line : str) : bool := test Re.html_close line.

Definition isHtmlSelfClosingTag (line : str) : bool :=
  let trimmed := trim line in
  test Re.html_void trimmed || ends_with (u "/>") trimmed.

Definition shouldDecreaseHtmlIndent (line : str) (isCompleteTag : bool) : bool :=
  negb isCompleteTag && isHtmlClosingTag line &&
  negb (isHtmlSelfClosingTag line).

Definition shouldIncreaseHtmlIndent (line : str) (isCompleteTag : bool) : bool :=
  negb isCompleteTag && isHtmlOpeningTag line &&
  negb (isHtmlSelfClosingTag line) && negb (isHtmlClosingTag line).

(** ** collapseTwigAttribute *)

Definition is_empty (s : str) : bool :=
  match s with [] => true | _ :: _ => false end.

Definition collapseTwigAttribute (attributeLines : list str) : str :=
  let collapsed :=
    replace_all_tpl Re.spaces 0 [SP]
      (replace_all_tpl Re.newline 0 [SP] (join [SP] attributeLines)) in
  let collapsed :=
    if test Re.has_twig collapsed then
      match exec Re.attr_value collapsed with
      | Some m =>
          let quote := group 1 m in
          let attrValue := group 2 m in
          (* before the first Twig block *)
          let attrValue :=
            replace_first Re.before_first
              (fun m' => trim (group 1 m') ++ [SP] ++ group 2 m') attrValue in
          (* after the last Twig block *)
          let attrValue :=
            replace_first Re.after_last
              (fun m' => group 1 m' ++ [SP]) attrValue in
          let attrValue := trim (replace_all_tpl Re.spaces 0 [SP] attrValue) in
          (* rebuild the attribute; the new text is a replacement template *)
          replace_first_tpl Re.attr_value 2
            (u "=" ++ quote ++ attrValue ++ quote) collapsed
      | None =>
          replace_all_tpl Re.spaces 0 [SP]
            (replace_all_tpl Re.close_quote 2 (u "$1 $2")
               (replace_first Re.before_any
                  (fun m' => trim (group 1 m') ++ [SP] ++ group 2 m')
                  collapsed))
      end
    else collapsed in
  trim collapsed.

(** ** splitTwigLine *)

Definition nonempty (s : str) : list str :=
  match s with [] => [] | _ :: _ => [s] end.

(** The [while ((match = re.exec(line)) !== null)] loop: [pre_rev] is the
    text before [lastIndex], reversed, [rest] the text from [lastIndex]
    on.  Every match of the pattern has at least four characters, so
    [S (length line)] rounds are enough ([split_loop_rounds]). *)
Fixpoint split_loop (fuel len : nat) (pre_rev rest : str) : list str :=
  match fuel with
  | O => nonempty rest
  | S fuel' =>
      match search_from len Re.split pre_rev rest with
      | Some m =>
          nonempty (skipn (length pre_rev) (m_pre m)) ++
          m_text m ::
          split_loop fuel' len (rev (m_text m) ++ rev (m_pre m)) (m_post m)
      | None => nonempty rest
      end
  end.

Definition splitTwigLine (line : str) : list str :=
  filter (fun s => negb (is_empty (trim s)))
    (split_loop (S (length line)) (length line) [] line).

(** ** format *)

Local Open Scope Z_scope.

(** The brace and bracket count of a script or style line:
    [(openBraces + openBrackets) - (closeBraces + closeBrackets)] *)
Definition netChange (trimmed : str) : Z :=
  let openBraces := Z.of_nat (count_char (code "{") trimmed) in
  let closeBraces := Z.of_nat (count_char (code "}") trimmed) in
  let openBrackets := Z.of_nat (count_char (code "[") trimmed) in
  let closeBrackets := Z.of_nat (count_char (code "]") trimmed) in
  (openBraces + openBrackets) - (closeBraces + closeBrackets).

(** A line inside a script or style region, in three steps: the decrease
    before rendering, the rendering, the increase after it. *)
Definition script_before (trimmedLine : str) (st : State) : State :=
  if netChange trimmedLine <? 0
  then set_htmlIndentLevel
         (Z.max 0 (htmlIndentLevel st + netChange trimmedLine)) st
  else st.

Definition script_after (trimmedLine : str) (st : State) : State :=
  if 0 <? netChange trimmedLine
  then set_htmlIndentLevel (htmlIndentLevel st + netChange trimmedLine) st
  else st.

Definition script_body_line (cfg : Config) (st : State) (trimmedLine : str)
    : State :=
  script_after trimmedLine
    (emit cfg trimmedLine (script_before trimmedLine st)).

(** One item of a split line, in three steps as well: the decreases
    before the output, the output, the increases after it. *)
Definition item_before (item : str) (st : State) : State :=
  let isCompleteTag := isHtmlOpeningTag item && isHtmlClosingTag item in
  let st :=
    if shouldDecreaseHtmlIndent item isCompleteTag
    then set_htmlIndentLevel (Z.max 0 (htmlIndentLevel st - 1)) st
    else st in
  if isClosingTag item
  then set_twigIndentLevel (Z.max 0 (twigIndentLevel st - 1)) st
  else st.

Definition item_after (item : str) (st : State) : State :=
  let isCompleteTag := isHtmlOpeningTag item && isHtmlClosingTag item in
  let st :=
    if isOpeningTag item && negb (isSelfClosingTag item) &&
       negb (isSingleLineBlock item)
    then set_twigIndentLevel (twigIndentLevel st + 1) st
    else st in
  let st :=
    if isMidBlockTag item
    then set_twigIndentLevel (twigIndentLevel st + 1) st
    else st in
  if shouldIncreaseHtmlIndent item isCompleteTag
  then set_htmlIndentLevel (htmlIndentLevel st + 1) st
  else st.

(** The body of [for (let t = 0; t < splitLines.length; t++)] *)
Definition process_item (cfg : Config) (st : State) (splitLine : str) : State :=
  let item := trim splitLine in
  if isTwigInsideAttribute item then emit cfg item st
  else item_after item (emit cfg item (item_before item st)).

(** [attributeLines.join('\n').split(attributeQuote).length - 1]; the
    quote is never null when this is evaluated. *)
Definition quoteCount (q : option char) (attributeLines : list str) : nat :=
  match q with
  | Some c => (length (split_char c (join [NL] attributeLines)) - 1)%nat
  | None => 0%nat
  end.

(** The four constants computed from [trimmedLine] before the script and
    style rules. *)
Definition isScriptOpening (trimmedLine : str) : bool :=
  test Re.script_open trimmedLine && negb (test Re.script_close trimmedLine).

Definition isScriptClosing (trimmedLine : str) : bool :=
  test Re.script_close trimmedLine.

Definition isStyleOpening (trimmedLine : str) : bool :=
  test Re.style_open trimmedLine && negb (test Re.style_close trimmedLine).

Definition isStyleClosing (trimmedLine : str) : bool :=
  test Re.style_close trimmedLine.

(** The body of [for (let i = 0; i < lines.length; i++)]: every
    [continue] of the source is a branch that returns the state. *)
Definition format_line (cfg : Config) (st : State) (line : str) : State :=
  let trimmedLine := trim line in
  if insideTwigAttribute st then
    (* already inside a multi-line attribute value *)
    let st := set_attribute true (attributeQuote st)
                (attributeLines st ++ [line]) st in
    if Nat.even (quoteCount (attributeQuote st) (attributeLines st)) then
      let collapsed := collapseTwigAttribute (attributeLines st) in
      set_attribute false None [] (emit cfg collapsed st)
    else st
  else
  match exec Re.attr_start line with
  | Some attrMatch =>
      set_attribute true (hd_error (group 2 attrMatch)) [line] st
  | None =>
  if test Re.attr_inline line then
    emit cfg (collapseTwigAttribute [line]) st
  else if is_empty trimmedLine && preserveNewLines cfg then
    push [] st
  else if is_empty trimmedLine && negb (preserveNewLines cfg) then
    st
  else
  (* multi-line comments *)
  let st := if includes (u "{#") trimmedLine then set_inComment true st else st in
  if inComment st then
    let st := emit cfg trimmedLine st in
    if includes (u "#}") trimmedLine then set_inComment false st else st
  else
  (* verbatim blocks *)
  let st := if test Re.verbatim trimmedLine then set_inVerbatim true st else st in
  if inVerbatim st then
    let st := emit cfg trimmedLine st in
    if test Re.endverbatim trimmedLine then set_inVerbatim false st else st
  else
  if isScriptOpening trimmedLine then
    let st := emit cfg trimmedLine st in
    let st := set_inScriptTag true st in
    let st := set_scriptTagBaseIndent (htmlIndentLevel st) st in
    set_htmlIndentLevel (htmlIndentLevel st + 1) st
  else if isStyleOpening trimmedLine then
    let st := emit cfg trimmedLine st in
    let st := set_inStyleTag true st in
    let st := set_styleTagBaseIndent (htmlIndentLevel st) st in
    set_htmlIndentLevel (htmlIndentLevel st + 1) st
  else if isScriptClosing trimmedLine then
    let st := set_htmlIndentLevel (scriptTagBaseIndent st) st in
    let st := set_inScriptTag false st in
    emit cfg trimmedLine st
  else if isStyleClosing trimmedLine then
    let st := set_htmlIndentLevel (styleTagBaseIndent st) st in
    let st := set_inStyleTag false st in
    emit cfg trimmedLine st
  else if inScriptTag st || inStyleTag st then
    script_body_line cfg st trimmedLine
  else
    fold_left (process_item cfg) (splitTwigLine line) st
  end.

(** The state after the loop over [lines] *)
Definition format_lines (cfg : Config) (lines : list str) : State :=
  fold_left (format_line cfg) lines init_state.

(** [format(text)] *)
Definition format (cfg : Config) (text : str) : str :=
  join [NL] (formattedLines (format_lines cfg (split_char NL text))).


(** * Definitions used to state the properties *)

(** ** Program points of [format]

    [reachable cfg st] holds of the initial state and is closed under the
    loop body, under the body of the inner loop over the items, and under
    every single assignment the source makes in between (each taken
    whether or not its guard holds).  Every value the variables of
    [format] hold at any point of a run, on any input, is reachable. *)
Inductive reachable (cfg : Config) : State -> Prop :=
| reach_init :
    reachable cfg init_state
| reach_line st line :
    reachable cfg st -> reachable cfg (format_line cfg st line)
| reach_item st splitLine :
    reachable cfg st -> reachable cfg (process_item cfg st splitLine)
| reach_item_before st item :
    reachable cfg st -> reachable cfg (item_before item st)
| reach_item_after st item :
    reachable cfg st -> reachable cfg (item_after item st)
| reach_script_before st trimmedLine :
    reachable cfg st -> reachable cfg (script_before trimmedLine st)
| reach_script_after st trimmedLine :
    reachable cfg st -> reachable cfg (script_after trimmedLine st)
| reach_html_dec st :                 (* Math.max(0, htmlIndentLevel - 1) *)
    reachable cfg st ->
    reachable cfg (set_htmlIndentLevel (Z.max 0 (htmlIndentLevel st - 1)) st)
| reach_twig_dec st :                 (* Math.max(0, twigIndentLevel - 1) *)
    reachable cfg st ->
    reachable cfg (set_twigIndentLevel (Z.max 0 (twigIndentLevel st - 1)) st)
| reach_html_inc st :                 (* htmlIndentLevel++ *)
    reachable cfg st ->
    reachable cfg (set_htmlIndentLevel (htmlIndentLevel st + 1) st)
| reach_twig_inc st :                 (* twigIndentLevel++ *)
    reachable cfg st ->
    reachable cfg (set_twigIndentLevel (twigIndentLevel st + 1) st)
| reach_save_script st :              (* scriptTagBaseIndent = htmlIndentLevel *)
    reachable cfg st ->
    reachable cfg (set_scriptTagBaseIndent (htmlIndentLevel st) st)
| reach_save_style st :               (* styleTagBaseIndent = htmlIndentLevel *)
    reachable cfg st ->
    reachable cfg (set_styleTagBaseIndent (htmlIndentLevel st) st)
| reach_restore_script st :           (* htmlIndentLevel = scriptTagBaseIndent *)
    reachable cfg st ->
    reachable cfg (set_htmlIndentLevel (scriptTagBaseIndent st) st)
| reach_restore_style st :            (* htmlIndentLevel = styleTagBaseIndent *)
    reachable cfg st ->
    reachable cfg (set_htmlIndentLevel (styleTagBaseIndent st) st)
| reach_push st x :                   (* formattedLines.push(x) *)
    reachable cfg st -> reachable cfg (push x st)
| reach_comment st b :
    reachable cfg st -> reachable cfg (set_inComment b st)
| reach_verbatim st b :
    reachable cfg st -> reachable cfg (set_inVerbatim b st)
| reach_script st b :
    reachable cfg st -> reachable cfg (set_inScriptTag b st)
| reach_style st b :
    reachable cfg st -> reachable cfg (set_inStyleTag b st)
| reach_attribute st b q ls :
    reachable cfg st -> reachable cfg (set_attribute b q ls st).

(** The four depth variables are not negative. *)
Definition depths_ok (st : State) : Prop :=
  0 <= twigIndentLevel st /\ 0 <= htmlIndentLevel st /\
  0 <= scriptTagBaseIndent st /\ 0 <= styleTagBaseIndent st.

(** ** Mode flags *)

Definition b2n (b : bool) : nat := if b then 1%nat else 0%nat.

(** How many of the five mode flags are set. *)
Definition flags_set (st : State) : nat :=
  (b2n (inComment st) + b2n (inVerbatim st) + b2n (inScriptTag st) +
   b2n (inStyleTag st) + b2n (insideTwigAttribute st))%nat.

(** The five mode flags of two states agree. *)
Definition same_flags (st st' : State) : Prop :=
  inComment st' = inComment st /\ inVerbatim st' = inVerbatim st /\
  inScriptTag st' = inScriptTag st /\ inStyleTag st' = inStyleTag st /\
  insideTwigAttribute st' = insideTwigAttribute st.

(** Some flag that was not set in [st] is set in [st']. *)
Definition raised (st st' : State) : bool :=
  negb (inComment st) && inComment st' ||
  negb (inVerbatim st) && inVerbatim st' ||
  negb (inScriptTag st) && inScriptTag st' ||
  negb (inStyleTag st) && inStyleTag st' ||
  negb (insideTwigAttribute st) && insideTwigAttribute st'.

(** Every flag that is set in [st] is set in [st']. *)
Definition kept (st st' : State) : bool :=
  implb (inComment st) (inComment st') &&
  implb (inVerbatim st) (inVerbatim st') &&
  implb (inScriptTag st) (inScriptTag st') &&
  implb (inStyleTag st) (inStyleTag st') &&
  implb (insideTwigAttribute st) (insideTwigAttribute st').

(** ** Example documents *)

(** More closing tags than opening ones, in the template, in the markup
    and in a script. *)
Definition excess_closing_doc : list str :=
  map u [ "{% endif %}"; "</div>"; "{% endfor %}"; "<script>"; "}}}";
          "</script>"; "</p>" ]%string.

(** A comment opened inside a script region. *)
Definition comment_in_script_doc : list str :=
  map u [ "<script>"; "{# note" ]%string.

(** A document that ends inside an attribute value whose quote is never
    closed. *)
Definition unterminated_attribute_text : str :=
  join [NL] [ u "<p>x</p>";
              u "<div class=" ++ [DQ] ++ u "a {{ b }}";
              u "  c";
              u "</div>" ].

(** ** The order of the rules

    [reaches_tag_rules st line] says that none of the earlier rules of the
    loop body takes the line: the formatter is not buffering an attribute,
    the line starts no multi-line attribute and holds no single-line
    attribute with Twig, it is not blank, and no comment or verbatim
    region is open or opened by it. *)
Definition reaches_tag_rules (st : State) (line : str) : bool :=
  negb (insideTwigAttribute st) &&
  match exec Re.attr_start line with Some _ => false | None => true end &&
  negb (test Re.attr_inline line) &&
  negb (is_empty (trim line)) &&
  negb (includes (u "{#") (trim line)) && negb (inComment st) &&
  negb (test Re.verbatim (trim line)) && negb (inVerbatim st).

(** What the loop body does with such a line: the script and style
    rules, the script body rule and the split into items, as in
    [format_line]. *)
Definition tag_rules (cfg : Config) (st : State) (line : str) : State :=
  let trimmedLine := trim line in
  if isScriptOpening trimmedLine then
    let st := emit cfg trimmedLine st in
    let st := set_inScriptTag true st in
    let st := set_scriptTagBaseIndent (htmlIndentLevel st) st in
    set_htmlIndentLevel (htmlIndentLevel st + 1) st
  else if isStyleOpening trimmedLine then
    let st := emit cfg trimmedLine st in
    let st := set_inStyleTag true st in
    let st := set_styleTagBaseIndent (htmlIndentLevel st) st in
    set_htmlIndentLevel (htmlIndentLevel st + 1) st
  else if isScriptClosing trimmedLine then
    let st := set_htmlIndentLevel (scriptTagBaseIndent st) st in
    let st := set_inScriptTag false st in
    emit cfg trimmedLine st
  else if isStyleClosing trimmedLine then
    let st := set_htmlIndentLevel (styleTagBaseIndent st) st in
    let st := set_inStyleTag false st in
    emit cfg trimmedLine st
  else if inScriptTag st || inStyleTag st then
    script_body_line cfg st trimmedLine
  else
    fold_left (process_item cfg) (splitTwigLine line) st.

(** The line reaches the last rule of the loop body, the split into
    items: no earlier rule takes it. *)
Definition normal_path (st : State) (line : str) : bool :=
  reaches_tag_rules st line &&
  negb (isScriptOpening (trim line)) && negb (isStyleOpening (trim line)) &&
  negb (isScriptClosing (trim line)) && negb (isStyleClosing (trim line)) &&
  negb (inScriptTag st || inStyleTag st).

(** Two markup tags are open when a closing script tag arrives, and no
    script region was ever opened. *)
Definition stray_script_close_doc : list str :=
  map u [ "<div>"; "<section>" ]%string.

(** ** Script and style bodies *)

(** An if/else in a script: the line with the closing brace of the first
    block also opens the second one. *)
Definition script_else_doc : list str :=
  map u [ "<script>"; "if (a) {"; "x();"; "} else {"; "y();"; "}";
          "</script>" ]%string.

(** The state inside a script region, right after the opening tag. *)
Definition in_script_state : State :=
  format_lines default_config [u "<script>"].

(** ** Scenarios of the specification *)

(** [indentChar.repeat(n)] *)
Definition indent_at (cfg : Config) (n : Z) : str :=
  repeat_str (indentChar cfg) (Z.to_nat n).

Definition single_line_block : str := u "{% if x %}y{% endif %}".

Definition mid_block_doc : list str :=
  map u [ "{% if a %}"; "X"; "{% else %}"; "Y"; "{% endif %}" ]%string.

(** An elseif whose condition passes a named argument with a quoted
    Twig delimiter. *)
Definition elseif_with_quoted_twig : str :=
  u "{% elseif f(sep=" ++ [DQ] ++ u "{{" ++ [DQ] ++ u ") %}".

Definition mid_block_attr_doc : list str :=
  [ u "{% if a %}"; u "X"; elseif_with_quoted_twig; u "Y"; u "{% endif %}" ].




(** ** Line counts *)


(** ** Matching *)

(** [a] is what is left of [b] after some prefix. *)
Definition suffix_of (a b : str) : Prop := exists p, b = p ++ a.

Definition all_space (s : str) : bool := forallb is_space s.

(** ** Characters that a match needs *)

(** Every match of [r] holds the character [c]: a sufficient syntactic
    test. *)
Fixpoint requires (c : char) (r : regex) : bool :=
  match r with
  | Cls cs =>
      negb (negated cs) &&
      forallb (fun rg => N.eqb (fst rg) c && N.eqb (snd rg) c) (ranges cs)
  | Seq r1 r2 => requires c r1 || requires c r2
  | Alt r1 r2 => requires c r1 && requires c r2
  | Group _ r1 => requires c r1
  | Eps | Star _ _ | Backref _ | Bol | Eol => false
  end.

Definition LT : char := code "<".
Definition LBRACE : char := code "{".

(** [s] does not start with white space. *)
Definition no_lead (s : str) : Prop :=
  match s with
  | [] => True
  | c :: _ => is_space c = false
  end.

(** A tag over three lines with the line break of the first line inside
    an attribute value. *)
Definition multi_line_tag_text : str :=
  join [NL] [ u "<div class=" ++ [DQ] ++ u "a {{ b }}";
              u "  c" ++ [DQ];
              u ">" ].

(** A script tag whose source is a Twig expression, closed on the same
    line. *)
Definition script_with_twig_src : str :=
  u "<script src=" ++ [DQ] ++ u "{{ url }}" ++ [DQ] ++ u "></script>".

(** ** Characters of the output *)

(** Every captured text is made of characters that satisfy [P]. *)
Definition caps_all (P : char -> Prop) (caps : captures) : Prop :=
  Forall (fun nw => Forall P (snd nw)) caps.

Definition match_all (P : char -> Prop) (m : Match) : Prop :=
  Forall P (m_pre m) /\ Forall P (m_text m) /\ Forall P (m_post m) /\
  caps_all P (m_caps m).

(** No line feed. *)
Definition not_nl (c : char) : Prop := c <> NL.

(** The lines held by a state, emitted or buffered, hold no line feed. *)
Definition lines_ok (st : State) : Prop :=
  Forall (Forall not_nl) (formattedLines st) /\
  Forall (Forall not_nl) (attributeLines st).

(** ** Further definitions: content, control state, shapes of lines *)

(** The text without its white space. *)
Definition strip_ws (s : str) : str := filter (fun c => negb (is_space c)) s.

Definition LF_free (ls : list str) : Prop := Forall (Forall not_nl) ls.

(** Everything [format] keeps between lines except the output. *)
Definition control (st : State)
    : Z * Z * (bool * bool * bool * bool) * (Z * Z) *
      (bool * option char * list str) :=
  (twigIndentLevel st, htmlIndentLevel st,
   (inComment st, inVerbatim st, inScriptTag st, inStyleTag st),
   (scriptTagBaseIndent st, styleTagBaseIndent st),
   (insideTwigAttribute st, attributeQuote st, attributeLines st)).

(** A comment, verbatim or attribute region is open. *)
Definition region_open (st : State) : bool :=
  insideTwigAttribute st || inComment st || inVerbatim st.

(** A single or double quote. *)
Definition is_quote (c : char) : bool := N.eqb c SQ || N.eqb c DQ.

(** The numbers of the capturing groups of a pattern. *)
Fixpoint groups (r : regex) : list nat :=
  match r with
  | Seq r1 r2 | Alt r1 r2 => groups r1 ++ groups r2
  | Star _ r1 => groups r1
  | Group n r1 => n :: groups r1
  | Eps | Cls _ | Backref _ | Bol | Eol => []
  end.

(** An output line: whole indent units, then text without white space at
    either end. *)
Definition indented (cfg : Config) (l : str) : Prop :=
  exists n x, l = repeat_str (indentChar cfg) n ++ trim x.

(** A line that does not end in white space; an empty line only where
    [preserveNewLines] is on. *)
Definition no_trailing_space (cfg : Config) (l : str) : Prop :=
  match rev l with
  | [] => preserveNewLines cfg = true
  | c :: _ => is_space c = false
  end.

(** ** The script line classifiers *)

(** isJsClosingLine: [/^[}\]]/] *)
Definition js_close_start : regex :=
  seqs [Bol; Cls (pos [one "}"; one "]"]%char)].

(** isJsClosingLine: [/^\s*}\s*else/] *)
Definition js_close_else : regex :=
  seqs [Bol; star ws; chr "}"; star ws; lit "else"].

Definition isJsClosingLine (line : str) : bool :=
  let trimmed := trim line in
  if netChange trimmed <? 0 then true
  else if test js_close_start trimmed then true
  else if test js_close_else line then true
  else false.

Definition isJsOpeningLine (line : str) : bool :=
  let trimmed := trim line in
  if 0 <? netChange trimmed then true else false.

(** A line mixing markup, a template expression and text. *)
Definition mixed_line : str := u "  <p>Hello {{ name }}!</p>  ".


(** ** Repeated formatting *)

(** No attribute rule takes the line: it neither starts a multi-line
    attribute nor holds a single-line attribute with Twig. *)
Definition no_attribute_rule (l : str) : Prop :=
  exec Re.attr_start l = None /\ test Re.attr_inline l = false.

(** No attribute rule takes a line of the text. *)
Definition attribute_free (text : str) : Prop :=
  Forall no_attribute_rule (split_char NL text).

(** Neither a single nor a double quote occurs. *)
Definition quote_free (s : str) : Prop := Forall (fun c => is_quote c = false) s.

(** A pattern whose matches depend on the matched characters only: it
    has no anchor and no back-reference. *)
Fixpoint local (r : regex) : bool :=
  match r with
  | Eps | Cls _ => true
  | Seq r1 r2 | Alt r1 r2 => local r1 && local r2
  | Star _ r1 | Group _ r1 => local r1
  | Backref _ | Bol | Eol => false
  end.

(** Success of [k] on a text gives success of [k'] on the text followed
    by [extra], whatever the captures. *)
Definition ext (extra : str) (k k' : cont) : Prop :=
  forall rest c1 c2, k rest c1 <> None -> k' (rest ++ extra) c2 <> None.

(** Every match of [r] holds a character that satisfies [f]: a
    sufficient syntactic test. *)
Fixpoint requires_some (f : char -> bool) (r : regex) : bool :=
  match r with
  | Cls cs =>
      negb (negated cs) &&
      forallb (fun rg => N.eqb (fst rg) (snd rg) && f (fst rg)) (ranges cs)
  | Seq r1 r2 => requires_some f r1 || requires_some f r2
  | Alt r1 r2 => requires_some f r1 && requires_some f r2
  | Group _ r1 => requires_some f r1
  | Eps | Star _ _ | Backref _ | Bol | Eol => false
  end.

(** The character [d], as the one-character class of the patterns. *)
Definition is_char (d c : char) : bool := cset_mem (pos [(d, d)]) c.

(** What a lazy run of [.] followed by the two characters [d1 d2]
    takes: the text up to the first [d1 d2], when no line terminator
    comes before it; the result is the text after [d1 d2]. *)
Fixpoint scan (d1 d2 : char) (s : str) : option str :=
  match s with
  | [] => None
  | c :: s' =>
      match s' with
      | c' :: s'' =>
          if is_char d1 c && is_char d2 c' then Some s''
          else if cset_mem (neg line_terminators) c then scan d1 d2 s' else None
      | [] => None
      end
  end.

(** What the pattern of [splitTwigLine] matches at the start of [s]: a
    template tag up to its first closing delimiter, or a template
    expression up to its first closing delimiter. *)
Definition span_end (s : str) : option str :=
  match s with
  | c0 :: c1 :: s2 =>
      if is_char (code "{") c0 then
        if is_char (code "%") c1 then scan (code "%") (code "}") s2
        else if is_char (code "{") c1 then scan (code "}") (code "}") s2
        else None
      else None
  | _ => None
  end.

(** An item of a split line that is split no further when it is
    formatted again: behind any indent it comes back as the only
    item. *)
Definition stable (x : str) : Prop :=
  forall ind, forallb is_space ind = true ->
    map trim (splitTwigLine (ind ++ trim x)) = [trim x].

(** None of the tests that [format] makes on a whole line holds of the
    item. *)
Definition plain_tests (t : str) : Prop :=
  includes (u "{#") t = false /\ test Re.verbatim t = false /\
  test Re.script_open t = false /\ test Re.script_close t = false /\
  test Re.style_open t = false /\ test Re.style_close t = false.

(** No region is open. *)
Definition flags_off (st : State) : Prop :=
  insideTwigAttribute st = false /\ inComment st = false /\
  inVerbatim st = false /\ inScriptTag st = false /\ inStyleTag st = false.

(** A page with quoted attribute values, a block and an expression; no
    template code stands inside the quotes. *)
Definition quoted_markup_text : str :=
  join [NL]
    [ u "<div class=" ++ [DQ] ++ u "box" ++ [DQ] ++ u ">";
      u "{% if a %}";
      u "  <a href=" ++ [DQ] ++ u "x" ++ [DQ] ++ u ">{{ y }}</a>";
      u "";
      u "{% else %}{# none #}";
      u "<script>";
      u "if (a) { f([1]); }";
      u "</script>";
      u "{% endif %}";
      u "</div>" ].

(** The same kind of page without any quote. *)
Definition quote_free_text : str :=
  join [NL]
    [ u "<div>";
      u "{% for i in items %}";
      u "   <p>{{ i }}</p>  ";
      u "{% endfor %}";
      u "</div>" ].

(** * Properties *)

(** ** Tactics *)

Ltac break_if :=
  match goal with
  | |- context [if ?c then _ else _] =>
      lazymatch c with
      | context [if _ then _ else _] => fail
      | _ => destruct c eqn:?
      end
  end.

(** Closes a leaf of the case analysis of the flags. *)
Ltac flag_leaf st :=
  unfold flags_set; simpl;
  repeat match goal with H : _ st = _ |- _ => rewrite H end;
  simpl; try lia; try discriminate.


(** ** The matcher consumes a prefix *)

Lemma suffix_of_refl s : suffix_of s s.
Proof. now exists []. Qed.

Lemma suffix_of_trans a b c : suffix_of a b -> suffix_of b c -> suffix_of a c.
Proof.
  intros [p ->] [q ->]. exists (q ++ p). now rewrite app_assoc.
Qed.

Lemma suffix_of_cons a c s : suffix_of a s -> suffix_of a (c :: s).
Proof. intros [p ->]. now exists (c :: p). Qed.

Lemma suffix_of_length a b : suffix_of a b -> (length a <= length b)%nat.
Proof. intros [p ->]. rewrite length_app. lia. Qed.

Lemma strip_prefix_app p : forall s s', strip_prefix p s = Some s' -> s = p ++ s'.
Proof.
  induction p as [|x p IH]; intros s s' H; simpl in *.
  - now inversion H.
  - destruct s as [|y s]; [discriminate|].
    destruct (N.eqb x y) eqn:E; [|discriminate].
    apply N.eqb_eq in E. subst y. f_equal. now apply IH.
Qed.

Lemma star_loop_inv step g k :
  (forall k' rest caps res,
     step k' rest caps = Some res ->
     exists rest' caps', suffix_of rest' rest /\ k' rest' caps' = Some res) ->
  forall fuel rest caps res,
    star_loop step g k fuel rest caps = Some res ->
    exists rest' caps', suffix_of rest' rest /\ k rest' caps' = Some res.
Proof.
  intros Hstep. induction fuel as [|fuel IHf]; intros rest caps res H; simpl in H.
  - exists rest, caps. split; [apply suffix_of_refl | exact H].
  - assert (Hagain : forall res',
              step (fun rest' caps' =>
                      if (length rest' <? length rest)%nat
                      then star_loop step g k fuel rest' caps' else None)
                   rest caps = Some res' ->
              exists rest' caps', suffix_of rest' rest /\ k rest' caps' = Some res').
    { intros res' E. apply Hstep in E as (r' & c' & Hs & E).
      destruct (length r' <? length rest)%nat; [|discriminate].
      apply IHf in E as (r'' & c'' & Hs' & E).
      exists r'', c''. split; [|exact E]. eapply suffix_of_trans; eauto. }
    destruct g.
    + match type of H with
      | match ?a with _ => _ end = _ => destruct a eqn:E
      end.
      * inversion H; subst. now apply Hagain.
      * exists rest, caps. split; [apply suffix_of_refl | exact H].
    + destruct (k rest caps) eqn:E.
      * inversion H; subst. exists rest, caps.
        split; [apply suffix_of_refl | exact E].
      * now apply Hagain.
Qed.

(** A successful match ends in a call of the continuation on a suffix of
    the text it started from. *)
Lemma rmatch_inv len r : forall k rest caps res,
  rmatch len r k rest caps = Some res ->
  exists rest' caps', suffix_of rest' rest /\ k rest' caps' = Some res.
Proof.
  induction r as [ | cs | r1 IH1 r2 IH2 | r1 IH1 r2 IH2 | g r1 IH1
                 | n r1 IH1 | n | | ];
    intros k rest caps res H; simpl in H.
  - exists rest, caps. split; [apply suffix_of_refl | exact H].
  - destruct rest as [|c rest]; [discriminate|].
    destruct (cset_mem cs c); [|discriminate].
    exists rest, caps. split; [|exact H].
    apply suffix_of_cons, suffix_of_refl.
  - apply IH1 in H as (r' & c' & Hs & H).
    apply IH2 in H as (r'' & c'' & Hs' & H).
    exists r'', c''. split; [|exact H]. eapply suffix_of_trans; eauto.
  - destruct (rmatch len r1 k rest caps) eqn:E.
    + inversion H; subst. now apply IH1 in E.
    + now apply IH2 in H.
  - eapply star_loop_inv; [|exact H]. intros k' rest0 caps0 res0. apply IH1.
  - apply IH1 in H as (r' & c' & Hs & H). eauto.
  - destruct (cap_get n caps) as [w|].
    + destruct (strip_prefix w rest) as [rest'|] eqn:E; [|discriminate].
      exists rest', caps. split; [|exact H].
      exists w. now apply strip_prefix_app.
    + exists rest, caps. split; [apply suffix_of_refl | exact H].
  - destruct (Nat.eqb (length rest) len); [|discriminate].
    exists rest, caps. split; [apply suffix_of_refl | exact H].
  - destruct rest; [|discriminate].
    exists [], caps. split; [apply suffix_of_refl | exact H].
Qed.

Lemma suffix_firstn a b :
  suffix_of a b -> firstn (length b - length a) b ++ a = b.
Proof.
  intros [p ->]. rewrite length_app.
  replace (length p + length a - length a)%nat with (length p) by lia.
  rewrite firstn_app, Nat.sub_diag, firstn_all. simpl. now rewrite app_nil_r.
Qed.

Lemma search_from_unfold len r pre_rev rest :
  search_from len r pre_rev rest =
    match rmatch len r accept rest [] with
    | Some (rest', caps') =>
        Some {| m_pre := rev pre_rev;
                m_text := firstn (length rest - length rest') rest;
                m_post := rest';
                m_caps := caps' |}
    | None =>
        match rest with
        | [] => None
        | c :: rest' => search_from len r (c :: pre_rev) rest'
        end
    end.
Proof. destruct rest; reflexivity. Qed.

(** A match splits the text from the search position into the part
    skipped, the match and the rest. *)
Lemma search_from_spec len r : forall rest pre_rev m,
  search_from len r pre_rev rest = Some m ->
  exists skipped,
    m_pre m = rev pre_rev ++ skipped /\
    rest = skipped ++ m_text m ++ m_post m.
Proof.
  induction rest as [|c rest IH]; intros pre_rev m H;
    rewrite search_from_unfold in H;
    destruct (rmatch len r accept _ []) as [[rest' caps']|] eqn:E;
    try discriminate.
  - inversion H; subst; clear H. cbn [m_pre m_text m_post].
    apply rmatch_inv in E as (r' & c' & Hs & E). inversion E; subst.
    exists []. rewrite app_nil_r. split; [reflexivity|].
    destruct Hs as [p Hp]. destruct p; destruct rest'; try discriminate.
    reflexivity.
  - injection H as <-. cbn [m_pre m_text m_post].
    apply rmatch_inv in E as (r' & c' & Hs & E). inversion E; subst.
    exists []. rewrite app_nil_r. split; [reflexivity|].
    pose proof (suffix_firstn _ _ Hs) as F. simpl in *. now symmetry.
  - apply IH in H as (sk & Hpre & Hrest).
    exists (c :: sk). split.
    + rewrite Hpre. simpl. now rewrite <- app_assoc.
    + simpl. now rewrite <- Hrest.
Qed.

(** ** The repetition loop never runs out of rounds *)

Lemma star_loop_ext step g k1 k2 :
  (forall ka kb rest caps,
     (forall rest' caps', suffix_of rest' rest -> ka rest' caps' = kb rest' caps') ->
     step ka rest caps = step kb rest caps) ->
  forall fuel rest caps,
    (forall rest' caps', suffix_of rest' rest -> k1 rest' caps' = k2 rest' caps') ->
    star_loop step g k1 fuel rest caps = star_loop step g k2 fuel rest caps.
Proof.
  intros Hstep. induction fuel as [|fuel IH]; intros rest caps Hk; simpl.
  - apply Hk, suffix_of_refl.
  - rewrite (Hk rest caps (suffix_of_refl rest)).
    replace (step
               (fun rest' caps' =>
                  if (length rest' <? length rest)%nat
                  then star_loop step g k1 fuel rest' caps' else None)
               rest caps)
      with (step
              (fun rest' caps' =>
                 if (length rest' <? length rest)%nat
                 then star_loop step g k2 fuel rest' caps' else None)
              rest caps); [reflexivity|].
    apply Hstep. intros rest' caps' Hs.
    destruct (length rest' <? length rest)%nat; [|reflexivity].
    symmetry. apply IH. intros r'' c'' Hs'. apply Hk.
    eapply suffix_of_trans; eauto.
Qed.

(** The result of the matcher depends on the continuation only through
    its values on the suffixes of the text. *)
Lemma rmatch_ext len r : forall k1 k2 rest caps,
  (forall rest' caps', suffix_of rest' rest -> k1 rest' caps' = k2 rest' caps') ->
  rmatch len r k1 rest caps = rmatch len r k2 rest caps.
Proof.
  induction r as [ | cs | r1 IH1 r2 IH2 | r1 IH1 r2 IH2 | g r1 IH1
                 | n r1 IH1 | n | | ];
    intros k1 k2 rest caps Hk; simpl.
  - apply Hk, suffix_of_refl.
  - destruct rest as [|c rest]; [reflexivity|].
    destruct (cset_mem cs c); [|reflexivity].
    apply Hk, suffix_of_cons, suffix_of_refl.
  - apply IH1. intros rest' caps' Hs. apply IH2.
    intros r'' c'' Hs'. apply Hk. eapply suffix_of_trans; eauto.
  - rewrite (IH1 k1 k2 rest caps Hk), (IH2 k1 k2 rest caps Hk). reflexivity.
  - apply star_loop_ext; [|exact Hk].
    intros ka kb rest0 caps0. apply IH1.
  - apply IH1. intros rest' caps' Hs. now apply Hk.
  - destruct (cap_get n caps) as [w|]; [|apply Hk, suffix_of_refl].
    destruct (strip_prefix w rest) as [rest'|] eqn:E; [|reflexivity].
    apply Hk. exists w. now apply strip_prefix_app.
  - destruct (Nat.eqb (length rest) len); [|reflexivity].
    apply Hk, suffix_of_refl.
  - destruct rest; [|reflexivity]. apply Hk, suffix_of_refl.
Qed.

Lemma rmatch_dead_end len r rest caps :
  rmatch len r (fun _ _ => None) rest caps = None.
Proof.
  destruct (rmatch len r (fun _ _ => None) rest caps) eqn:E; [|reflexivity].
  apply rmatch_inv in E as (r' & c' & _ & E). discriminate.
Qed.

Lemma star_loop_at_end len r g k fuel caps :
  star_loop (rmatch len r) g k fuel [] caps = k [] caps.
Proof.
  destruct fuel as [|fuel]; [reflexivity|]. simpl.
  rewrite rmatch_dead_end.
  destruct g; [reflexivity|]. now destruct (k [] caps).
Qed.

(** With at least as many rounds as characters left, the result of the
    repetition loop does not depend on the number of rounds: the bound
    [length rest] given by [rmatch] is never the reason a match stops. *)
Lemma star_loop_rounds len r g k : forall fuel1 fuel2 rest caps,
  (length rest <= fuel1)%nat -> (length rest <= fuel2)%nat ->
  star_loop (rmatch len r) g k fuel1 rest caps =
    star_loop (rmatch len r) g k fuel2 rest caps.
Proof.
  induction fuel1 as [|fuel1 IH]; intros fuel2 rest caps H1 H2.
  - destruct rest; [|simpl in H1; lia]. now rewrite !star_loop_at_end.
  - destruct fuel2 as [|fuel2].
    + destruct rest; [|simpl in H2; lia]. now rewrite !star_loop_at_end.
    + simpl.
      replace (rmatch len r
                 (fun rest' caps' =>
                    if (length rest' <? length rest)%nat
                    then star_loop (rmatch len r) g k fuel1 rest' caps' else None)
                 rest caps)
        with (rmatch len r
                (fun rest' caps' =>
                   if (length rest' <? length rest)%nat
                   then star_loop (rmatch len r) g k fuel2 rest' caps' else None)
                rest caps); [reflexivity|].
      apply rmatch_ext. intros rest' caps' _.
      destruct (length rest' <? length rest)%nat eqn:E; [|reflexivity].
      apply Nat.ltb_lt in E. symmetry. apply IH; lia.
Qed.

(** ** Patterns that need a character *)

Lemma suffix_of_In a b c : suffix_of a b -> In c a -> In c b.
Proof. intros [p ->] H. apply in_or_app. now right. Qed.

Lemma requires_sound c len r : forall k rest caps,
  requires c r = true -> ~ In c rest -> rmatch len r k rest caps = None.
Proof.
  induction r as [ | cs | r1 IH1 r2 IH2 | r1 IH1 r2 IH2 | g r1 IH1
                 | n r1 IH1 | n | | ];
    intros k rest caps Hreq Hnot; simpl in Hreq; try discriminate.
  - simpl. destruct rest as [|x rest]; [reflexivity|].
    destruct (cset_mem cs x) eqn:Hmem; [|reflexivity].
    exfalso. apply Hnot. left.
    apply andb_prop in Hreq as [Hneg Hall].
    unfold cset_mem in Hmem. destruct (negated cs); [discriminate|].
    simpl in Hmem. unfold in_ranges in Hmem.
    apply existsb_exists in Hmem as (rg & Hin & Hrg).
    rewrite forallb_forall in Hall. specialize (Hall rg Hin).
    apply andb_prop in Hall as [H1 H2]. apply andb_prop in Hrg as [H3 H4].
    apply N.eqb_eq in H1, H2. apply N.leb_le in H3, H4. lia.
  - simpl. apply orb_prop in Hreq as [Hreq | Hreq].
    + now apply IH1.
    + destruct (rmatch len r1 _ rest caps) eqn:E; [|reflexivity].
      apply rmatch_inv in E as (r' & c' & Hs & E).
      rewrite IH2 in E; [discriminate | exact Hreq |].
      intros Hin. apply Hnot. eapply suffix_of_In; eauto.
  - simpl. apply andb_prop in Hreq as [H1 H2].
    rewrite IH1 by assumption. now apply IH2.
  - simpl. now apply IH1.
Qed.

Lemma requires_search c len r : forall rest pre_rev,
  requires c r = true -> ~ In c rest -> search_from len r pre_rev rest = None.
Proof.
  induction rest as [|x rest IH]; intros pre_rev Hreq Hnot;
    rewrite search_from_unfold, (requires_sound c len r _ _ _ Hreq Hnot).
  - reflexivity.
  - apply IH; [exact Hreq|]. intros Hin. apply Hnot. now right.
Qed.

Lemma requires_exec c r s :
  requires c r = true -> ~ In c s -> exec r s = None.
Proof. intros. unfold exec. now apply (requires_search c). Qed.

Lemma requires_test c r s :
  requires c r = true -> ~ In c s -> test r s = false.
Proof. intros. unfold test. now rewrite (requires_exec c). Qed.

Lemma requires_some_test c rs s :
  forallb (requires c) rs = true -> ~ In c s -> some_test rs s = false.
Proof.
  intros Hall Hnot. unfold some_test.
  induction rs as [|r rs IH]; simpl in *; [reflexivity|].
  apply andb_prop in Hall as [H1 H2].
  rewrite (requires_test c) by assumption. now apply IH.
Qed.

Lemma strip_prefix_In p : forall s c,
  starts_with p s = true -> In c p -> In c s.
Proof.
  unfold starts_with. intros s c H Hin.
  destruct (strip_prefix p s) as [s'|] eqn:E; [|discriminate].
  apply strip_prefix_app in E. subst s. apply in_or_app. now left.
Qed.

Lemma includes_In p c : forall s, includes p s = true -> In c p -> In c s.
Proof.
  induction s as [|x s IH]; intros H Hin; simpl in H.
  - rewrite orb_false_r in H. eapply strip_prefix_In; eauto.
  - apply orb_prop in H as [H | H].
    + eapply strip_prefix_In; eauto.
    + right. now apply IH.
Qed.

(** ** Trimming *)

Lemma trim_start_suffix s : suffix_of (trim_start s) s.
Proof.
  induction s as [|c s IH]; simpl; [apply suffix_of_refl|].
  destruct (is_space c); [now apply suffix_of_cons | apply suffix_of_refl].
Qed.

Lemma In_trim_start c s : In c (trim_start s) -> In c s.
Proof. apply suffix_of_In, trim_start_suffix. Qed.

Lemma In_trim c s : In c (trim s) -> In c s.
Proof.
  unfold trim. intros H. apply in_rev in H. apply In_trim_start in H.
  apply in_rev in H. now apply In_trim_start in H.
Qed.

Lemma no_lead_trim_start s : no_lead (trim_start s).
Proof.
  induction s as [|c s IH]; simpl; [exact I|].
  destruct (is_space c) eqn:E; [exact IH | exact E].
Qed.

Lemma trim_start_no_lead s : no_lead s -> trim_start s = s.
Proof. destruct s as [|c s]; simpl; [reflexivity|]. now intros ->. Qed.

Lemma trim_idempotent s : trim (trim s) = trim s.
Proof.
  unfold trim.
  set (a := trim_start s). set (b := trim_start (rev a)).
  assert (Hb : no_lead b) by apply no_lead_trim_start.
  assert (Hrb : no_lead (rev b)).
  { destruct (trim_start_suffix (rev a)) as [p Hp]. fold b in Hp.
    apply (f_equal (@rev char)) in Hp.
    rewrite rev_involutive, rev_app_distr in Hp.
    pose proof (no_lead_trim_start s) as Ha. fold a in Ha.
    destruct (rev b) as [|y ys]; [exact I|].
    rewrite Hp in Ha. exact Ha. }
  rewrite (trim_start_no_lead _ Hrb), rev_involutive.
  now rewrite (trim_start_no_lead _ Hb).
Qed.

Lemma trim_start_spaces p s :
  forallb is_space p = true -> trim_start (p ++ s) = trim_start s.
Proof.
  induction p as [|x p IH]; intros H; [reflexivity|].
  cbn [forallb] in H. apply andb_prop in H as [Hx Hp].
  cbn [app trim_start]. rewrite Hx. now apply IH.
Qed.

(** White space in front of a text does not change its trim. *)
Lemma trim_after_spaces p s : forallb is_space p = true -> trim (p ++ s) = trim s.
Proof. intros H. unfold trim. now rewrite (trim_start_spaces p s H). Qed.

Lemma all_space_repeat s n :
  forallb is_space s = true -> forallb is_space (repeat_str s n) = true.
Proof.
  intros H. induction n as [|n IH]; [reflexivity|].
  cbn [repeat_str]. now rewrite forallb_app, H, IH.
Qed.

Lemma all_space_indent cfg st : forallb is_space (indent cfg st) = true.
Proof.
  unfold indent. apply all_space_repeat. unfold indentChar.
  destruct (useTabs cfg); [reflexivity|]. now apply all_space_repeat.
Qed.

(** What [emit] pushes is the text again once it is trimmed. *)
Lemma trim_indented cfg st x : trim (indent cfg st ++ trim x) = trim x.
Proof. now rewrite (trim_after_spaces _ _ (all_space_indent cfg st)), trim_idempotent. Qed.

(** ** The split and replace loops never run out of rounds *)

(** A match of a pattern that needs a character holds that character. *)
Lemma requires_consumes c len r : forall k rest caps res,
  requires c r = true ->
  rmatch len r k rest caps = Some res ->
  exists p rest' caps',
    rest = p ++ rest' /\ In c p /\ k rest' caps' = Some res.
Proof.
  induction r as [ | cs | r1 IH1 r2 IH2 | r1 IH1 r2 IH2 | g r1 IH1
                 | n r1 IH1 | n | | ];
    intros k rest caps res Hreq H; simpl in Hreq; try discriminate.
  - simpl in H. destruct rest as [|x rest]; [discriminate|].
    destruct (cset_mem cs x) eqn:Hmem; [|discriminate].
    exists [x], rest, caps. split; [reflexivity|]. split; [|exact H].
    left.
    apply andb_prop in Hreq as [Hneg Hall].
    unfold cset_mem in Hmem. destruct (negated cs); [discriminate|].
    simpl in Hmem. unfold in_ranges in Hmem.
    apply existsb_exists in Hmem as (rg & Hin & Hrg).
    rewrite forallb_forall in Hall. specialize (Hall rg Hin).
    apply andb_prop in Hall as [H1 H2]. apply andb_prop in Hrg as [H3 H4].
    apply N.eqb_eq in H1, H2. apply N.leb_le in H3, H4. lia.
  - simpl in H. apply orb_prop in Hreq as [Hreq | Hreq].
    + apply (IH1 _ _ _ _ Hreq) in H as (p & r' & c' & -> & Hin & H).
      apply rmatch_inv in H as (r'' & c'' & [q ->] & H).
      exists (p ++ q), r'', c''. split; [now rewrite app_assoc|].
      split; [|exact H]. apply in_or_app. now left.
    + apply rmatch_inv in H as (r' & c' & [q ->] & H).
      apply (IH2 _ _ _ _ Hreq) in H as (p & r'' & c'' & -> & Hin & H).
      exists (q ++ p), r'', c''. split; [now rewrite app_assoc|].
      split; [|exact H]. apply in_or_app. now right.
  - simpl in H. apply andb_prop in Hreq as [H1 H2].
    destruct (rmatch len r1 k rest caps) eqn:E.
    + inversion H; subst. now apply (IH1 _ _ _ _ H1) in E.
    + now apply (IH2 _ _ _ _ H2) in H.
  - simpl in H. apply (IH1 _ _ _ _ Hreq) in H as (p & r' & c' & -> & Hin & H).
    eauto 6.
Qed.

Lemma app_inv_length {A} (p q a b : list A) :
  p ++ a = q ++ b -> length a = length b -> p = q.
Proof.
  intros H Hl.
  assert (Hp : length p = length q).
  { apply (f_equal (@length A)) in H. rewrite !length_app in H. lia. }
  revert q H Hp. induction p as [|x p IH]; intros [|y q] H Hp;
    simpl in *; try discriminate; [reflexivity|].
  injection H as -> H. f_equal. apply IH; [exact H | lia].
Qed.

Lemma requires_match_text c len r : forall rest pre_rev m,
  requires c r = true ->
  search_from len r pre_rev rest = Some m ->
  In c (m_text m).
Proof.
  induction rest as [|x rest IH]; intros pre_rev m Hreq H;
    rewrite search_from_unfold in H;
    destruct (rmatch len r accept _ []) as [[rest' caps']|] eqn:E;
    try discriminate.
  - injection H as <-. cbn [m_text].
    apply (requires_consumes c _ _ _ _ _ _ Hreq) in E
      as (p & r' & c' & Hp & Hin & E).
    destruct p; [destruct Hin | discriminate].
  - injection H as <-. cbn [m_text].
    apply (requires_consumes c _ _ _ _ _ _ Hreq) in E
      as (p & r' & c' & Hp & Hin & E).
    unfold accept in E. injection E as E1 E2. subst rest' caps'.
    change (In c (firstn (length (x :: rest) - length r') (x :: rest))).
    rewrite Hp, length_app.
    replace (length p + length r' - length r')%nat with (length p) by lia.
    rewrite firstn_app, Nat.sub_diag, firstn_all. simpl.
    now rewrite app_nil_r.
  - now apply (IH _ _ Hreq) in H.
Qed.

(** With more rounds than characters the result of [split_loop] does
    not depend on the number of rounds: the bound [S (length line)] of
    [splitTwigLine] is never reached. *)
Lemma split_loop_rounds len : forall fuel1 fuel2 pre_rev rest,
  (length rest < fuel1)%nat -> (length rest < fuel2)%nat ->
  split_loop fuel1 len pre_rev rest = split_loop fuel2 len pre_rev rest.
Proof.
  induction fuel1 as [|fuel1 IH]; intros fuel2 pre_rev rest H1 H2; [lia|].
  destruct fuel2 as [|fuel2]; [lia|]. cbn [split_loop].
  destruct (search_from len Re.split pre_rev rest) as [m|] eqn:E; [|reflexivity].
  pose proof (requires_match_text LBRACE len Re.split rest pre_rev m eq_refl E)
    as Hin.
  apply search_from_spec in E as (sk & Hpre & Hrest).
  assert (Hlen : (length (m_post m) < length rest)%nat).
  { rewrite Hrest, !length_app. destruct (m_text m); [destruct Hin|].
    simpl. lia. }
  f_equal. f_equal. apply IH; lia.
Qed.

(** The same for the global replace. *)
Lemma replace_all_rounds len r f : forall fuel1 fuel2 pre_rev rest,
  (length rest < fuel1)%nat -> (length rest < fuel2)%nat ->
  replace_all_from fuel1 len r f pre_rev rest =
    replace_all_from fuel2 len r f pre_rev rest.
Proof.
  induction fuel1 as [|fuel1 IH]; intros fuel2 pre_rev rest H1 H2; [lia|].
  destruct fuel2 as [|fuel2]; [lia|]. cbn [replace_all_from].
  destruct (search_from len r pre_rev rest) as [m|] eqn:E; [|reflexivity].
  apply search_from_spec in E as (sk & Hpre & Hrest).
  destruct (m_text m) as [|t ts] eqn:Ht; destruct (m_post m) as [|c post] eqn:Hpost;
    try reflexivity.
  all: subst rest; rewrite !length_app in H1, H2; cbn [length] in H1, H2.
  - do 3 f_equal. apply IH; lia.
  - do 2 f_equal. apply IH; cbn [length]; lia.
  - do 2 f_equal. apply IH; cbn [length]; lia.
Qed.

(** ** The output is made of characters of the input *)

Section Characters.

Variable P : char -> Prop.

Lemma suffix_of_Forall a b : suffix_of a b -> Forall P b -> Forall P a.
Proof. intros [p ->] H. now apply Forall_app in H. Qed.

Lemma Forall_firstn n (s : str) : Forall P s -> Forall P (firstn n s).
Proof.
  revert n. induction s as [|x s IH]; intros [|n] H; simpl; try constructor.
  - now inversion H.
  - apply IH. now inversion H.
Qed.

Lemma Forall_skipn n (s : str) : Forall P s -> Forall P (skipn n s).
Proof.
  revert n. induction s as [|x s IH]; intros [|n] H; simpl; auto.
  apply IH. now inversion H.
Qed.

Lemma star_loop_caps step g k :
  (forall k' rest caps res,
     Forall P rest -> caps_all P caps ->
     step k' rest caps = Some res ->
     exists rest' caps',
       suffix_of rest' rest /\ caps_all P caps' /\ k' rest' caps' = Some res) ->
  forall fuel rest caps res,
    Forall P rest -> caps_all P caps ->
    star_loop step g k fuel rest caps = Some res ->
    exists rest' caps',
      suffix_of rest' rest /\ caps_all P caps' /\ k rest' caps' = Some res.
Proof.
  intros Hstep. induction fuel as [|fuel IHf]; intros rest caps res HP HC H;
    simpl in H.
  - exists rest, caps. split; [apply suffix_of_refl | now split].
  - assert (Hagain : forall res',
              step (fun rest' caps' =>
                      if (length rest' <? length rest)%nat
                      then star_loop step g k fuel rest' caps' else None)
                   rest caps = Some res' ->
              exists rest' caps',
                suffix_of rest' rest /\ caps_all P caps' /\
                k rest' caps' = Some res').
    { intros res' E. apply Hstep in E as (r' & c' & Hs & Hc & E); try assumption.
      destruct (length r' <? length rest)%nat; [|discriminate].
      apply IHf in E as (r'' & c'' & Hs' & Hc' & E);
        [| eapply suffix_of_Forall; eauto | exact Hc].
      exists r'', c''. split; [eapply suffix_of_trans; eauto | now split]. }
    destruct g.
    + match type of H with
      | match ?a with _ => _ end = _ => destruct a eqn:E
      end.
      * inversion H; subst. now apply Hagain.
      * exists rest, caps. split; [apply suffix_of_refl | now split].
    + destruct (k rest caps) eqn:E.
      * inversion H; subst. exists rest, caps.
        split; [apply suffix_of_refl | now split].
      * now apply Hagain.
Qed.

Lemma cap_get_all n caps w :
  caps_all P caps -> cap_get n caps = Some w -> Forall P w.
Proof.
  unfold caps_all. induction 1 as [|[m v] caps Hv _ IH]; simpl; [discriminate|].
  destruct (Nat.eqb m n); [|exact IH]. intros E. now inversion E; subst.
Qed.

(** The captures of a match are pieces of the subject. *)
Lemma rmatch_caps len r : forall k rest caps res,
  Forall P rest -> caps_all P caps ->
  rmatch len r k rest caps = Some res ->
  exists rest' caps',
    suffix_of rest' rest /\ caps_all P caps' /\ k rest' caps' = Some res.
Proof.
  induction r as [ | cs | r1 IH1 r2 IH2 | r1 IH1 r2 IH2 | g r1 IH1
                 | n r1 IH1 | n | | ];
    intros k rest caps res HP HC H; simpl in H.
  - exists rest, caps. split; [apply suffix_of_refl | now split].
  - destruct rest as [|c rest]; [discriminate|].
    destruct (cset_mem cs c); [|discriminate].
    exists rest, caps. split; [|now split].
    apply suffix_of_cons, suffix_of_refl.
  - apply IH1 in H as (r' & c' & Hs & Hc & H); try assumption.
    apply IH2 in H as (r'' & c'' & Hs' & Hc' & H);
      [| eapply suffix_of_Forall; eauto | exact Hc].
    exists r'', c''. split; [eapply suffix_of_trans; eauto | now split].
  - destruct (rmatch len r1 k rest caps) eqn:E.
    + inversion H; subst. now apply IH1 in E.
    + now apply IH2 in H.
  - eapply star_loop_caps; [| exact HP | exact HC | exact H].
    intros k' rest0 caps0 res0. apply IH1.
  - apply IH1 in H as (r' & c' & Hs & Hc & H); try assumption.
    exists r', ((n, firstn (length rest - length r') rest) :: c').
    split; [exact Hs|]. split; [|exact H].
    constructor; [|exact Hc]. simpl. now apply Forall_firstn.
  - destruct (cap_get n caps) as [w|].
    + destruct (strip_prefix w rest) as [rest'|] eqn:E; [|discriminate].
      exists rest', caps. split; [|now split].
      exists w. now apply strip_prefix_app.
    + exists rest, caps. split; [apply suffix_of_refl | now split].
  - destruct (Nat.eqb (length rest) len); [|discriminate].
    exists rest, caps. split; [apply suffix_of_refl | now split].
  - destruct rest; [|discriminate].
    exists [], caps. split; [apply suffix_of_refl | now split].
Qed.

Lemma search_from_caps len r : forall rest pre_rev m,
  Forall P rest ->
  search_from len r pre_rev rest = Some m -> caps_all P (m_caps m).
Proof.
  induction rest as [|x rest IH]; intros pre_rev m HP H;
    rewrite search_from_unfold in H;
    destruct (rmatch len r accept _ []) as [[rest' caps']|] eqn:E;
    try discriminate.
  - injection H as <-. cbn [m_caps].
    apply rmatch_caps in E as (r' & c' & _ & Hc & E);
      [| exact HP | constructor].
    unfold accept in E. now injection E as _ <-.
  - injection H as <-. cbn [m_caps].
    apply rmatch_caps in E as (r' & c' & _ & Hc & E);
      [| exact HP | constructor].
    unfold accept in E. now injection E as _ <-.
  - apply IH in H; [exact H|]. now inversion HP.
Qed.

Lemma search_from_all len r rest pre_rev m :
  Forall P pre_rev -> Forall P rest ->
  search_from len r pre_rev rest = Some m -> match_all P m.
Proof.
  intros Hpre HP H. unfold match_all.
  pose proof (search_from_caps _ _ _ _ _ HP H) as Hc.
  apply search_from_spec in H as (sk & E1 & E2).
  rewrite E2 in HP. apply Forall_app in HP as [Hsk HP].
  apply Forall_app in HP as [Ht Hpost].
  rewrite E1. repeat split; try assumption.
  apply Forall_app. split; [|exact Hsk]. now apply Forall_rev.
Qed.

Lemma group_all n m : match_all P m -> Forall P (group n m).
Proof.
  intros (_ & _ & _ & Hc). unfold group.
  destruct (cap_get n (m_caps m)) eqn:E; [|constructor].
  eapply cap_get_all; eauto.
Qed.

Lemma get_substitution_all m n : forall tpl,
  match_all P m -> Forall P tpl -> Forall P (get_substitution m n tpl).
Proof.
  intros tpl Hm. pose proof Hm as (Hpre & Htext & Hpost & _).
  assert (Hlen : forall k tpl, (length tpl <= k)%nat -> Forall P tpl ->
                               Forall P (get_substitution m n tpl)).
  { clear tpl. induction k as [|k IH]; intros tpl Hk HP.
    - destruct tpl; [constructor | simpl in Hk; lia].
    - destruct tpl as [|c t]; [constructor|].
      inversion HP as [|? ? Pc Pt]; subst. simpl in Hk.
      cbn [get_substitution].
      destruct (negb (N.eqb c 36)).
      { constructor; [exact Pc|]. apply IH; [lia | exact Pt]. }
      destruct t as [|d t']; [now constructor|].
      inversion Pt as [|? ? Pd Pt']; subst. simpl in Hk.
      assert (R' : Forall P (get_substitution m n t')) by (apply IH; [lia|exact Pt']).
      assert (R : Forall P (get_substitution m n (d :: t'))) by (apply IH; [simpl; lia|exact Pt]).
      destruct (N.eqb d 36) eqn:Ed.
      { apply N.eqb_eq in Ed. subst d. now constructor. }
      destruct (N.eqb d 38); [now apply Forall_app|].
      destruct (N.eqb d 96); [now apply Forall_app|].
      destruct (N.eqb d 39); [now apply Forall_app|].
      destruct (digit_val d) as [a|]; [|now constructor].
      assert (S1 : Forall P
                     (if ((1 <=? a) && (a <=? n))%nat
                      then group a m ++ get_substitution m n t'
                      else c :: d :: get_substitution m n t')).
      { destruct ((1 <=? a) && (a <=? n))%nat.
        - apply Forall_app. split; [now apply group_all | exact R'].
        - now repeat constructor. }
      destruct t' as [|e t'']; [exact S1|].
      inversion Pt' as [|? ? Pe Pt'']; subst. simpl in Hk.
      destruct (digit_val e) as [b|]; [|exact S1].
      destruct (n <? 10 * a + b)%nat; [exact S1|].
      assert (R'' : Forall P (get_substitution m n t''))
        by (apply IH; [lia|exact Pt'']).
      destruct (1 <=? 10 * a + b)%nat.
      + apply Forall_app. split; [now apply group_all | exact R''].
      + now repeat constructor. }
  intros HP. now apply (Hlen (length tpl)).
Qed.

Lemma replace_first_all r f s :
  (forall m, match_all P m -> Forall P (f m)) ->
  Forall P s -> Forall P (replace_first r f s).
Proof.
  intros Hf HP. unfold replace_first, exec.
  destruct (search_from (length s) r [] s) as [m|] eqn:E; [|exact HP].
  apply search_from_all in E; [| constructor | exact HP].
  pose proof E as (Hpre & _ & Hpost & _).
  apply Forall_app. split; [exact Hpre|].
  apply Forall_app. split; [now apply Hf | exact Hpost].
Qed.

Lemma replace_all_from_all len r f :
  (forall m, match_all P m -> Forall P (f m)) ->
  forall fuel pre_rev rest,
    Forall P pre_rev -> Forall P rest ->
    Forall P (replace_all_from fuel len r f pre_rev rest).
Proof.
  intros Hf. induction fuel as [|fuel IH]; intros pre_rev rest Hpre HP;
    cbn [replace_all_from]; [exact HP|].
  destruct (search_from len r pre_rev rest) as [m|] eqn:E; [|exact HP].
  apply search_from_all in E; [| exact Hpre | exact HP].
  pose proof E as (Hmpre & Hmtext & Hmpost & _).
  pose proof (Hf m E) as Hfm.
  pose proof (Forall_skipn (length pre_rev) _ Hmpre) as Hsk.
  destruct (m_text m) as [|t ts]; destruct (m_post m) as [|c post].
  - now apply Forall_app.
  - inversion Hmpost; subst.
    apply Forall_app. split; [exact Hsk|].
    apply Forall_app. split; [exact Hfm|].
    constructor; [assumption|].
    apply IH; [|assumption].
    constructor; [assumption | now apply Forall_rev].
  - apply Forall_app. split; [exact Hsk|].
    apply Forall_app. split; [exact Hfm|].
    apply IH; [|constructor].
    apply Forall_app. split; now apply Forall_rev.
  - apply Forall_app. split; [exact Hsk|].
    apply Forall_app. split; [exact Hfm|].
    apply IH; [|exact Hmpost].
    apply Forall_app. split; now apply Forall_rev.
Qed.

Lemma replace_all_all r f s :
  (forall m, match_all P m -> Forall P (f m)) ->
  Forall P s -> Forall P (replace_all r f s).
Proof.
  intros Hf HP. unfold replace_all.
  apply replace_all_from_all; [exact Hf | constructor | exact HP].
Qed.

Lemma trim_start_all s : Forall P s -> Forall P (trim_start s).
Proof. apply suffix_of_Forall, trim_start_suffix. Qed.

Lemma trim_all s : Forall P s -> Forall P (trim s).
Proof.
  intros H. unfold trim.
  apply Forall_rev, trim_start_all, Forall_rev, trim_start_all, H.
Qed.

Lemma join_all sep xs :
  Forall P sep -> Forall (Forall P) xs -> Forall P (join sep xs).
Proof.
  intros Hsep. induction 1 as [|x xs Hx Hxs IH]; [constructor|].
  destruct xs as [|y ys]; [exact Hx|].
  change (join sep (x :: y :: ys)) with (x ++ sep ++ join sep (y :: ys)).
  apply Forall_app. split; [exact Hx|]. apply Forall_app. now split.
Qed.

Lemma repeat_str_all s n : Forall P s -> Forall P (repeat_str s n).
Proof.
  intros H. induction n as [|n IH]; simpl; [constructor|].
  apply Forall_app. now split.
Qed.

Hypothesis P_space : P SP.

Lemma collapseTwigAttribute_all ls :
  P (code "=") -> P (code "$") -> P (code "1") -> P (code "2") ->
  Forall (Forall P) ls -> Forall P (collapseTwigAttribute ls).
Proof.
  intros Peq Pdollar P1 P2 Hls.
  assert (Hsp : Forall P [SP]) by (constructor; [exact P_space | constructor]).
  assert (Htpl : forall r n tpl s,
            Forall P tpl -> Forall P s -> Forall P (replace_all_tpl r n tpl s)).
  { intros r n tpl s Ht Hs. unfold replace_all_tpl.
    apply replace_all_all; [|exact Hs].
    intros m Hm. now apply get_substitution_all. }
  assert (Hfn : forall m', match_all P m' ->
                  Forall P (trim (group 1 m') ++ [SP] ++ group 2 m')).
  { intros m' Hm'. apply Forall_app. split; [apply trim_all, group_all, Hm'|].
    apply Forall_app. split; [exact Hsp | apply group_all, Hm']. }
  unfold collapseTwigAttribute.
  set (c0 := replace_all_tpl Re.spaces 0 [SP]
               (replace_all_tpl Re.newline 0 [SP] (join [SP] ls))).
  assert (H0 : Forall P c0).
  { unfold c0. apply Htpl; [exact Hsp|]. apply Htpl; [exact Hsp|].
    now apply join_all. }
  apply trim_all.
  destruct (test Re.has_twig c0); [|exact H0].
  destruct (exec Re.attr_value c0) as [m|] eqn:E.
  - unfold exec in E. apply search_from_all in E; [| constructor | exact H0].
    unfold replace_first_tpl. apply replace_first_all; [|exact H0].
    intros m' Hm'. apply get_substitution_all; [exact Hm'|].
    apply Forall_app. split; [repeat constructor; exact Peq|].
    apply Forall_app. split; [apply group_all, E|].
    apply Forall_app. split; [|apply group_all, E].
    apply trim_all. apply Htpl; [exact Hsp|].
    apply replace_first_all.
    { intros m'' Hm''. apply Forall_app. split; [apply group_all, Hm''|exact Hsp]. }
    apply replace_first_all; [exact Hfn|]. apply group_all, E.
  - apply Htpl; [exact Hsp|]. apply Htpl.
    { repeat constructor; assumption. }
    apply replace_first_all; [exact Hfn | exact H0].
Qed.

End Characters.

(** ** Splitting and joining lines *)

Lemma split_char_not_nil c s : split_char c s <> [].
Proof.
  induction s as [|x s IH]; simpl; [discriminate|].
  destruct (N.eqb x c); [discriminate|].
  destruct (split_char c s); discriminate.
Qed.

Lemma split_char_one c s : ~ In c s -> split_char c s = [s].
Proof.
  induction s as [|x s IH]; intros H; simpl; [reflexivity|].
  destruct (N.eqb x c) eqn:E.
  - apply N.eqb_eq in E. subst. exfalso. apply H. now left.
  - rewrite IH; [reflexivity|]. intros Hin. apply H. now right.
Qed.

Lemma split_char_app c x rest :
  ~ In c x -> split_char c (x ++ c :: rest) = x :: split_char c rest.
Proof.
  induction x as [|y x IH]; intros H; simpl.
  - now rewrite N.eqb_refl.
  - destruct (N.eqb y c) eqn:E.
    + apply N.eqb_eq in E. subst. exfalso. apply H. now left.
    + rewrite IH; [reflexivity|]. intros Hin. apply H. now right.
Qed.

Lemma split_join c xs :
  xs <> [] -> Forall (fun p => ~ In c p) xs ->
  split_char c (join [c] xs) = xs.
Proof.
  induction xs as [|x xs IH]; intros Hne HF; [congruence|].
  inversion HF as [|? ? Hx HF']; subst.
  destruct xs as [|y ys].
  - simpl. now apply split_char_one.
  - change (join [c] (x :: y :: ys)) with (x ++ c :: join [c] (y :: ys)).
    rewrite split_char_app by exact Hx.
    rewrite IH; [reflexivity | discriminate | exact HF'].
Qed.

Lemma split_char_pieces (P : char -> Prop) c s :
  Forall P s ->
  Forall (fun p => Forall P p /\ ~ In c p) (split_char c s).
Proof.
  induction s as [|x s IH]; intros HF; simpl.
  - constructor; [|constructor]. split; [constructor | tauto].
  - inversion HF as [|? ? Hx HF']; subst. specialize (IH HF').
    destruct (N.eqb x c) eqn:E.
    + constructor; [|exact IH]. split; [constructor | tauto].
    + destruct (split_char c s) as [|p ps].
      * constructor; [|constructor]. split; [now repeat constructor|].
        intros [-> | []]. now rewrite N.eqb_refl in E.
      * inversion IH as [|? ? [Hp Hn] IH']; subst.
        constructor; [|exact IH']. split; [now constructor|].
        intros [-> | Hin]; [now rewrite N.eqb_refl in E | tauto].
Qed.

(** ** Depths *)

Lemma item_before_depths item st : depths_ok st -> depths_ok (item_before item st).
Proof.
  unfold depths_ok, item_before. intros (Ht & Hh & Hs & Hy).
  repeat break_if; simpl; lia.
Qed.

Lemma item_after_depths item st : depths_ok st -> depths_ok (item_after item st).
Proof.
  unfold depths_ok, item_after. intros (Ht & Hh & Hs & Hy).
  repeat break_if; simpl; lia.
Qed.

Lemma push_depths x st : depths_ok st -> depths_ok (push x st).
Proof. unfold depths_ok. simpl. tauto. Qed.

Lemma emit_depths cfg x st : depths_ok st -> depths_ok (emit cfg x st).
Proof. apply push_depths. Qed.

Lemma process_item_depths cfg st splitLine :
  depths_ok st -> depths_ok (process_item cfg st splitLine).
Proof.
  intros H. unfold process_item. break_if.
  - now apply emit_depths.
  - now apply item_after_depths, emit_depths, item_before_depths.
Qed.

Lemma fold_items_depths cfg items st :
  depths_ok st -> depths_ok (fold_left (process_item cfg) items st).
Proof.
  revert st. induction items as [|x items IH]; intros st H; simpl; auto.
  apply IH. now apply process_item_depths.
Qed.

Lemma script_before_depths l st : depths_ok st -> depths_ok (script_before l st).
Proof.
  unfold depths_ok, script_before. intros (Ht & Hh & Hs & Hy).
  break_if; simpl; lia.
Qed.

Lemma script_after_depths l st : depths_ok st -> depths_ok (script_after l st).
Proof.
  unfold depths_ok, script_after. intros (Ht & Hh & Hs & Hy).
  break_if; simpl; lia.
Qed.

Lemma script_body_line_depths cfg st l :
  depths_ok st -> depths_ok (script_body_line cfg st l).
Proof.
  intros H. unfold script_body_line.
  now apply script_after_depths, emit_depths, script_before_depths.
Qed.

Lemma format_line_depths cfg st line :
  depths_ok st -> depths_ok (format_line cfg st line).
Proof.
  intros H. unfold format_line.
  destruct (insideTwigAttribute st).
  { break_if; [|exact H]. exact H. }
  destruct (exec Re.attr_start line); [exact H|].
  break_if; [now apply emit_depths|].
  break_if; [now apply push_depths|].
  break_if; [exact H|].
  assert (H1 : depths_ok (if includes (u "{#") (trim line)
                          then set_inComment true st else st))
    by (destruct (includes (u "{#") (trim line)); exact H).
  set (st1 := if includes (u "{#") (trim line) then set_inComment true st else st) in *.
  destruct (inComment st1).
  { break_if; unfold depths_ok in *; simpl; exact H1. }
  assert (H2 : depths_ok (if test Re.verbatim (trim line)
                          then set_inVerbatim true st1 else st1))
    by (destruct (test Re.verbatim (trim line)); exact H1).
  set (st2 := if test Re.verbatim (trim line) then set_inVerbatim true st1 else st1) in *.
  destruct (inVerbatim st2).
  { break_if; unfold depths_ok in *; simpl; exact H2. }
  destruct H2 as (Ht & Hh & Hs & Hy).
  break_if. { unfold depths_ok; simpl; lia. }
  break_if. { unfold depths_ok; simpl; lia. }
  break_if. { unfold depths_ok; simpl; lia. }
  break_if. { unfold depths_ok; simpl; lia. }
  break_if.
  - apply script_body_line_depths. unfold depths_ok; auto.
  - apply fold_items_depths. unfold depths_ok; auto.
Qed.

Lemma fold_lines_reachable cfg lines st :
  reachable cfg st -> reachable cfg (fold_left (format_line cfg) lines st).
Proof.
  revert st. induction lines as [|l lines IH]; intros st H; simpl; auto.
  apply IH. now apply reach_line.
Qed.

Lemma format_lines_reachable cfg lines : reachable cfg (format_lines cfg lines).
Proof. apply fold_lines_reachable. apply reach_init. Qed.

Lemma fold_items_reachable cfg items st :
  reachable cfg st -> reachable cfg (fold_left (process_item cfg) items st).
Proof.
  revert st. induction items as [|x items IH]; intros st H; simpl; auto.
  apply IH. now apply reach_item.
Qed.

Lemma reachable_depths_ok cfg st : reachable cfg st -> depths_ok st.
Proof.
  induction 1;
    try (unfold depths_ok in *; simpl; lia).
  - now apply format_line_depths.
  - now apply process_item_depths.
  - now apply item_before_depths.
  - now apply item_after_depths.
  - now apply script_before_depths.
  - now apply script_after_depths.
Qed.

(** C7. At every point of a [format] run, on every input,
    [twigIndentLevel] and [htmlIndentLevel] are at least zero: each
    decrement goes through [Math.max(0, _)], a restored base depth was
    itself a depth, and so the count given to [indentChar.repeat] is
    never negative and no RangeError is raised. *)
Theorem depths_never_negative cfg st :
  reachable cfg st ->
  0 <= twigIndentLevel st /\ 0 <= htmlIndentLevel st /\
  0 <= twigIndentLevel st + htmlIndentLevel st.
Proof.
  intros H. apply reachable_depths_ok in H.
  destruct H as (Ht & Hh & _). lia.
Qed.

Lemma depths_never_negative_witness :
  reachable default_config (format_lines default_config excess_closing_doc) /\
  0 <= twigIndentLevel (format_lines default_config excess_closing_doc) /\
  0 <= htmlIndentLevel (format_lines default_config excess_closing_doc) /\
  0 <= twigIndentLevel (format_lines default_config excess_closing_doc) +
       htmlIndentLevel (format_lines default_config excess_closing_doc).
Proof.
  split.
  - apply format_lines_reachable.
  - apply (depths_never_negative default_config).
    apply format_lines_reachable.
Defined.

(** ** Mode flags *)

Lemma same_flags_refl st : same_flags st st.
Proof. unfold same_flags; tauto. Qed.

Lemma same_flags_trans a b c : same_flags a b -> same_flags b c -> same_flags a c.
Proof. unfold same_flags; intuition congruence. Qed.

Lemma process_item_flags cfg st x : same_flags st (process_item cfg st x).
Proof.
  unfold same_flags, process_item, item_after, item_before.
  repeat break_if; simpl; tauto.
Qed.

Lemma fold_items_flags cfg items st :
  same_flags st (fold_left (process_item cfg) items st).
Proof.
  revert st. induction items as [|x items IH]; intros st; simpl.
  - apply same_flags_refl.
  - eapply same_flags_trans; [apply process_item_flags | apply IH].
Qed.

Lemma script_body_line_flags cfg st l : same_flags st (script_body_line cfg st l).
Proof.
  unfold same_flags, script_body_line, script_after, script_before.
  repeat break_if; simpl; tauto.
Qed.

Lemma same_flags_count st st' : same_flags st st' -> flags_set st' = flags_set st.
Proof.
  unfold same_flags, flags_set. intros (-> & -> & -> & -> & ->). reflexivity.
Qed.

(** Closes a leaf of the case analysis of the flags that are raised,
    kept and cleared. *)
Ltac keep_leaf st :=
  unfold raised, kept;
  cbn [inComment inVerbatim inScriptTag inStyleTag insideTwigAttribute
       set_inComment set_inVerbatim set_inScriptTag set_inStyleTag
       set_attribute set_htmlIndentLevel set_twigIndentLevel
       set_scriptTagBaseIndent set_styleTagBaseIndent set_formattedLines
       emit push];
  repeat match goal with H : _ st = _ |- _ => rewrite H end;
  destruct (inComment st), (inVerbatim st), (inScriptTag st),
    (inStyleTag st), (insideTwigAttribute st);
  cbn [negb andb orb implb];
  repeat split; intros; congruence.

(** The flags after a line, against the flags before it: a line that
    raises a flag clears none, and a flag is cleared only by the closing
    rule of its own region. *)
Lemma format_line_keeps_flags cfg st line :
  (raised st (format_line cfg st line) = true ->
   kept st (format_line cfg st line) = true) /\
  (inComment st = true -> inComment (format_line cfg st line) = false ->
   includes (u "#}") (trim line) = true) /\
  (inVerbatim st = true -> inVerbatim (format_line cfg st line) = false ->
   test Re.endverbatim (trim line) = true) /\
  (inScriptTag st = true -> inScriptTag (format_line cfg st line) = false ->
   isScriptClosing (trim line) = true) /\
  (inStyleTag st = true -> inStyleTag (format_line cfg st line) = false ->
   isStyleClosing (trim line) = true) /\
  (insideTwigAttribute st = true ->
   insideTwigAttribute (format_line cfg st line) = false ->
   Nat.even (quoteCount (attributeQuote st) (attributeLines st ++ [line])) = true).
Proof.
  unfold format_line.
  destruct (insideTwigAttribute st) eqn:Hin.
  { cbn [attributeQuote attributeLines set_attribute].
    break_if; keep_leaf st. }
  destruct (exec Re.attr_start line); [keep_leaf st|].
  break_if; [keep_leaf st|].
  break_if; [keep_leaf st|].
  break_if; [keep_leaf st|].
  destruct (includes (u "{#") (trim line)).
  { cbn [inComment set_inComment]. break_if; keep_leaf st. }
  destruct (inComment st) eqn:Hc.
  { break_if; keep_leaf st. }
  destruct (test Re.verbatim (trim line)).
  { cbn [inVerbatim set_inVerbatim]. break_if; keep_leaf st. }
  destruct (inVerbatim st) eqn:Hv.
  { break_if; keep_leaf st. }
  destruct (isScriptOpening (trim line)); [keep_leaf st|].
  destruct (isStyleOpening (trim line)); [keep_leaf st|].
  destruct (isScriptClosing (trim line)) eqn:Hsc; [keep_leaf st|].
  destruct (isStyleClosing (trim line)) eqn:Hyc; [keep_leaf st|].
  break_if.
  - destruct (script_body_line_flags cfg st (trim line)) as (E1 & E2 & E3 & E4 & E5).
    unfold raised, kept. rewrite E1, E2, E3, E4, E5, Hin, Hc, Hv.
    destruct (inScriptTag st), (inStyleTag st); cbn [negb andb orb implb];
      repeat split; intros; congruence.
  - destruct (fold_items_flags cfg (splitTwigLine line) st) as (E1 & E2 & E3 & E4 & E5).
    unfold raised, kept. rewrite E1, E2, E3, E4, E5, Hin, Hc, Hv.
    destruct (inScriptTag st), (inStyleTag st); cbn [negb andb orb implb];
      repeat split; intros; congruence.
Qed.

Lemma format_line_flag_count cfg st line :
  (flags_set (format_line cfg st line) <= flags_set st + 1)%nat.
Proof.
  unfold format_line.
  destruct (insideTwigAttribute st) eqn:Hin.
  { break_if; flag_leaf st. }
  destruct (exec Re.attr_start line); [flag_leaf st|].
  break_if; [flag_leaf st|].
  break_if; [flag_leaf st|].
  break_if; [flag_leaf st|].
  destruct (includes (u "{#") (trim line)).
  { simpl. break_if; flag_leaf st. }
  destruct (inComment st) eqn:Hc.
  { break_if; flag_leaf st. }
  destruct (test Re.verbatim (trim line)).
  { simpl. break_if; flag_leaf st. }
  destruct (inVerbatim st) eqn:Hv.
  { break_if; flag_leaf st. }
  break_if; [flag_leaf st; destruct (inScriptTag st); simpl; lia|].
  break_if; [flag_leaf st; destruct (inStyleTag st); simpl; lia|].
  break_if; [flag_leaf st; destruct (inScriptTag st); simpl; lia|].
  break_if; [flag_leaf st; destruct (inStyleTag st); simpl; lia|].
  break_if.
  - rewrite (same_flags_count _ _ (script_body_line_flags cfg st (trim line))). lia.
  - rewrite (same_flags_count _ _ (fold_items_flags cfg (splitTwigLine line) st)). lia.
Qed.

(** C8, as the code has it.  The five flags are independent booleans.
    One input line raises at most one of them: the number of flags set
    grows by at most one per line.  A line that raises a flag clears
    none, so a flag that is already set stays set when the trigger of
    another region is met; a flag is cleared only by the closing rule of
    its own region (the end of the comment, the endverbatim tag, the
    closing script or style tag, the even quote count). *)
Theorem line_raises_at_most_one_flag cfg st line :
  (flags_set (format_line cfg st line) <= flags_set st + 1)%nat /\
  (raised st (format_line cfg st line) = true ->
   kept st (format_line cfg st line) = true) /\
  (inComment st = true -> inComment (format_line cfg st line) = false ->
   includes (u "#}") (trim line) = true) /\
  (inVerbatim st = true -> inVerbatim (format_line cfg st line) = false ->
   test Re.endverbatim (trim line) = true) /\
  (inScriptTag st = true -> inScriptTag (format_line cfg st line) = false ->
   isScriptClosing (trim line) = true) /\
  (inStyleTag st = true -> inStyleTag (format_line cfg st line) = false ->
   isStyleClosing (trim line) = true) /\
  (insideTwigAttribute st = true ->
   insideTwigAttribute (format_line cfg st line) = false ->
   Nat.even (quoteCount (attributeQuote st) (attributeLines st ++ [line])) = true).
Proof.
  split; [apply format_line_flag_count | apply format_line_keeps_flags].
Qed.

Lemma line_raises_at_most_one_flag_witness :
  raised in_script_state
    (format_line default_config in_script_state (u "{# note")) = true /\
  kept in_script_state
    (format_line default_config in_script_state (u "{# note")) = true.
Proof.
  assert (H : raised in_script_state
                (format_line default_config in_script_state (u "{# note")) = true)
    by (vm_compute; reflexivity).
  split; [exact H|].
  exact (proj1 (proj2 (line_raises_at_most_one_flag default_config
                         in_script_state (u "{# note"))) H).
Defined.

(** C8 as stated fails: after an opening script tag and a line that
    opens a comment, [inScriptTag] and [inComment] are both true. *)
Lemma flags_not_exclusive :
  inScriptTag (format_lines default_config comment_in_script_doc) = true /\
  inComment (format_lines default_config comment_in_script_doc) = true /\
  flags_set (format_lines default_config comment_in_script_doc) = 2%nat.
Proof. vm_compute. repeat split. Qed.

(** ** Multi-line attributes *)

Lemma format_line_buffering cfg st line :
  insideTwigAttribute st = true ->
  format_line cfg st line =
    set_attribute true (attributeQuote st) (attributeLines st ++ [line]) st \/
  insideTwigAttribute (format_line cfg st line) = false.
Proof.
  intros Hin. unfold format_line. rewrite Hin.
  break_if; [right; reflexivity | left; reflexivity].
Qed.

Lemma format_line_not_buffering cfg st line :
  insideTwigAttribute st = false ->
  (exists q, exec Re.attr_start line <> None /\
             format_line cfg st line = set_attribute true q [line] st) \/
  (exec Re.attr_start line = None /\
   insideTwigAttribute (format_line cfg st line) = false).
Proof.
  intros Hin.
  destruct (exec Re.attr_start line) as [m|] eqn:Hm.
  - left. exists (hd_error (group 2 m)). split; [discriminate|].
    unfold format_line. rewrite Hin, Hm. reflexivity.
  - right. split; [reflexivity|].
    unfold format_line. rewrite Hin, Hm.
    break_if; [exact Hin|].
    break_if; [exact Hin|].
    break_if; [exact Hin|].
    destruct (includes (u "{#") (trim line)).
    { simpl. break_if; exact Hin. }
    destruct (inComment st).
    { break_if; exact Hin. }
    destruct (test Re.verbatim (trim line)).
    { simpl. break_if; exact Hin. }
    destruct (inVerbatim st).
    { break_if; exact Hin. }
    break_if; [exact Hin|].
    break_if; [exact Hin|].
    break_if; [exact Hin|].
    break_if; [exact Hin|].
    break_if.
    + destruct (script_body_line_flags cfg st (trim line)) as (_ & _ & _ & _ & E).
      now rewrite E.
    + destruct (fold_items_flags cfg (splitTwigLine line) st) as (_ & _ & _ & _ & E).
      now rewrite E.
Qed.

Lemma set_attribute_absorb b q ls b' q' ls' st st' :
  st = set_attribute b' q' ls' st' ->
  set_attribute b q ls st = set_attribute b q ls st'.
Proof. intros ->. reflexivity. Qed.

(** While the formatter is buffering, the state is the state it had
    before the buffered lines, with the buffer filled. *)
Lemma buffering_shape cfg lines st0 :
  insideTwigAttribute st0 = false ->
  insideTwigAttribute (fold_left (format_line cfg) lines st0) = true ->
  exists pre,
    lines = pre ++ attributeLines (fold_left (format_line cfg) lines st0) /\
    attributeLines (fold_left (format_line cfg) lines st0) <> [] /\
    fold_left (format_line cfg) lines st0 =
      set_attribute true
        (attributeQuote (fold_left (format_line cfg) lines st0))
        (attributeLines (fold_left (format_line cfg) lines st0))
        (fold_left (format_line cfg) pre st0).
Proof.
  intros H0. induction lines as [|l ls IH] using rev_ind.
  - simpl. congruence.
  - rewrite fold_left_app. simpl.
    set (s1 := fold_left (format_line cfg) ls st0) in *.
    destruct (insideTwigAttribute s1) eqn:Hs1.
    + destruct (IH eq_refl) as (pre & Hls & Hne & Hshape).
      destruct (format_line_buffering cfg s1 l Hs1) as [E | E]; [|congruence].
      intros _. rewrite E. simpl. exists pre. split; [|split].
      * rewrite Hls at 1. now rewrite app_assoc.
      * intros C. now apply app_eq_nil in C as [_ C].
      * eapply set_attribute_absorb. exact Hshape.
    + destruct (format_line_not_buffering cfg s1 l Hs1) as [(q & _ & E) | (_ & E)];
        [|congruence].
      intros _. rewrite E. simpl. exists ls. split; [reflexivity|].
      split; [discriminate|]. reflexivity.
Qed.

(** C9. When the input ends while an attribute value is still being
    buffered, [format] returns all the same, and what it returns is the
    output for the lines before the buffered ones: the buffered lines are
    the tail of the input and none of them reaches the output. *)
Theorem unterminated_attribute_is_dropped cfg text :
  insideTwigAttribute (format_lines cfg (split_char NL text)) = true ->
  exists pre,
    split_char NL text =
      pre ++ attributeLines (format_lines cfg (split_char NL text)) /\
    attributeLines (format_lines cfg (split_char NL text)) <> [] /\
    formattedLines (format_lines cfg (split_char NL text)) =
      formattedLines (format_lines cfg pre) /\
    format cfg text = join [NL] (formattedLines (format_lines cfg pre)).
Proof.
  intros H. unfold format, format_lines in *.
  destruct (buffering_shape cfg (split_char NL text) init_state eq_refl H)
    as (pre & Hpre & Hne & Hshape).
  exists pre. split; [exact Hpre|]. split; [exact Hne|].
  assert (E : formattedLines (fold_left (format_line cfg) (split_char NL text) init_state) =
              formattedLines (fold_left (format_line cfg) pre init_state))
    by (rewrite Hshape; reflexivity).
  split; [exact E|]. now rewrite E.
Qed.

Lemma unterminated_attribute_is_dropped_witness :
  insideTwigAttribute
    (format_lines default_config (split_char NL unterminated_attribute_text)) = true /\
  exists pre,
    split_char NL unterminated_attribute_text =
      pre ++ attributeLines
               (format_lines default_config (split_char NL unterminated_attribute_text)) /\
    attributeLines
      (format_lines default_config (split_char NL unterminated_attribute_text)) <> [] /\
    formattedLines
      (format_lines default_config (split_char NL unterminated_attribute_text)) =
      formattedLines (format_lines default_config pre) /\
    format default_config unterminated_attribute_text =
      join [NL] (formattedLines (format_lines default_config pre)).
Proof.
  split.
  - vm_compute. reflexivity.
  - apply (unterminated_attribute_is_dropped default_config unterminated_attribute_text).
    vm_compute. reflexivity.
Defined.

(** The same run, evaluated: only the line before the attribute is
    emitted. *)
Example unterminated_attribute_output :
  format default_config unterminated_attribute_text =
    join [NL] [u "<p>x</p>"].
Proof. vm_compute. reflexivity. Qed.

(** ** The script and style rules *)

Lemma format_line_tag_rules cfg st line :
  reaches_tag_rules st line = true ->
  format_line cfg st line = tag_rules cfg st line.
Proof.
  unfold reaches_tag_rules. intros H.
  repeat (apply andb_prop in H; destruct H as [H ?]).
  repeat match goal with
         | E : negb _ = true |- _ => apply negb_true_iff in E
         end.
  unfold format_line, tag_rules.
  destruct (exec Re.attr_start line); [discriminate|].
  repeat match goal with E : _ = false |- _ => rewrite E; clear E end.
  simpl.
  repeat match goal with E : _ = false |- _ => rewrite E; clear E end.
  reflexivity.
Qed.

Lemma script_opening_not_closing t :
  isScriptClosing t = true -> isScriptOpening t = false.
Proof.
  unfold isScriptClosing, isScriptOpening. intros ->.
  now rewrite andb_false_r.
Qed.

Lemma style_opening_not_closing t :
  isStyleClosing t = true -> isStyleOpening t = false.
Proof.
  unfold isStyleClosing, isStyleOpening. intros ->.
  now rewrite andb_false_r.
Qed.

Lemma process_item_bases cfg st x :
  scriptTagBaseIndent (process_item cfg st x) = scriptTagBaseIndent st /\
  styleTagBaseIndent (process_item cfg st x) = styleTagBaseIndent st.
Proof.
  unfold process_item, item_after, item_before.
  repeat break_if; simpl; tauto.
Qed.

Lemma fold_items_bases cfg items st :
  scriptTagBaseIndent (fold_left (process_item cfg) items st) = scriptTagBaseIndent st /\
  styleTagBaseIndent (fold_left (process_item cfg) items st) = styleTagBaseIndent st.
Proof.
  revert st. induction items as [|x items IH]; intros st; simpl; [tauto|].
  destruct (IH (process_item cfg st x)) as [-> ->].
  apply process_item_bases.
Qed.

Lemma script_body_line_bases cfg st l :
  scriptTagBaseIndent (script_body_line cfg st l) = scriptTagBaseIndent st /\
  styleTagBaseIndent (script_body_line cfg st l) = styleTagBaseIndent st.
Proof.
  unfold script_body_line, script_after, script_before.
  repeat break_if; simpl; tauto.
Qed.

(** Only the script opening rule writes [scriptTagBaseIndent], only the
    style opening rule writes [styleTagBaseIndent]. *)
Lemma format_line_bases cfg st line :
  (isScriptOpening (trim line) = false ->
   scriptTagBaseIndent (format_line cfg st line) = scriptTagBaseIndent st) /\
  (isStyleOpening (trim line) = false ->
   styleTagBaseIndent (format_line cfg st line) = styleTagBaseIndent st).
Proof.
  unfold format_line.
  destruct (insideTwigAttribute st).
  { break_if; simpl; tauto. }
  destruct (exec Re.attr_start line); [simpl; tauto|].
  break_if; [simpl; tauto|].
  break_if; [simpl; tauto|].
  break_if; [simpl; tauto|].
  destruct (includes (u "{#") (trim line)).
  { simpl. break_if; simpl; tauto. }
  destruct (inComment st).
  { break_if; simpl; tauto. }
  destruct (test Re.verbatim (trim line)).
  { simpl. break_if; simpl; tauto. }
  destruct (inVerbatim st).
  { break_if; simpl; tauto. }
  destruct (isScriptOpening (trim line)).
  { simpl. split; [discriminate | tauto]. }
  destruct (isStyleOpening (trim line)).
  { simpl. split; [tauto | discriminate]. }
  break_if; [simpl; tauto|].
  break_if; [simpl; tauto|].
  break_if.
  - destruct (script_body_line_bases cfg st (trim line)) as [-> ->]. tauto.
  - destruct (fold_items_bases cfg (splitTwigLine line) st) as [-> ->]. tauto.
Qed.

Lemma never_opened_base_zero cfg lines :
  (Forall (fun l => isScriptOpening (trim l) = false) lines ->
   scriptTagBaseIndent (format_lines cfg lines) = 0) /\
  (Forall (fun l => isStyleOpening (trim l) = false) lines ->
   styleTagBaseIndent (format_lines cfg lines) = 0).
Proof.
  unfold format_lines.
  induction lines as [|l ls IH] using rev_ind; [simpl; tauto|].
  rewrite fold_left_app. simpl.
  destruct (format_line_bases cfg (fold_left (format_line cfg) ls init_state) l)
    as [Hs Hy].
  split; intros HF; apply Forall_app in HF as [HF1 HF2];
    inversion HF2; subst.
  - rewrite Hs by assumption. now apply IH.
  - rewrite Hy by assumption. now apply IH.
Qed.

(** C10, as the code has it.  A line with a closing script tag that
    reaches the script and style rules (no earlier rule of the loop body
    takes it: attribute buffering, the two attribute rules, the blank
    line, comment and verbatim rules, and it opens no style region, a
    rule that comes first) is handled by the closing rule whether or not
    a script region is open: [htmlIndentLevel] becomes
    [scriptTagBaseIndent] and the line is emitted at that depth; the
    saved depth is zero when no line of the input before it opened a
    script region.  The same holds for a closing style tag on a line
    without an opening or closing script tag.  [inScriptTag] and
    [inStyleTag] are not consulted. *)
Theorem closing_tag_restores_saved_depth cfg lines line :
  reaches_tag_rules (format_lines cfg lines) line = true ->
  (isScriptClosing (trim line) = true ->
   isStyleOpening (trim line) = false ->
   htmlIndentLevel (format_line cfg (format_lines cfg lines) line) =
     scriptTagBaseIndent (format_lines cfg lines) /\
   formattedLines (format_line cfg (format_lines cfg lines) line) =
     formattedLines (format_lines cfg lines) ++
     [ repeat_str (indentChar cfg)
         (Z.to_nat (twigIndentLevel (format_lines cfg lines) +
                    scriptTagBaseIndent (format_lines cfg lines)))
       ++ trim line ] /\
   (Forall (fun l => isScriptOpening (trim l) = false) lines ->
    scriptTagBaseIndent (format_lines cfg lines) = 0)) /\
  (isStyleClosing (trim line) = true ->
   isScriptOpening (trim line) = false ->
   isScriptClosing (trim line) = false ->
   htmlIndentLevel (format_line cfg (format_lines cfg lines) line) =
     styleTagBaseIndent (format_lines cfg lines) /\
   formattedLines (format_line cfg (format_lines cfg lines) line) =
     formattedLines (format_lines cfg lines) ++
     [ repeat_str (indentChar cfg)
         (Z.to_nat (twigIndentLevel (format_lines cfg lines) +
                    styleTagBaseIndent (format_lines cfg lines)))
       ++ trim line ] /\
   (Forall (fun l => isStyleOpening (trim l) = false) lines ->
    styleTagBaseIndent (format_lines cfg lines) = 0)).
Proof.
  intros Hr. rewrite (format_line_tag_rules cfg _ _ Hr).
  unfold tag_rules. split.
  - intros Hc Hso.
    rewrite (script_opening_not_closing _ Hc), Hso, Hc. simpl.
    split; [reflexivity|]. split; [reflexivity|].
    apply never_opened_base_zero.
  - intros Hc Hso Hsc.
    rewrite Hso, (style_opening_not_closing _ Hc), Hsc, Hc. simpl.
    split; [reflexivity|]. split; [reflexivity|].
    apply never_opened_base_zero.
Qed.

Lemma closing_tag_restores_saved_depth_witness :
  reaches_tag_rules (format_lines default_config stray_script_close_doc)
    (u "</script>") = true /\
  isScriptClosing (trim (u "</script>")) = true /\
  isStyleOpening (trim (u "</script>")) = false /\
  htmlIndentLevel (format_lines default_config stray_script_close_doc) = 2 /\
  htmlIndentLevel
    (format_line default_config
       (format_lines default_config stray_script_close_doc) (u "</script>")) =
    scriptTagBaseIndent (format_lines default_config stray_script_close_doc) /\
  scriptTagBaseIndent (format_lines default_config stray_script_close_doc) = 0.
Proof.
  assert (Hr : reaches_tag_rules (format_lines default_config stray_script_close_doc)
                 (u "</script>") = true) by (vm_compute; reflexivity).
  assert (Hc : isScriptClosing (trim (u "</script>")) = true)
    by (vm_compute; reflexivity).
  assert (Hs : isStyleOpening (trim (u "</script>")) = false)
    by (vm_compute; reflexivity).
  destruct (closing_tag_restores_saved_depth default_config
              stray_script_close_doc (u "</script>") Hr) as [Hscript _].
  destruct (Hscript Hc Hs) as (Hh & _ & Hz).
  split; [exact Hr|]. split; [exact Hc|]. split; [exact Hs|].
  split; [vm_compute; reflexivity|]. split; [exact Hh|].
  apply Hz. unfold stray_script_close_doc. simpl.
  repeat constructor; vm_compute; reflexivity.
Defined.

(** C10 as stated fails for a line that an earlier rule takes.  A
    script tag whose src attribute holds a Twig expression is a
    single-line attribute with Twig: the line is collapsed and emitted at
    the current depth, and [htmlIndentLevel] keeps its value instead of
    becoming the saved depth. *)
Lemma closing_script_tag_taken_by_attribute_rule :
  isScriptClosing (trim script_with_twig_src) = true /\
  test Re.attr_inline script_with_twig_src = true /\
  htmlIndentLevel (format_lines default_config [u "<div>"]) = 1 /\
  scriptTagBaseIndent (format_lines default_config [u "<div>"]) = 0 /\
  htmlIndentLevel
    (format_line default_config (format_lines default_config [u "<div>"])
       script_with_twig_src) = 1 /\
  formattedLines (format_lines default_config [u "<div>"; script_with_twig_src]) =
    [ u "<div>"; u "    " ++ script_with_twig_src ].
Proof. vm_compute. repeat split. Qed.

(** ** Lines inside a script or style region *)

(** C5 holds of the intent of the code and fails on the code.  In a
    script body with balanced braces, the line [} else {] holds the
    brace that closes the block opened by [if (a) {]; the classifier
    [isJsClosingLine] of the same file says that such a line decreases
    the indent, but [format] never calls it and counts braces per line
    only, so the line is emitted one level deeper than the line that
    opened the block. *)
Lemma closing_brace_line_not_dedented :
  formattedLines (format_lines default_config script_else_doc) =
    [ u "<script>";
      u "    if (a) {";
      u "        x();";
      u "        } else {";
      u "        y();";
      u "    }";
      u "</script>" ] /\
  netChange (u "} else {") = 0 /\
  isJsClosingLine (u "} else {") = true.
Proof. vm_compute. repeat split; reflexivity. Qed.

(** ** Items of a split line *)

(** C6 holds of the intent of the code and fails on the code.  In the
    scenario of the specification X and Y are one level deeper than the
    if, else and endif lines.  But the guard [isTwigInsideAttribute],
    meant for template code inside the quotes of a markup attribute, is
    not anchored to a markup tag: it also takes the elseif line below,
    a template tag with a quoted argument and no markup at all.  That
    mid-block tag is then emitted without the decrease before and the
    increase after it, at the depth of X and Y. *)
Lemma mid_block_tag_skipped_by_attribute_guard :
  isMidBlockTag (trim elseif_with_quoted_twig) = true /\
  isTwigInsideAttribute (trim elseif_with_quoted_twig) = true /\
  formattedLines (format_lines default_config mid_block_attr_doc) =
    [ u "{% if a %}";
      u "    X";
      u "    " ++ elseif_with_quoted_twig;
      u "    Y";
      u "{% endif %}" ] /\
  twigIndentLevel
    (process_item default_config (format_lines default_config [u "{% if a %}"])
       elseif_with_quoted_twig) =
  twigIndentLevel (format_lines default_config [u "{% if a %}"]) /\
  formattedLines (format_lines default_config mid_block_doc) =
    [ u "{% if a %}"; u "    X"; u "{% else %}"; u "    Y"; u "{% endif %}" ].
Proof. vm_compute. repeat split. Qed.

(** ** The single-line block scenario *)

(** The three shapes of an item step that occur in the scenarios. *)
Lemma process_item_plain cfg st x item :
  trim x = item ->
  isTwigInsideAttribute item = false ->
  shouldDecreaseHtmlIndent item (isHtmlOpeningTag item && isHtmlClosingTag item) = false ->
  isClosingTag item = false ->
  isOpeningTag item && negb (isSelfClosingTag item) && negb (isSingleLineBlock item) = false ->
  isMidBlockTag item = false ->
  shouldIncreaseHtmlIndent item (isHtmlOpeningTag item && isHtmlClosingTag item) = false ->
  process_item cfg st x = emit cfg item st.
Proof.
  intros E H1 H2 H3 H4 H5 H6. unfold process_item, item_after, item_before.
  rewrite E, H1, H2, H3, H4, H5, H6. reflexivity.
Qed.

Lemma process_item_opener cfg st x item :
  trim x = item ->
  isTwigInsideAttribute item = false ->
  shouldDecreaseHtmlIndent item (isHtmlOpeningTag item && isHtmlClosingTag item) = false ->
  isClosingTag item = false ->
  isOpeningTag item && negb (isSelfClosingTag item) && negb (isSingleLineBlock item) = true ->
  isMidBlockTag item = false ->
  shouldIncreaseHtmlIndent item (isHtmlOpeningTag item && isHtmlClosingTag item) = false ->
  process_item cfg st x =
    set_twigIndentLevel (twigIndentLevel st + 1) (emit cfg item st).
Proof.
  intros E H1 H2 H3 H4 H5 H6. unfold process_item, item_after, item_before.
  rewrite E, H1, H2, H3, H4, H5, H6. reflexivity.
Qed.

Lemma process_item_closer cfg st x item :
  trim x = item ->
  isTwigInsideAttribute item = false ->
  shouldDecreaseHtmlIndent item (isHtmlOpeningTag item && isHtmlClosingTag item) = false ->
  isClosingTag item = true ->
  isOpeningTag item && negb (isSelfClosingTag item) && negb (isSingleLineBlock item) = false ->
  isMidBlockTag item = false ->
  shouldIncreaseHtmlIndent item (isHtmlOpeningTag item && isHtmlClosingTag item) = false ->
  process_item cfg st x =
    emit cfg item (set_twigIndentLevel (Z.max 0 (twigIndentLevel st - 1)) st).
Proof.
  intros E H1 H2 H3 H4 H5 H6. unfold process_item, item_after, item_before.
  rewrite E, H1, H2, H3, H4, H5, H6. reflexivity.
Qed.

Lemma single_line_block_runs :
  splitTwigLine single_line_block = [u "{% if x %}"; u "y"; u "{% endif %}"].
Proof. vm_compute. reflexivity. Qed.

Lemma single_line_block_tags :
  isScriptOpening (trim single_line_block) = false /\
  isStyleOpening (trim single_line_block) = false /\
  isScriptClosing (trim single_line_block) = false /\
  isStyleClosing (trim single_line_block) = false.
Proof. vm_compute. repeat split. Qed.

(** C3, as the code has it.  In the normal mode the line
    [{% if x %}y{% endif %}] is split into its three runs and each run is
    emitted on a line of its own: the opening tag at the surrounding
    indent, [y] one level deeper, the closing tag at the surrounding
    indent again.  After the line [twigIndentLevel] and
    [htmlIndentLevel] are what they were before it. *)
Theorem single_line_block_is_split cfg st :
  insideTwigAttribute st = false ->
  inComment st = false ->
  inVerbatim st = false ->
  inScriptTag st = false ->
  inStyleTag st = false ->
  0 <= twigIndentLevel st ->
  formattedLines (format_line cfg st single_line_block) =
    formattedLines st ++
    [ indent_at cfg (twigIndentLevel st + htmlIndentLevel st) ++ u "{% if x %}";
      indent_at cfg (twigIndentLevel st + 1 + htmlIndentLevel st) ++ u "y";
      indent_at cfg (twigIndentLevel st + htmlIndentLevel st) ++ u "{% endif %}" ] /\
  twigIndentLevel (format_line cfg st single_line_block) = twigIndentLevel st /\
  htmlIndentLevel (format_line cfg st single_line_block) = htmlIndentLevel st.
Proof.
  intros Ha Hc Hv Hs Hy Ht.
  assert (Hr : reaches_tag_rules st single_line_block = true).
  { unfold reaches_tag_rules. rewrite Ha, Hc, Hv. vm_compute. reflexivity. }
  rewrite (format_line_tag_rules cfg _ _ Hr).
  unfold tag_rules.
  destruct single_line_block_tags as (T1 & T2 & T3 & T4).
  rewrite T1, T2, T3, T4, Hs, Hy, single_line_block_runs.
  cbn [orb fold_left].
  rewrite (process_item_opener cfg _ (u "{% if x %}") (u "{% if x %}"))
    by (vm_compute; reflexivity).
  rewrite (process_item_plain cfg _ (u "y") (u "y")) by (vm_compute; reflexivity).
  rewrite (process_item_closer cfg _ (u "{% endif %}") (u "{% endif %}"))
    by (vm_compute; reflexivity).
  unfold emit, push, indent, indent_at, set_twigIndentLevel, set_formattedLines.
  cbn [formattedLines twigIndentLevel htmlIndentLevel].
  replace (Z.max 0 (twigIndentLevel st + 1 - 1)) with (twigIndentLevel st) by lia.
  repeat rewrite <- app_assoc. cbn [app].
  repeat split.
Qed.

Lemma single_line_block_is_split_witness :
  insideTwigAttribute init_state = false /\
  inComment init_state = false /\
  inVerbatim init_state = false /\
  inScriptTag init_state = false /\
  inStyleTag init_state = false /\
  0 <= twigIndentLevel init_state /\
  formattedLines (format_line default_config init_state single_line_block) =
    formattedLines init_state ++
    [ indent_at default_config
        (twigIndentLevel init_state + htmlIndentLevel init_state) ++ u "{% if x %}";
      indent_at default_config
        (twigIndentLevel init_state + 1 + htmlIndentLevel init_state) ++ u "y";
      indent_at default_config
        (twigIndentLevel init_state + htmlIndentLevel init_state) ++ u "{% endif %}" ].
Proof.
  do 5 (split; [reflexivity|]).
  split; [apply Z.le_refl|].
  exact (proj1 (single_line_block_is_split default_config init_state
                  eq_refl eq_refl eq_refl eq_refl eq_refl (Z.le_refl 0))).
Defined.

(** C3 as stated fails: the line yields three output lines, not one. *)
Lemma single_line_block_three_lines :
  formattedLines (format_lines default_config [single_line_block]) =
    [ u "{% if x %}"; u "    y"; u "{% endif %}" ] /\
  length (formattedLines (format_lines default_config [single_line_block])) <> 1%nat /\
  isSingleLineBlock single_line_block = false.
Proof. vm_compute. repeat split; discriminate. Qed.

(** ** The attribute scenario *)




(** ** splitTwigLine keeps every character *)

Lemma concat_nonempty s : concat (nonempty s) = s.
Proof. destruct s; simpl; [reflexivity | now rewrite app_nil_r]. Qed.

Lemma split_loop_concat len : forall fuel pre_rev rest,
  concat (split_loop fuel len pre_rev rest) = rest.
Proof.
  induction fuel as [|fuel IH]; intros pre_rev rest; simpl.
  - apply concat_nonempty.
  - destruct (search_from len Re.split pre_rev rest) as [m|] eqn:E.
    + apply search_from_spec in E as (sk & Hpre & Hrest).
      rewrite concat_app, concat_nonempty. simpl. rewrite IH.
      rewrite Hpre, skipn_app, length_rev, Nat.sub_diag, skipn_all2
        by (rewrite length_rev; lia).
      simpl. now rewrite Hrest.
    + apply concat_nonempty.
Qed.

Lemma trim_start_nil s : trim_start s = [] <-> all_space s = true.
Proof.
  unfold all_space. induction s as [|c s IH]; simpl; [tauto|].
  destruct (is_space c); simpl; [exact IH|]. split; discriminate.
Qed.

Lemma trim_start_head s c t : trim_start s = c :: t -> is_space c = false.
Proof.
  induction s as [|x s IH]; simpl; [discriminate|].
  destruct (is_space x) eqn:E; [exact IH|]. intros H. now inversion H; subst.
Qed.

Lemma all_space_rev s : all_space (rev s) = all_space s.
Proof.
  unfold all_space. induction s as [|c s IH]; simpl; [reflexivity|].
  rewrite forallb_app, IH. simpl. rewrite andb_true_r. apply andb_comm.
Qed.

Lemma trim_nil s : trim s = [] <-> all_space s = true.
Proof.
  unfold trim. split.
  - intros H. apply (f_equal (@rev char)) in H. rewrite rev_involutive in H.
    simpl in H. apply trim_start_nil in H. rewrite all_space_rev in H.
    destruct (trim_start s) as [|c t] eqn:E; [now apply trim_start_nil|].
    apply trim_start_head in E. simpl in H. unfold all_space in H. simpl in H.
    rewrite E in H. discriminate.
  - intros H. apply trim_start_nil in H. rewrite H. reflexivity.
Qed.

Lemma is_empty_trim s : is_empty (trim s) = all_space s.
Proof.
  destruct (all_space s) eqn:E.
  - apply trim_nil in E. now rewrite E.
  - destruct (trim s) eqn:T; [|reflexivity].
    apply trim_nil in T. congruence.
Qed.

Lemma all_space_concat ps :
  forallb all_space ps = true -> all_space (concat ps) = true.
Proof.
  unfold all_space. induction ps as [|p ps IH]; simpl; [reflexivity|].
  intros H. apply andb_prop in H as [H1 H2].
  rewrite forallb_app, H1. now apply IH.
Qed.

Lemma filter_nil_forallb {A} (f : A -> bool) l :
  filter f l = [] -> forallb (fun x => negb (f x)) l = true.
Proof.
  induction l as [|x l IH]; simpl; [reflexivity|].
  destruct (f x); [discriminate|]. exact IH.
Qed.

Lemma forallb_same {A} (f g : A -> bool) l :
  (forall x, f x = g x) -> forallb f l = forallb g l.
Proof.
  intros H. induction l as [|x l IH]; simpl; [reflexivity|].
  now rewrite H, IH.
Qed.

(** A line that is not blank has at least one item. *)
Lemma splitTwigLine_not_nil line :
  is_empty (trim line) = false -> splitTwigLine line <> [].
Proof.
  intros Hne Hnil. unfold splitTwigLine in Hnil.
  apply filter_nil_forallb in Hnil.
  assert (H : forallb all_space (split_loop (S (length line)) (length line) [] line) = true).
  { rewrite <- Hnil. apply forallb_same.
    intros p. now rewrite negb_involutive, is_empty_trim. }
  apply all_space_concat in H. rewrite split_loop_concat in H.
  rewrite is_empty_trim in Hne. congruence.
Qed.

(** ** Line counts *)






(** ** The lines of the output text *)

Lemma not_nl_not_In s : Forall not_nl s <-> ~ In NL s.
Proof.
  unfold not_nl. rewrite Forall_forall. split.
  - intros H Hin. now apply (H NL Hin).
  - intros H x Hin ->. tauto.
Qed.

Lemma Forall_concat_pieces {A} (Q : A -> Prop) (ps : list (list A)) :
  Forall Q (concat ps) -> Forall (Forall Q) ps.
Proof.
  induction ps as [|p ps IH]; simpl; intros H; [constructor|].
  apply Forall_app in H as [H1 H2]. constructor; [exact H1 | now apply IH].
Qed.

Lemma Forall_filter {A} (Q : A -> Prop) f (l : list A) :
  Forall Q l -> Forall Q (filter f l).
Proof.
  induction 1 as [|x l Hx _ IH]; simpl; [constructor|].
  destruct (f x); [now constructor | exact IH].
Qed.

Lemma splitTwigLine_all (Q : char -> Prop) line :
  Forall Q line -> Forall (Forall Q) (splitTwigLine line).
Proof.
  intros H. unfold splitTwigLine. apply Forall_filter.
  apply Forall_concat_pieces. now rewrite split_loop_concat.
Qed.

Lemma indent_not_nl cfg st : Forall not_nl (indent cfg st).
Proof.
  unfold indent. apply repeat_str_all. unfold indentChar.
  destruct (useTabs cfg).
  - repeat constructor. discriminate.
  - apply repeat_str_all. repeat constructor. discriminate.
Qed.

Lemma emit_lines_ok cfg x st :
  lines_ok st -> Forall not_nl x -> lines_ok (emit cfg x st).
Proof.
  intros [H1 H2] Hx. split; [|exact H2].
  unfold emit, push. cbn [formattedLines set_formattedLines].
  apply Forall_app. split; [exact H1|]. constructor; [|constructor].
  apply Forall_app. split; [apply indent_not_nl | exact Hx].
Qed.

Lemma lines_ok_same st st' :
  formattedLines st' = formattedLines st ->
  attributeLines st' = attributeLines st ->
  lines_ok st -> lines_ok st'.
Proof. unfold lines_ok. now intros -> ->. Qed.

Lemma item_before_lines item st :
  formattedLines (item_before item st) = formattedLines st /\
  attributeLines (item_before item st) = attributeLines st.
Proof. unfold item_before. repeat break_if; simpl; tauto. Qed.

Lemma item_after_lines item st :
  formattedLines (item_after item st) = formattedLines st /\
  attributeLines (item_after item st) = attributeLines st.
Proof. unfold item_after. repeat break_if; simpl; tauto. Qed.

Lemma process_item_lines_ok cfg st x :
  lines_ok st -> Forall not_nl x -> lines_ok (process_item cfg st x).
Proof.
  intros Hst Hx. pose proof (trim_all not_nl x Hx) as Ht.
  unfold process_item. break_if; [now apply emit_lines_ok|].
  destruct (item_after_lines (trim x)
              (emit cfg (trim x) (item_before (trim x) st))) as [E1 E2].
  eapply lines_ok_same; [exact E1 | exact E2 |].
  apply emit_lines_ok; [|exact Ht].
  destruct (item_before_lines (trim x) st) as [F1 F2].
  eapply lines_ok_same; eauto.
Qed.

Lemma fold_items_lines_ok cfg items : forall st,
  lines_ok st -> Forall (Forall not_nl) items ->
  lines_ok (fold_left (process_item cfg) items st).
Proof.
  induction items as [|x items IH]; intros st Hst HF; [exact Hst|].
  inversion HF; subst. cbn [fold_left].
  apply IH; [now apply process_item_lines_ok | assumption].
Qed.

Lemma script_body_line_lines_ok cfg st t :
  lines_ok st -> Forall not_nl t -> lines_ok (script_body_line cfg st t).
Proof.
  intros Hst Ht. unfold script_body_line.
  assert (Hb : lines_ok (script_before t st)).
  { unfold script_before. break_if; [|exact Hst].
    eapply lines_ok_same; [| | exact Hst]; reflexivity. }
  pose proof (emit_lines_ok cfg t _ Hb Ht) as He.
  unfold script_after. break_if; [|exact He].
  eapply lines_ok_same; [| | exact He]; reflexivity.
Qed.

Lemma format_line_lines_ok cfg st line :
  lines_ok st -> Forall not_nl line -> lines_ok (format_line cfg st line).
Proof.
  intros Hst Hl. pose proof (trim_all not_nl line Hl) as Ht.
  assert (Hsp : not_nl SP) by discriminate.
  assert (Hcol : forall ls, Forall (Forall not_nl) ls ->
                            Forall not_nl (collapseTwigAttribute ls)).
  { intros ls Hls. apply collapseTwigAttribute_all; try assumption; discriminate. }
  assert (Hemit : forall x st', formattedLines st' = formattedLines st ->
                    attributeLines st' = attributeLines st ->
                    Forall not_nl x -> lines_ok (emit cfg x st')).
  { intros x st' E1 E2 Hx. apply emit_lines_ok; [|exact Hx].
    eapply lines_ok_same; eauto. }
  unfold format_line.
  destruct (insideTwigAttribute st).
  { assert (Hbuf : Forall (Forall not_nl) (attributeLines st ++ [line])).
    { apply Forall_app. split; [apply Hst | now repeat constructor]. }
    break_if.
    - split; [|constructor].
      cbn [formattedLines set_attribute attributeQuote attributeLines emit push
           set_formattedLines].
      apply Forall_app. split; [apply Hst|]. constructor; [|constructor].
      apply Forall_app. split; [apply indent_not_nl|]. now apply Hcol.
    - split; [apply Hst | exact Hbuf]. }
  destruct (exec Re.attr_start line).
  { split; [apply Hst | now repeat constructor]. }
  break_if.
  { apply emit_lines_ok; [exact Hst|]. apply Hcol. now repeat constructor. }
  break_if.
  { destruct Hst as [H1 H2]. split; [|exact H2].
    cbn [push formattedLines set_formattedLines].
    apply Forall_app. split; [exact H1 | now repeat constructor]. }
  break_if; [exact Hst|].
  destruct (includes (u "{#") (trim line)).
  { cbn [inComment set_inComment].
    break_if; (eapply lines_ok_same; [| | apply (Hemit (trim line) st eq_refl eq_refl Ht)]);
      reflexivity. }
  destruct (inComment st).
  { break_if; (eapply lines_ok_same; [| | apply (Hemit (trim line) st eq_refl eq_refl Ht)]);
      reflexivity. }
  destruct (test Re.verbatim (trim line)).
  { cbn [inVerbatim set_inVerbatim].
    break_if; (eapply lines_ok_same; [| | apply (Hemit (trim line) st eq_refl eq_refl Ht)]);
      reflexivity. }
  destruct (inVerbatim st).
  { break_if; (eapply lines_ok_same; [| | apply (Hemit (trim line) st eq_refl eq_refl Ht)]);
      reflexivity. }
  break_if.
  { eapply lines_ok_same; [| | apply (Hemit (trim line) st eq_refl eq_refl Ht)];
      reflexivity. }
  break_if.
  { eapply lines_ok_same; [| | apply (Hemit (trim line) st eq_refl eq_refl Ht)];
      reflexivity. }
  break_if.
  { apply Hemit; [reflexivity | reflexivity | exact Ht]. }
  break_if.
  { apply Hemit; [reflexivity | reflexivity | exact Ht]. }
  break_if.
  - now apply script_body_line_lines_ok.
  - apply fold_items_lines_ok; [exact Hst|]. now apply splitTwigLine_all.
Qed.

Lemma fold_lines_lines_ok cfg lines : forall st,
  lines_ok st -> Forall (Forall not_nl) lines ->
  lines_ok (fold_left (format_line cfg) lines st).
Proof.
  induction lines as [|l lines IH]; intros st Hst HF; [exact Hst|].
  inversion HF; subst. cbn [fold_left].
  apply IH; [now apply format_line_lines_ok | assumption].
Qed.

Lemma split_char_not_nl s : Forall (Forall not_nl) (split_char NL s).
Proof.
  assert (H : Forall (fun _ : char => True) s) by (apply Forall_forall; tauto).
  apply (split_char_pieces _ NL) in H.
  eapply Forall_impl; [|exact H]. intros p [_ Hp]. now apply not_nl_not_In.
Qed.

(** No emitted line holds a line feed, so the lines of the output text
    are the emitted lines. *)
Lemma format_output_lines cfg text :
  formattedLines (format_lines cfg (split_char NL text)) <> [] ->
  split_char NL (format cfg text) =
    formattedLines (format_lines cfg (split_char NL text)).
Proof.
  intros Hne. unfold format. apply split_join; [exact Hne|].
  assert (Hok : lines_ok (format_lines cfg (split_char NL text))).
  { apply fold_lines_lines_ok; [|apply split_char_not_nl].
    split; constructor. }
  eapply Forall_impl; [|apply Hok]. intros p. apply not_nl_not_In.
Qed.

(** ** Line counts of the output text *)

Lemma format_line_normal_path cfg st line :
  normal_path st line = true ->
  format_line cfg st line = fold_left (process_item cfg) (splitTwigLine line) st.
Proof.
  unfold normal_path. intros H.
  do 5 (apply andb_prop in H; destruct H as [H ?]).
  repeat match goal with
         | E : negb _ = true |- _ => apply negb_true_iff in E
         end.
  rewrite (format_line_tag_rules cfg st line H). unfold tag_rules.
  repeat match goal with E : _ = false |- _ => rewrite E; clear E end.
  reflexivity.
Qed.







(** ** Formatting twice *)

(** C1 as stated fails.  The first pass collapses the attribute value
    that runs over two lines into one line; the tag is still open at the
    end of that line, so the second pass takes it for an ordinary line
    and splits it into three items. *)
Lemma format_not_idempotent :
  format default_config multi_line_tag_text =
    join [NL] [ u "<div class=" ++ [DQ] ++ u "a {{ b }} c" ++ [DQ]; u ">" ] /\
  format default_config (format default_config multi_line_tag_text) =
    join [NL] [ u "<div class=" ++ [DQ] ++ u "a"; u "{{ b }}"; u "c" ++ [DQ];
                u ">" ] /\
  format default_config (format default_config multi_line_tag_text) <>
    format default_config multi_line_tag_text.
Proof. vm_compute. repeat split. discriminate. Qed.

(** * Further properties of the formatter *)

(** ** splitTwigLine *)

(** Membership of a character, decided by computation. *)
Lemma not_In_by_existsb c s : existsb (N.eqb c) s = false -> ~ In c s.
Proof.
  intros H Hin. assert (E : existsb (N.eqb c) s = true).
  { apply existsb_exists. exists c. split; [exact Hin | apply N.eqb_refl]. }
  congruence.
Qed.

Lemma strip_ws_app a b : strip_ws (a ++ b) = strip_ws a ++ strip_ws b.
Proof. apply filter_app. Qed.

Lemma strip_ws_all_space s : all_space s = true -> strip_ws s = [].
Proof.
  unfold all_space, strip_ws. induction s as [|c s IH]; simpl; [reflexivity|].
  intros H. apply andb_prop in H as [-> H]. simpl. now apply IH.
Qed.

Lemma strip_ws_concat_filter ps :
  strip_ws (concat (filter (fun s => negb (is_empty (trim s))) ps)) =
    strip_ws (concat ps).
Proof.
  induction ps as [|p ps IH]; [reflexivity|]. cbn [filter concat].
  rewrite is_empty_trim. destruct (all_space p) eqn:E; cbn [negb].
  - rewrite strip_ws_app, (strip_ws_all_space p E). exact IH.
  - cbn [concat]. now rewrite !strip_ws_app, IH.
Qed.

Lemma filter_all {A} (f : A -> bool) l : Forall (fun x => f x = true) (filter f l).
Proof.
  induction l as [|x l IH]; simpl; [constructor|].
  destruct (f x) eqn:E; [now constructor | exact IH].
Qed.

Lemma strip_ws_splitTwigLine line :
  strip_ws (concat (splitTwigLine line)) = strip_ws line.
Proof.
  unfold splitTwigLine.
  now rewrite strip_ws_concat_filter, split_loop_concat.
Qed.

Lemma splitTwigLine_items_not_blank line :
  Forall (fun item => is_empty (trim item) = false) (splitTwigLine line).
Proof.
  unfold splitTwigLine.
  eapply Forall_impl; [|apply filter_all].
  intros s H. now apply negb_true_iff in H.
Qed.

(** X1.  [splitTwigLine] cuts the line into consecutive pieces and drops
    the pieces that are blank: no character other than white space is
    lost, none is added, the order is kept, and no item is blank. *)
Theorem splitTwigLine_keeps_content line :
  (exists pieces,
     concat pieces = line /\
     splitTwigLine line = filter (fun s => negb (is_empty (trim s))) pieces) /\
  strip_ws (concat (splitTwigLine line)) = strip_ws line /\
  Forall (fun item => is_empty (trim item) = false) (splitTwigLine line).
Proof.
  split; [|split].
  - exists (split_loop (S (length line)) (length line) [] line).
    split; [apply split_loop_concat | reflexivity].
  - apply strip_ws_splitTwigLine.
  - apply splitTwigLine_items_not_blank.
Qed.

Lemma all_space_pieces ps :
  all_space (concat ps) = true -> forallb all_space ps = true.
Proof.
  unfold all_space. induction ps as [|p ps IH]; simpl; [reflexivity|].
  rewrite forallb_app. intros H. apply andb_prop in H as [-> H].
  now apply IH.
Qed.

Lemma filter_none {A} (f : A -> bool) l :
  forallb (fun x => negb (f x)) l = true -> filter f l = [].
Proof.
  induction l as [|x l IH]; simpl; [reflexivity|].
  intros H. apply andb_prop in H as [H1 H2].
  apply negb_true_iff in H1. rewrite H1. now apply IH.
Qed.

(** X2.  [splitTwigLine] returns no item exactly for the blank lines
    (the empty line and the lines of white space only). *)
Theorem splitTwigLine_empty_iff_blank line :
  is_empty (concat (splitTwigLine line)) = is_empty (trim line) /\
  match splitTwigLine line with [] => true | _ :: _ => false end =
    is_empty (trim line).
Proof.
  destruct (is_empty (trim line)) eqn:Hb.
  - assert (E : splitTwigLine line = []).
    { unfold splitTwigLine. apply filter_none.
      rewrite is_empty_trim in Hb.
      rewrite <- (split_loop_concat (length line) (S (length line)) [] line) in Hb.
      apply all_space_pieces in Hb. rewrite <- Hb. apply forallb_same.
      intros p. now rewrite negb_involutive, is_empty_trim. }
    now rewrite E.
  - pose proof (splitTwigLine_not_nil line Hb) as Hne.
    pose proof (splitTwigLine_items_not_blank line) as Hall.
    destruct (splitTwigLine line) as [|x xs]; [congruence|].
    split; [|reflexivity].
    inversion Hall as [|? ? Hx _]; subst.
    destruct x as [|c x]; [discriminate Hx | reflexivity].
Qed.

(** X3.  A line without an opening brace holds no template span: when it
    is not blank, [splitTwigLine] returns it whole, as its only item. *)
Theorem splitTwigLine_without_brace line :
  ~ In LBRACE line ->
  is_empty (trim line) = false ->
  splitTwigLine line = [line].
Proof.
  intros Hlb Hne. unfold splitTwigLine. cbn [split_loop].
  rewrite (requires_search LBRACE) by (reflexivity || exact Hlb).
  destruct line as [|c line]; [discriminate|].
  cbn [nonempty filter]. now rewrite Hne.
Qed.

Lemma splitTwigLine_without_brace_witness :
  ~ In LBRACE (u "  <p>Hello</p> ") /\
  is_empty (trim (u "  <p>Hello</p> ")) = false /\
  splitTwigLine (u "  <p>Hello</p> ") = [u "  <p>Hello</p> "].
Proof.
  assert (H1 : ~ In LBRACE (u "  <p>Hello</p> ")).
  { apply not_In_by_existsb. vm_compute. reflexivity. }
  assert (H2 : is_empty (trim (u "  <p>Hello</p> ")) = false)
    by (vm_compute; reflexivity).
  split; [exact H1|]. split; [exact H2|].
  exact (splitTwigLine_without_brace (u "  <p>Hello</p> ") H1 H2).
Defined.

(** ** Line feeds, blank lines, open regions *)

(** X4.  No line that [format] pushes holds a line feed, whatever the
    input and the configuration; so, unless nothing was pushed, the lines
    of the returned text are exactly the pushed lines. *)
Theorem format_lines_are_output_lines cfg text :
  LF_free (formattedLines (format_lines cfg (split_char NL text))) /\
  (formattedLines (format_lines cfg (split_char NL text)) <> [] ->
   split_char NL (format cfg text) =
     formattedLines (format_lines cfg (split_char NL text))).
Proof.
  split; [|apply format_output_lines].
  apply fold_lines_lines_ok; [|apply split_char_not_nl].
  split; constructor.
Qed.

Lemma format_lines_are_output_lines_witness :
  formattedLines (format_lines default_config (split_char NL mixed_line)) <> [] /\
  split_char NL (format default_config mixed_line) =
    formattedLines (format_lines default_config (split_char NL mixed_line)).
Proof.
  assert (H : formattedLines
                (format_lines default_config (split_char NL mixed_line)) <> [])
    by (vm_compute; discriminate).
  split; [exact H|].
  exact (proj2 (format_lines_are_output_lines default_config mixed_line) H).
Defined.

Lemma all_space_no_lt s : all_space s = true -> ~ In LT s.
Proof.
  unfold all_space. rewrite forallb_forall. intros H Hin.
  specialize (H LT Hin). vm_compute in H. discriminate.
Qed.

(** X5.  Outside attribute buffering a blank line touches neither the
    depths nor the modes: it pushes one empty line when
    [preserveNewLines] is on and does nothing at all when it is off,
    also inside a comment, verbatim, script or style region. *)
Theorem blank_line_changes_no_state cfg st line :
  insideTwigAttribute st = false ->
  is_empty (trim line) = true ->
  format_line cfg st line = (if preserveNewLines cfg then push [] st else st).
Proof.
  intros Hin Hb.
  pose proof Hb as Hs. rewrite is_empty_trim in Hs.
  apply all_space_no_lt in Hs.
  unfold format_line. rewrite Hin.
  rewrite (requires_exec LT Re.attr_start) by (reflexivity || exact Hs).
  rewrite (requires_test LT Re.attr_inline) by (reflexivity || exact Hs).
  rewrite Hb. now destruct (preserveNewLines cfg).
Qed.

Lemma blank_line_changes_no_state_witness :
  insideTwigAttribute in_script_state = false /\
  is_empty (trim (u "   ")) = true /\
  format_line default_config in_script_state (u "   ") =
    push [] in_script_state.
Proof.
  split; [reflexivity|]. split; [vm_compute; reflexivity|].
  exact (blank_line_changes_no_state default_config in_script_state (u "   ")
           eq_refl eq_refl).
Defined.

(** X6.  While a comment, verbatim or attribute region is open, a line
    changes neither [twigIndentLevel] nor [htmlIndentLevel]; inside a
    script or style region no line changes [twigIndentLevel]: template
    tags met there are not interpreted. *)
Theorem depths_frozen_in_open_regions cfg st line :
  (region_open st = true ->
   twigIndentLevel (format_line cfg st line) = twigIndentLevel st /\
   htmlIndentLevel (format_line cfg st line) = htmlIndentLevel st) /\
  (inScriptTag st || inStyleTag st = true ->
   twigIndentLevel (format_line cfg st line) = twigIndentLevel st).
Proof.
  split.
  - unfold region_open. intros Hopen. unfold format_line.
    destruct (insideTwigAttribute st) eqn:Ha.
    { break_if; simpl; tauto. }
    destruct (exec Re.attr_start line); [simpl; tauto|].
    break_if; [simpl; tauto|].
    break_if; [simpl; tauto|].
    break_if; [simpl; tauto|].
    destruct (includes (u "{#") (trim line)).
    { cbn [inComment set_inComment]. break_if; simpl; tauto. }
    destruct (inComment st) eqn:Hc.
    { break_if; simpl; tauto. }
    destruct (test Re.verbatim (trim line)).
    { cbn [inVerbatim set_inVerbatim]. break_if; simpl; tauto. }
    destruct (inVerbatim st) eqn:Hv; [|discriminate].
    break_if; simpl; tauto.
  - intros Hs. unfold format_line.
    destruct (insideTwigAttribute st).
    { break_if; reflexivity. }
    destruct (exec Re.attr_start line); [reflexivity|].
    break_if; [reflexivity|].
    break_if; [reflexivity|].
    break_if; [reflexivity|].
    destruct (includes (u "{#") (trim line)).
    { cbn [inComment set_inComment]. break_if; reflexivity. }
    destruct (inComment st).
    { break_if; reflexivity. }
    destruct (test Re.verbatim (trim line)).
    { cbn [inVerbatim set_inVerbatim]. break_if; reflexivity. }
    destruct (inVerbatim st).
    { break_if; reflexivity. }
    break_if; [reflexivity|].
    break_if; [reflexivity|].
    break_if; [reflexivity|].
    break_if; [reflexivity|].
    rewrite Hs. unfold script_body_line, script_after, script_before.
    repeat break_if; reflexivity.
Qed.

Lemma depths_frozen_in_open_regions_witness :
  inScriptTag in_script_state || inStyleTag in_script_state = true /\
  twigIndentLevel
    (format_line default_config in_script_state (u "{% if x %}")) =
    twigIndentLevel in_script_state.
Proof.
  split; [reflexivity|].
  exact (proj2 (depths_frozen_in_open_regions default_config in_script_state
                  (u "{% if x %}")) eq_refl).
Defined.

(** ** Script and style regions *)




(** ** The content of the output *)

Lemma strip_ws_trim_start s : strip_ws (trim_start s) = strip_ws s.
Proof.
  induction s as [|c s IH]; [reflexivity|]. simpl.
  destruct (is_space c) eqn:E; [exact IH|].
  simpl. now rewrite E.
Qed.

Lemma strip_ws_rev s : strip_ws (rev s) = rev (strip_ws s).
Proof.
  unfold strip_ws. induction s as [|c s IH]; [reflexivity|]. simpl.
  rewrite filter_app, IH. simpl.
  destruct (negb (is_space c)); simpl; [reflexivity | now rewrite app_nil_r].
Qed.

Lemma strip_ws_trim s : strip_ws (trim s) = strip_ws s.
Proof.
  unfold trim.
  now rewrite strip_ws_rev, strip_ws_trim_start, strip_ws_rev, rev_involutive,
    strip_ws_trim_start.
Qed.

Lemma strip_ws_repeat s n : strip_ws s = [] -> strip_ws (repeat_str s n) = [].
Proof.
  intros H. induction n as [|n IH]; [reflexivity|]. simpl.
  now rewrite strip_ws_app, H, IH.
Qed.

Lemma strip_ws_indent cfg st : strip_ws (indent cfg st) = [].
Proof.
  unfold indent. apply strip_ws_repeat. unfold indentChar.
  destruct (useTabs cfg); [reflexivity|]. now apply strip_ws_repeat.
Qed.

Lemma strip_ws_emit cfg x st :
  strip_ws (concat (formattedLines (emit cfg x st))) =
    strip_ws (concat (formattedLines st)) ++ strip_ws x.
Proof.
  unfold emit, push. cbn [formattedLines set_formattedLines].
  rewrite concat_app, !strip_ws_app. cbn [concat].
  now rewrite app_nil_r, strip_ws_app, strip_ws_indent.
Qed.

Lemma strip_ws_process_item cfg st x :
  strip_ws (concat (formattedLines (process_item cfg st x))) =
    strip_ws (concat (formattedLines st)) ++ strip_ws x.
Proof.
  unfold process_item. break_if.
  - now rewrite strip_ws_emit, strip_ws_trim.
  - destruct (item_after_lines (trim x)
                (emit cfg (trim x) (item_before (trim x) st))) as [E _].
    rewrite E, strip_ws_emit, strip_ws_trim.
    destruct (item_before_lines (trim x) st) as [F _]. now rewrite F.
Qed.

Lemma strip_ws_fold_items cfg items : forall st,
  strip_ws (concat (formattedLines (fold_left (process_item cfg) items st))) =
    strip_ws (concat (formattedLines st)) ++ strip_ws (concat items).
Proof.
  induction items as [|x items IH]; intros st; cbn [fold_left concat].
  - now rewrite app_nil_r.
  - now rewrite IH, strip_ws_process_item, strip_ws_app, app_assoc.
Qed.

Lemma strip_ws_script_body_line cfg st t :
  strip_ws (concat (formattedLines (script_body_line cfg st t))) =
    strip_ws (concat (formattedLines st)) ++ strip_ws t.
Proof.
  unfold script_body_line.
  assert (E : formattedLines
                (script_after t (emit cfg t (script_before t st))) =
              formattedLines (emit cfg t (script_before t st)))
    by (unfold script_after; break_if; reflexivity).
  rewrite E, strip_ws_emit. f_equal.
  unfold script_before. break_if; reflexivity.
Qed.

(** A line that no attribute rule takes is copied to the output up to
    white space. *)
Lemma strip_ws_format_line cfg st line :
  insideTwigAttribute st = false ->
  exec Re.attr_start line = None ->
  test Re.attr_inline line = false ->
  strip_ws (concat (formattedLines (format_line cfg st line))) =
    strip_ws (concat (formattedLines st)) ++ strip_ws line.
Proof.
  intros Hin Hm Hi. unfold format_line. rewrite Hin, Hm, Hi.
  assert (Hemit : forall st', formattedLines st' = formattedLines st ->
            strip_ws (concat (formattedLines (emit cfg (trim line) st'))) =
              strip_ws (concat (formattedLines st)) ++ strip_ws line).
  { intros st' E. now rewrite strip_ws_emit, strip_ws_trim, E. }
  destruct (is_empty (trim line)) eqn:Hb.
  { pose proof Hb as Hs. rewrite is_empty_trim in Hs.
    rewrite (strip_ws_all_space line Hs), app_nil_r.
    destruct (preserveNewLines cfg); cbn [andb negb]; [|reflexivity].
    unfold push. cbn [formattedLines set_formattedLines].
    rewrite concat_app. cbn [concat]. now rewrite !app_nil_r. }
  cbn [andb].
  destruct (includes (u "{#") (trim line)).
  { cbn [inComment set_inComment].
    break_if; [change (formattedLines (set_inComment false ?s)) with (formattedLines s)|];
      now apply Hemit. }
  destruct (inComment st).
  { break_if; [change (formattedLines (set_inComment false ?s)) with (formattedLines s)|];
      now apply Hemit. }
  destruct (test Re.verbatim (trim line)).
  { cbn [inVerbatim set_inVerbatim].
    break_if; [change (formattedLines (set_inVerbatim false ?s)) with (formattedLines s)|];
      now apply Hemit. }
  destruct (inVerbatim st).
  { break_if; [change (formattedLines (set_inVerbatim false ?s)) with (formattedLines s)|];
      now apply Hemit. }
  break_if.
  { cbn [formattedLines set_htmlIndentLevel set_scriptTagBaseIndent set_inScriptTag].
    now apply Hemit. }
  break_if.
  { cbn [formattedLines set_htmlIndentLevel set_styleTagBaseIndent set_inStyleTag].
    now apply Hemit. }
  break_if; [now apply Hemit|].
  break_if; [now apply Hemit|].
  break_if.
  - now rewrite strip_ws_script_body_line, strip_ws_trim.
  - rewrite strip_ws_fold_items. f_equal. apply strip_ws_splitTwigLine.
Qed.

Lemma strip_ws_fold_lines cfg lines : forall st,
  insideTwigAttribute st = false ->
  Forall (fun l => exec Re.attr_start l = None /\ test Re.attr_inline l = false)
    lines ->
  strip_ws (concat (formattedLines (fold_left (format_line cfg) lines st))) =
    strip_ws (concat (formattedLines st)) ++ strip_ws (concat lines).
Proof.
  induction lines as [|l lines IH]; intros st Hin HF; cbn [fold_left concat].
  - now rewrite app_nil_r.
  - inversion HF as [|? ? [Hm Hi] HF']; subst.
    rewrite IH; [| |exact HF'].
    + now rewrite strip_ws_format_line, strip_ws_app, app_assoc.
    + destruct (format_line_not_buffering cfg st l Hin) as [(q & Hq & _) | (_ & E)];
        [congruence | exact E].
Qed.

Lemma strip_ws_join xs : strip_ws (join [NL] xs) = strip_ws (concat xs).
Proof.
  induction xs as [|x xs IH]; [reflexivity|].
  destruct xs as [|y ys]; [cbn [join concat]; now rewrite app_nil_r|].
  change (join [NL] (x :: y :: ys)) with (x ++ [NL] ++ join [NL] (y :: ys)).
  cbn [concat] in *. now rewrite !strip_ws_app, IH, strip_ws_app.
Qed.

Lemma strip_ws_split s : strip_ws (concat (split_char NL s)) = strip_ws s.
Proof.
  induction s as [|x s IH]; [reflexivity|]. cbn [split_char].
  destruct (N.eqb x NL) eqn:E.
  - apply N.eqb_eq in E. subst x. cbn [concat app]. rewrite IH. reflexivity.
  - destruct (split_char NL s) as [|p ps] eqn:Es.
    + now apply split_char_not_nil in Es.
    + cbn [concat] in *. change ((x :: p) ++ concat ps) with (x :: (p ++ concat ps)).
      unfold strip_ws in *. cbn [filter]. now rewrite IH.
Qed.

(** X8.  Where no attribute rule applies (no line starts a multi-line
    attribute or holds a single-line attribute with Twig), formatting
    changes white space only: the output and the input are the same text
    once white space is removed, under any configuration. *)
Theorem format_changes_white_space_only cfg text :
  Forall (fun l => exec Re.attr_start l = None /\ test Re.attr_inline l = false)
    (split_char NL text) ->
  strip_ws (format cfg text) = strip_ws text.
Proof.
  intros HF. unfold format, format_lines.
  rewrite strip_ws_join, (strip_ws_fold_lines cfg _ init_state eq_refl HF).
  cbn [formattedLines init_state concat app]. apply strip_ws_split.
Qed.

Lemma format_changes_white_space_only_witness :
  Forall (fun l => exec Re.attr_start l = None /\ test Re.attr_inline l = false)
    (split_char NL (join [NL] script_else_doc)) /\
  strip_ws (format default_config (join [NL] script_else_doc)) =
    strip_ws (join [NL] script_else_doc).
Proof.
  assert (HF : Forall (fun l => exec Re.attr_start l = None /\
                                test Re.attr_inline l = false)
                 (split_char NL (join [NL] script_else_doc))).
  { replace (split_char NL (join [NL] script_else_doc)) with script_else_doc
      by (vm_compute; reflexivity).
    unfold script_else_doc. cbn [map].
    repeat (constructor; [split; vm_compute; reflexivity|]). constructor. }
  split; [exact HF|].
  exact (format_changes_white_space_only default_config _ HF).
Defined.

(** ** The configuration *)

Ltac ctl_leaf :=
  unfold control; simpl;
  repeat match goal with E : _ = _ |- _ => rewrite E; clear E end;
  reflexivity.

Lemma control_process_item cfg1 cfg2 st1 st2 x :
  control st1 = control st2 ->
  control (process_item cfg1 st1 x) = control (process_item cfg2 st2 x).
Proof.
  intros H. unfold control in H.
  injection H as E1 E2 E3 E4 E5 E6 E7 E8 E9 E10 E11.
  unfold process_item, item_after, item_before.
  repeat break_if; ctl_leaf.
Qed.

Lemma control_fold_items cfg1 cfg2 items : forall st1 st2,
  control st1 = control st2 ->
  control (fold_left (process_item cfg1) items st1) =
    control (fold_left (process_item cfg2) items st2).
Proof.
  induction items as [|x items IH]; intros st1 st2 H; [exact H|].
  cbn [fold_left]. apply IH. now apply control_process_item.
Qed.

Lemma control_script_body_line cfg1 cfg2 st1 st2 t :
  control st1 = control st2 ->
  control (script_body_line cfg1 st1 t) = control (script_body_line cfg2 st2 t).
Proof.
  intros H. unfold control in H.
  injection H as E1 E2 E3 E4 E5 E6 E7 E8 E9 E10 E11.
  unfold script_body_line, script_after, script_before.
  repeat break_if; ctl_leaf.
Qed.

Lemma control_format_line cfg1 cfg2 st1 st2 line :
  control st1 = control st2 ->
  control (format_line cfg1 st1 line) = control (format_line cfg2 st2 line).
Proof.
  intros H. pose proof H as Hc. unfold control in H.
  injection H as E1 E2 E3 E4 E5 E6 E7 E8 E9 E10 E11.
  unfold format_line.
  rewrite E9, E10, E11.
  destruct (insideTwigAttribute st2) eqn:?.
  { cbn [attributeQuote attributeLines set_attribute]. break_if; ctl_leaf. }
  destruct (exec Re.attr_start line); [ctl_leaf|].
  break_if; [ctl_leaf|].
  destruct (is_empty (trim line)).
  { destruct (preserveNewLines cfg1), (preserveNewLines cfg2); ctl_leaf. }
  cbn [andb].
  destruct (includes (u "{#") (trim line)).
  { cbn [inComment set_inComment]. break_if; ctl_leaf. }
  rewrite E3. destruct (inComment st2) eqn:?.
  { break_if; ctl_leaf. }
  destruct (test Re.verbatim (trim line)).
  { cbn [inVerbatim set_inVerbatim]. break_if; ctl_leaf. }
  rewrite E4. destruct (inVerbatim st2) eqn:?.
  { break_if; ctl_leaf. }
  break_if; [ctl_leaf|].
  break_if; [ctl_leaf|].
  break_if; [ctl_leaf|].
  break_if; [ctl_leaf|].
  rewrite E5, E6. break_if.
  - now apply control_script_body_line.
  - now apply control_fold_items.
Qed.

(** X9.  The depths, the modes, the saved base depths and the attribute
    buffer after any sequence of lines are the same under every
    configuration: the configuration decides how the output is written,
    never how the input is read. *)
Theorem control_state_independent_of_config cfg1 cfg2 lines :
  control (format_lines cfg1 lines) = control (format_lines cfg2 lines).
Proof.
  unfold format_lines.
  assert (H : forall st1 st2, control st1 = control st2 ->
                control (fold_left (format_line cfg1) lines st1) =
                control (fold_left (format_line cfg2) lines st2)).
  { induction lines as [|l lines IH]; intros st1 st2 Hc; [exact Hc|].
    cbn [fold_left]. apply IH. now apply control_format_line. }
  now apply H.
Qed.

Lemma indent_same_unit cfg1 cfg2 st :
  indentChar cfg1 = indentChar cfg2 -> indent cfg1 st = indent cfg2 st.
Proof. unfold indent. now intros ->. Qed.

Lemma emit_same_unit cfg1 cfg2 x st :
  indentChar cfg1 = indentChar cfg2 -> emit cfg1 x st = emit cfg2 x st.
Proof. intros H. unfold emit. now rewrite (indent_same_unit cfg1 cfg2 st H). Qed.

Lemma process_item_same_unit cfg1 cfg2 st x :
  indentChar cfg1 = indentChar cfg2 ->
  process_item cfg1 st x = process_item cfg2 st x.
Proof.
  intros H. unfold process_item.
  now rewrite !(emit_same_unit cfg1 cfg2 _ _ H).
Qed.

Lemma fold_items_same_unit cfg1 cfg2 items : forall st,
  indentChar cfg1 = indentChar cfg2 ->
  fold_left (process_item cfg1) items st = fold_left (process_item cfg2) items st.
Proof.
  induction items as [|x items IH]; intros st H; [reflexivity|].
  cbn [fold_left]. rewrite (process_item_same_unit cfg1 cfg2 st x H).
  now apply IH.
Qed.

Lemma format_line_same_unit cfg1 cfg2 st line :
  indentChar cfg1 = indentChar cfg2 ->
  preserveNewLines cfg1 = preserveNewLines cfg2 ->
  format_line cfg1 st line = format_line cfg2 st line.
Proof.
  intros H Hp. unfold format_line, script_body_line.
  rewrite Hp, (fold_items_same_unit cfg1 cfg2 _ _ H).
  now rewrite !(emit_same_unit cfg1 cfg2 _ _ H).
Qed.

(** X10.  The output depends on the configuration only through the
    indent unit and [preserveNewLines]: two configurations with the same
    [indentChar] and the same [preserveNewLines] format every text alike.
    In particular [indentSize] has no effect when [useTabs] is on. *)
Theorem format_depends_on_indent_unit cfg1 cfg2 text :
  indentChar cfg1 = indentChar cfg2 ->
  preserveNewLines cfg1 = preserveNewLines cfg2 ->
  format cfg1 text = format cfg2 text.
Proof.
  intros H Hp.
  assert (E : forall lines st,
             fold_left (format_line cfg1) lines st =
             fold_left (format_line cfg2) lines st).
  { induction lines as [|l lines IH]; intros st; cbn [fold_left].
    - exact eq_refl.
    - rewrite (format_line_same_unit cfg1 cfg2 st l H Hp). apply IH. }
  unfold format, format_lines. rewrite E. exact eq_refl.
Qed.

Lemma format_depends_on_indent_unit_witness :
  indentChar {| indentSize := 4; useTabs := true; preserveNewLines := true |} =
    indentChar {| indentSize := 2; useTabs := true; preserveNewLines := true |} /\
  format {| indentSize := 4; useTabs := true; preserveNewLines := true |}
    (join [NL] mid_block_doc) =
  format {| indentSize := 2; useTabs := true; preserveNewLines := true |}
    (join [NL] mid_block_doc).
Proof.
  split; [reflexivity|].
  exact (format_depends_on_indent_unit
           {| indentSize := 4; useTabs := true; preserveNewLines := true |}
           {| indentSize := 2; useTabs := true; preserveNewLines := true |}
           (join [NL] mid_block_doc) eq_refl eq_refl).
Defined.

(** ** The quote of a buffered attribute *)

Lemma star_loop_frame step g k (gs : list nat) :
  (forall k' rest caps res,
     step k' rest caps = Some res ->
     exists rest' caps',
       k' rest' caps' = Some res /\
       forall n, ~ In n gs -> cap_get n caps' = cap_get n caps) ->
  forall fuel rest caps res,
    star_loop step g k fuel rest caps = Some res ->
    exists rest' caps',
      k rest' caps' = Some res /\
      forall n, ~ In n gs -> cap_get n caps' = cap_get n caps.
Proof.
  intros Hstep. induction fuel as [|fuel IHf]; intros rest caps res H;
    simpl in H.
  - exists rest, caps. now split.
  - assert (Hagain : forall res',
              step (fun rest' caps' =>
                      if (length rest' <? length rest)%nat
                      then star_loop step g k fuel rest' caps' else None)
                   rest caps = Some res' ->
              exists rest' caps',
                k rest' caps' = Some res' /\
                forall n, ~ In n gs -> cap_get n caps' = cap_get n caps).
    { intros res' E. apply Hstep in E as (r' & c' & E & Hc).
      destruct (length r' <? length rest)%nat; [|discriminate].
      apply IHf in E as (r'' & c'' & E & Hc').
      exists r'', c''. split; [exact E|].
      intros n Hn. now rewrite Hc', Hc. }
    destruct g.
    + match type of H with
      | match ?a with _ => _ end = _ => destruct a eqn:E
      end.
      * inversion H; subst. now apply Hagain.
      * exists rest, caps. now split.
    + destruct (k rest caps) eqn:E.
      * inversion H; subst. exists rest, caps. now split.
      * now apply Hagain.
Qed.

(** A match leaves the captures of the groups it does not hold as they
    were. *)
Lemma rmatch_frame len r : forall k rest caps res,
  rmatch len r k rest caps = Some res ->
  exists rest' caps',
    k rest' caps' = Some res /\
    forall n, ~ In n (groups r) -> cap_get n caps' = cap_get n caps.
Proof.
  induction r as [ | cs | r1 IH1 r2 IH2 | r1 IH1 r2 IH2 | g r1 IH1
                 | m r1 IH1 | m | | ];
    intros k rest caps res H; simpl in H.
  - exists rest, caps. now split.
  - destruct rest as [|c rest]; [discriminate|].
    destruct (cset_mem cs c); [|discriminate].
    exists rest, caps. now split.
  - apply IH1 in H as (r' & c' & H & Hc).
    apply IH2 in H as (r'' & c'' & H & Hc').
    exists r'', c''. split; [exact H|].
    intros n Hn. cbn [groups] in Hn.
    rewrite Hc', Hc; [reflexivity | |]; intros Hin; apply Hn, in_or_app; tauto.
  - cbn [groups].
    destruct (rmatch len r1 k rest caps) eqn:E.
    + inversion H; subst. apply IH1 in E as (r' & c' & E & Hc).
      exists r', c'. split; [exact E|].
      intros n Hn. apply Hc. intros Hin. apply Hn, in_or_app. tauto.
    + apply IH2 in H as (r' & c' & H & Hc).
      exists r', c'. split; [exact H|].
      intros n Hn. apply Hc. intros Hin. apply Hn, in_or_app. tauto.
  - eapply star_loop_frame; [|exact H].
    intros k' rest0 caps0 res0. apply IH1.
  - apply IH1 in H as (r' & c' & H & Hc).
    exists r', ((m, firstn (length rest - length r') rest) :: c').
    split; [exact H|].
    intros n Hn. cbn [groups] in Hn. cbn [cap_get].
    destruct (Nat.eqb m n) eqn:E.
    + apply Nat.eqb_eq in E. subst. exfalso. apply Hn. now left.
    + apply Hc. intros Hin. apply Hn. now right.
  - destruct (cap_get m caps) as [w|].
    + destruct (strip_prefix w rest) as [rest'|]; [|discriminate].
      exists rest', caps. now split.
    + exists rest, caps. now split.
  - destruct (Nat.eqb (length rest) len); [|discriminate].
    exists rest, caps. now split.
  - destruct rest; [|discriminate]. exists [], caps. now split.
Qed.

Lemma search_from_found len r : forall rest pre_rev m,
  search_from len r pre_rev rest = Some m ->
  exists rest0 rest',
    rmatch len r accept rest0 [] = Some (rest', m_caps m).
Proof.
  induction rest as [|x rest IH]; intros pre_rev m H;
    rewrite search_from_unfold in H;
    destruct (rmatch len r accept _ []) as [[rest' caps']|] eqn:E;
    try discriminate.
  - injection H as <-. cbn [m_caps]. eauto.
  - injection H as <-. cbn [m_caps]. eauto.
  - now apply IH in H.
Qed.

Lemma quote_class c :
  cset_mem (pos [(39, 39); (34, 34)]%N) c = true -> is_quote c = true.
Proof.
  unfold cset_mem, in_ranges, is_quote, SQ, DQ. simpl. rewrite orb_false_r.
  intros H. apply orb_prop in H as [H | H];
    apply andb_prop in H as [H1 H2]; apply N.leb_le in H1, H2;
    apply orb_true_iff; [left | right]; apply N.eqb_eq; lia.
Qed.

Lemma rmatch_seq_tail len r1 r2 k rest caps res :
  rmatch len (Seq r1 r2) k rest caps = Some res ->
  exists rest' caps', rmatch len r2 k rest' caps' = Some res.
Proof.
  intros H. cbn [rmatch] in H.
  apply rmatch_inv in H as (r' & c' & _ & H). eauto.
Qed.

Lemma rmatch_group_class len n cs r2 k rest caps res :
  rmatch len (Seq (Group n (Cls cs)) r2) k rest caps = Some res ->
  exists q rest1,
    cset_mem cs q = true /\
    rmatch len r2 k rest1 ((n, [q]) :: caps) = Some res.
Proof.
  intros H. cbn [rmatch] in H.
  destruct rest as [|q rest1]; [discriminate|].
  destruct (cset_mem cs q) eqn:Hq; [|discriminate].
  exists q, rest1. split; [exact Hq|].
  replace (length (q :: rest1) - length rest1)%nat with 1%nat in H
    by (cbn [length]; lia).
  exact H.
Qed.

(** The second group of the attribute-start pattern is one quote
    character. *)
Lemma attr_start_quote line m :
  exec Re.attr_start line = Some m ->
  exists q, group 2 m = [q] /\ is_quote q = true.
Proof.
  intros H. unfold exec in H.
  apply search_from_found in H as (rest0 & rest' & H).
  unfold Re.attr_start in H. cbn [seqs] in H.
  do 5 (apply rmatch_seq_tail in H as (? & ? & H)).
  unfold quote in H.
  apply rmatch_group_class in H as (q & rest1 & Hq & H).
  apply rmatch_frame in H as (r6 & c6 & H & Hc6).
  unfold accept in H. injection H as _ Hcaps.
  exists q. split; [|now apply quote_class].
  unfold group. rewrite <- Hcaps, Hc6.
  - reflexivity.
  - vm_compute. intuition discriminate.
Qed.

Lemma format_line_starts_buffering cfg st line m :
  insideTwigAttribute st = false ->
  exec Re.attr_start line = Some m ->
  format_line cfg st line =
    set_attribute true (hd_error (group 2 m)) [line] st.
Proof. intros Hin Hm. unfold format_line. now rewrite Hin, Hm. Qed.

(** X11.  While an attribute is being buffered, [attributeQuote] is
    never null: it holds the single or double quote that opened the
    value, so the count of quotes that ends the buffering is always a
    count of that character. *)
Theorem buffering_has_a_quote cfg lines :
  insideTwigAttribute (format_lines cfg lines) = true ->
  exists q,
    attributeQuote (format_lines cfg lines) = Some q /\ is_quote q = true.
Proof.
  unfold format_lines.
  induction lines as [|l lines IH] using rev_ind; [discriminate|].
  rewrite fold_left_app. cbn [fold_left].
  set (s1 := fold_left (format_line cfg) lines init_state) in *.
  destruct (insideTwigAttribute s1) eqn:Hs1.
  - destruct (IH eq_refl) as (q & Hq & Hquote).
    destruct (format_line_buffering cfg s1 l Hs1) as [E | E]; [|congruence].
    intros _. rewrite E. cbn [attributeQuote set_attribute]. eauto.
  - destruct (exec Re.attr_start l) as [m|] eqn:Hm.
    + intros _. rewrite (format_line_starts_buffering cfg s1 l m Hs1 Hm).
      cbn [attributeQuote set_attribute].
      destruct (attr_start_quote l m Hm) as (q & Hg & Hquote).
      exists q. now rewrite Hg.
    + destruct (format_line_not_buffering cfg s1 l Hs1) as [(q & Hq & _) | (_ & E)];
        congruence.
Qed.

Lemma buffering_has_a_quote_witness :
  insideTwigAttribute
    (format_lines default_config (split_char NL unterminated_attribute_text)) = true /\
  exists q,
    attributeQuote
      (format_lines default_config (split_char NL unterminated_attribute_text)) =
      Some q /\ is_quote q = true.
Proof.
  assert (H : insideTwigAttribute
                (format_lines default_config
                   (split_char NL unterminated_attribute_text)) = true)
    by (vm_compute; reflexivity).
  split; [exact H|].
  exact (buffering_has_a_quote default_config _ H).
Defined.

(** ** The shape of the output lines *)

Section Pushed.

Variable cfg : Config.
(** What holds of every output line, what holds of every text given to
    [emit], and whether the attribute rules are allowed to fire. *)
Variables (P Q : str -> Prop) (A : Prop).
Hypothesis P_emit : forall n x, Q x -> P (repeat_str (indentChar cfg) n ++ x).
Hypothesis P_blank : preserveNewLines cfg = true -> P [].
Hypothesis Q_trim : forall x, is_empty (trim x) = false -> Q (trim x).
Hypothesis Q_collapse : A -> forall ls, Q (collapseTwigAttribute ls).

Lemma pushed_emit x st :
  Forall P (formattedLines st) -> Q x -> Forall P (formattedLines (emit cfg x st)).
Proof.
  intros H Hx. unfold emit, push. cbn [formattedLines set_formattedLines].
  apply Forall_app. split; [exact H|]. constructor; [|constructor].
  unfold indent. now apply P_emit.
Qed.

Lemma pushed_process_item st x :
  Forall P (formattedLines st) -> is_empty (trim x) = false ->
  Forall P (formattedLines (process_item cfg st x)).
Proof.
  intros H Hx. apply Q_trim in Hx. unfold process_item. break_if.
  - now apply pushed_emit.
  - destruct (item_after_lines (trim x)
                (emit cfg (trim x) (item_before (trim x) st))) as [E _].
    rewrite E. apply pushed_emit; [|exact Hx].
    destruct (item_before_lines (trim x) st) as [F _]. now rewrite F.
Qed.

Lemma pushed_fold_items items : forall st,
  Forall P (formattedLines st) ->
  Forall (fun x => is_empty (trim x) = false) items ->
  Forall P (formattedLines (fold_left (process_item cfg) items st)).
Proof.
  induction items as [|x items IH]; intros st H HF; [exact H|].
  inversion HF; subst. cbn [fold_left].
  apply IH; [now apply pushed_process_item | assumption].
Qed.

Lemma pushed_script_body_line st t :
  Forall P (formattedLines st) -> Q t ->
  Forall P (formattedLines (script_body_line cfg st t)).
Proof.
  intros H Ht. unfold script_body_line.
  assert (E : formattedLines
                (script_after t (emit cfg t (script_before t st))) =
              formattedLines (emit cfg t (script_before t st)))
    by (unfold script_after; break_if; reflexivity).
  rewrite E. apply pushed_emit; [|exact Ht].
  unfold script_before. break_if; exact H.
Qed.

Lemma pushed_format_line st line :
  A \/ (insideTwigAttribute st = false /\ exec Re.attr_start line = None /\
        test Re.attr_inline line = false) ->
  Forall P (formattedLines st) ->
  Forall P (formattedLines (format_line cfg st line)).
Proof.
  intros HA H. unfold format_line.
  destruct (insideTwigAttribute st) eqn:Hin.
  { destruct HA as [HA | (? & _)]; [|discriminate].
    break_if; [|exact H].
    change (formattedLines (set_attribute false None [] ?s))
      with (formattedLines s).
    apply pushed_emit; [exact H | now apply Q_collapse]. }
  destruct (exec Re.attr_start line) eqn:Hm.
  { exact H. }
  destruct (test Re.attr_inline line) eqn:Hi.
  { destruct HA as [HA | (_ & _ & ?)]; [|discriminate].
    apply pushed_emit; [exact H | now apply Q_collapse]. }
  destruct (is_empty (trim line)) eqn:Hb.
  { destruct (preserveNewLines cfg) eqn:Hp; cbn [andb negb]; [|exact H].
    unfold push. cbn [formattedLines set_formattedLines].
    apply Forall_app. split; [exact H|]. constructor; [|constructor].
    now apply P_blank. }
  cbn [andb].
  pose proof (Q_trim line Hb) as Ht.
  assert (Hemit : forall st', formattedLines st' = formattedLines st ->
            Forall P (formattedLines (emit cfg (trim line) st'))).
  { intros st' E. apply pushed_emit; [now rewrite E | exact Ht]. }
  destruct (includes (u "{#") (trim line)).
  { cbn [inComment set_inComment].
    break_if; [change (formattedLines (set_inComment false ?s)) with (formattedLines s)|];
      now apply Hemit. }
  destruct (inComment st).
  { break_if; [change (formattedLines (set_inComment false ?s)) with (formattedLines s)|];
      now apply Hemit. }
  destruct (test Re.verbatim (trim line)).
  { cbn [inVerbatim set_inVerbatim].
    break_if; [change (formattedLines (set_inVerbatim false ?s)) with (formattedLines s)|];
      now apply Hemit. }
  destruct (inVerbatim st).
  { break_if; [change (formattedLines (set_inVerbatim false ?s)) with (formattedLines s)|];
      now apply Hemit. }
  break_if.
  { cbn [formattedLines set_htmlIndentLevel set_scriptTagBaseIndent set_inScriptTag].
    now apply Hemit. }
  break_if.
  { cbn [formattedLines set_htmlIndentLevel set_styleTagBaseIndent set_inStyleTag].
    now apply Hemit. }
  break_if; [now apply Hemit|].
  break_if; [now apply Hemit|].
  break_if.
  - now apply pushed_script_body_line.
  - apply pushed_fold_items; [exact H | apply splitTwigLine_items_not_blank].
Qed.

Lemma pushed_fold_lines lines : forall st,
  A \/ (insideTwigAttribute st = false /\
        Forall (fun l => exec Re.attr_start l = None /\
                         test Re.attr_inline l = false) lines) ->
  Forall P (formattedLines st) ->
  Forall P (formattedLines (fold_left (format_line cfg) lines st)).
Proof.
  induction lines as [|l lines IH]; intros st HA H; [exact H|].
  cbn [fold_left]. apply IH.
  - destruct HA as [HA | (Hin & HF)]; [now left | right].
    inversion HF as [|? ? [Hm Hi] HF']; subst. split; [|exact HF'].
    destruct (format_line_not_buffering cfg st l Hin) as [(q & Hq & _) | (_ & E)];
      [congruence | exact E].
  - apply pushed_format_line; [|exact H].
    destruct HA as [HA | (Hin & HF)]; [now left | right].
    inversion HF as [|? ? [Hm Hi] HF']; subst. tauto.
Qed.

End Pushed.

(** X12.  Every line of the output is a whole number of indent units
    followed by a text with no white space at either end (the trim of
    some text): the formatter never copies the leading or trailing white
    space of its input. *)
Theorem output_lines_are_indented_trimmed_text cfg lines :
  Forall (indented cfg) (formattedLines (format_lines cfg lines)).
Proof.
  unfold format_lines.
  apply (pushed_fold_lines cfg (indented cfg)
           (fun x => exists y, x = trim y) True).
  - intros n x [y ->]. now exists n, y.
  - intros _. now exists 0%nat, [].
  - intros x _. now exists x.
  - intros _ ls. unfold collapseTwigAttribute. eauto.
  - now left.
  - constructor.
Qed.

Lemma last_of_trimmed x c t :
  rev (trim x) = c :: t -> is_space c = false.
Proof.
  unfold trim. rewrite rev_involutive. apply trim_start_head.
Qed.

(** X13.  Where no attribute rule applies, no line of the output ends in
    white space, and the output holds an empty line only when
    [preserveNewLines] is on. *)
Theorem output_has_no_trailing_space cfg lines :
  Forall (fun l => exec Re.attr_start l = None /\ test Re.attr_inline l = false)
    lines ->
  Forall (no_trailing_space cfg) (formattedLines (format_lines cfg lines)).
Proof.
  intros HF. unfold format_lines.
  apply (pushed_fold_lines cfg (no_trailing_space cfg)
           (fun x => exists y, x = trim y /\ is_empty (trim y) = false) False).
  - intros n x (y & -> & Hy). unfold no_trailing_space.
    rewrite rev_app_distr.
    destruct (rev (trim y)) as [|c t] eqn:E.
    + apply (f_equal (@rev char)) in E. rewrite rev_involutive in E.
      cbn [rev] in E. now rewrite E in Hy.
    + cbn [app]. now apply (last_of_trimmed y c t).
  - intros Hp. exact Hp.
  - intros x Hx. now exists x.
  - intros [].
  - right. split; [reflexivity | exact HF].
  - constructor.
Qed.

Lemma output_has_no_trailing_space_witness :
  Forall (fun l => exec Re.attr_start l = None /\ test Re.attr_inline l = false)
    script_else_doc /\
  Forall (no_trailing_space default_config)
    (formattedLines (format_lines default_config script_else_doc)).
Proof.
  assert (HF : Forall (fun l => exec Re.attr_start l = None /\
                                test Re.attr_inline l = false)
                 script_else_doc).
  { unfold script_else_doc. cbn [map].
    repeat (constructor; [split; vm_compute; reflexivity|]). constructor. }
  split; [exact HF|].
  exact (output_has_no_trailing_space default_config _ HF).
Defined.

(** ** The output only grows *)

Lemma grows_process_item cfg st x :
  exists more, formattedLines (process_item cfg st x) = formattedLines st ++ more.
Proof.
  unfold process_item. break_if.
  - now eexists.
  - destruct (item_after_lines (trim x)
                (emit cfg (trim x) (item_before (trim x) st))) as [E _].
    destruct (item_before_lines (trim x) st) as [F _].
    rewrite E. unfold emit, push. cbn [formattedLines set_formattedLines].
    rewrite F. now eexists.
Qed.

Lemma grows_fold cfg (step : Config -> State -> str -> State) :
  (forall st x, exists more,
     formattedLines (step cfg st x) = formattedLines st ++ more) ->
  forall xs st, exists more,
    formattedLines (fold_left (step cfg) xs st) = formattedLines st ++ more.
Proof.
  intros Hstep. induction xs as [|x xs IH]; intros st; cbn [fold_left].
  - exists []. now rewrite app_nil_r.
  - destruct (IH (step cfg st x)) as [m1 E1].
    destruct (Hstep st x) as [m2 E2].
    exists (m2 ++ m1). now rewrite E1, E2, app_assoc.
Qed.

Lemma grows_format_line cfg st line :
  exists more, formattedLines (format_line cfg st line) = formattedLines st ++ more.
Proof.
  assert (Hsame : forall st', formattedLines st' = formattedLines st ->
            exists more, formattedLines st' = formattedLines st ++ more).
  { intros st' E. exists []. now rewrite app_nil_r. }
  assert (Hemit : forall x st', formattedLines st' = formattedLines st ->
            exists more,
              formattedLines (emit cfg x st') = formattedLines st ++ more).
  { intros x st' E. unfold emit, push. cbn [formattedLines set_formattedLines].
    rewrite E. now eexists. }
  unfold format_line.
  destruct (insideTwigAttribute st).
  { break_if; [|now apply Hsame].
    change (formattedLines (set_attribute false None [] ?s))
      with (formattedLines s).
    now apply Hemit. }
  destruct (exec Re.attr_start line); [now apply Hsame|].
  break_if; [now apply Hemit|].
  break_if; [unfold push; cbn [formattedLines set_formattedLines]; now eexists|].
  break_if; [now apply Hsame|].
  destruct (includes (u "{#") (trim line)).
  { cbn [inComment set_inComment].
    break_if; [change (formattedLines (set_inComment false ?s)) with (formattedLines s)|];
      now apply Hemit. }
  destruct (inComment st).
  { break_if; [change (formattedLines (set_inComment false ?s)) with (formattedLines s)|];
      now apply Hemit. }
  destruct (test Re.verbatim (trim line)).
  { cbn [inVerbatim set_inVerbatim].
    break_if; [change (formattedLines (set_inVerbatim false ?s)) with (formattedLines s)|];
      now apply Hemit. }
  destruct (inVerbatim st).
  { break_if; [change (formattedLines (set_inVerbatim false ?s)) with (formattedLines s)|];
      now apply Hemit. }
  break_if.
  { cbn [formattedLines set_htmlIndentLevel set_scriptTagBaseIndent set_inScriptTag].
    now apply Hemit. }
  break_if.
  { cbn [formattedLines set_htmlIndentLevel set_styleTagBaseIndent set_inStyleTag].
    now apply Hemit. }
  break_if; [now apply Hemit|].
  break_if; [now apply Hemit|].
  break_if.
  - unfold script_body_line.
    assert (E : formattedLines
                  (script_after (trim line)
                     (emit cfg (trim line) (script_before (trim line) st))) =
                formattedLines
                  (emit cfg (trim line) (script_before (trim line) st)))
      by (unfold script_after; break_if; reflexivity).
    rewrite E. apply Hemit. unfold script_before. break_if; reflexivity.
  - apply (grows_fold cfg process_item). apply grows_process_item.
Qed.

(** X14.  The output only grows: the lines written for a document are
    kept, in order and unchanged, at the head of the lines written for
    any longer document that starts with it. *)
Theorem output_of_prefix_is_kept cfg first rest :
  exists more,
    formattedLines (format_lines cfg (first ++ rest)) =
    formattedLines (format_lines cfg first) ++ more.
Proof.
  unfold format_lines. rewrite fold_left_app.
  apply (grows_fold cfg format_line). apply grows_format_line.
Qed.

(** ** The script line classifiers *)

Lemma search_from_found_at len r : forall rest pre_rev m,
  search_from len r pre_rev rest = Some m ->
  exists rest0 rest',
    suffix_of rest0 rest /\
    rmatch len r accept rest0 [] = Some (rest', m_caps m).
Proof.
  induction rest as [|x rest IH]; intros pre_rev m H;
    rewrite search_from_unfold in H;
    destruct (rmatch len r accept _ []) as [[rest' caps']|] eqn:E;
    try discriminate.
  - injection H as <-. cbn [m_caps]. exists [], rest'.
    split; [apply suffix_of_refl | exact E].
  - injection H as <-. cbn [m_caps]. exists (x :: rest), rest'.
    split; [apply suffix_of_refl | exact E].
  - apply IH in H as (r0 & r' & Hs & H). exists r0, r'.
    split; [now apply suffix_of_cons | exact H].
Qed.

(** A pattern that starts with [^] matches at the start only. *)
Lemma anchored_match r line m :
  exec (Seq Bol r) line = Some m ->
  exists rest', rmatch (length line) r accept line [] = Some (rest', m_caps m).
Proof.
  unfold exec. intros H.
  apply search_from_found_at in H as (r0 & r' & [p Hp] & H).
  cbn [rmatch] in H.
  destruct (Nat.eqb (length r0) (length line)) eqn:E; [|discriminate].
  apply Nat.eqb_eq in E. rewrite Hp, length_app in E.
  destruct p; [|cbn [length] in E; lia].
  cbn [app] in Hp. subst r0. eauto.
Qed.

(** A starred character class takes a run of characters of the class. *)
Lemma star_class_inv len cs g k : forall fuel rest caps res,
  star_loop (rmatch len (Cls cs)) g k fuel rest caps = Some res ->
  exists p rest',
    rest = p ++ rest' /\ forallb (cset_mem cs) p = true /\
    k rest' caps = Some res.
Proof.
  induction fuel as [|fuel IHf]; intros rest caps res H; simpl in H.
  - exists [], rest. now repeat split.
  - assert (Hagain : forall res',
              match rest with
              | [] => None
              | c :: rest' =>
                  if cset_mem cs c
                  then (if (length rest' <? length rest)%nat
                        then star_loop (rmatch len (Cls cs)) g k fuel rest' caps
                        else None)
                  else None
              end = Some res' ->
              exists p rest',
                rest = p ++ rest' /\ forallb (cset_mem cs) p = true /\
                k rest' caps = Some res').
    { intros res' E. destruct rest as [|c rest1]; [discriminate|].
      destruct (cset_mem cs c) eqn:Hc; [|discriminate].
      destruct (length rest1 <? length (c :: rest1))%nat; [|discriminate].
      apply IHf in E as (p & r' & -> & Hp & E).
      exists (c :: p), r'. split; [reflexivity|]. split; [|exact E].
      cbn [forallb]. now rewrite Hc, Hp. }
    destruct g.
    + match type of H with
      | match ?a with _ => _ end = _ => destruct a eqn:E
      end.
      * inversion H; subst. now apply Hagain.
      * exists [], rest. now repeat split.
    + destruct (k rest caps) eqn:E.
      * inversion H; subst. exists [], rest. now repeat split.
      * now apply Hagain.
Qed.

Lemma trim_start_keeps_last a c :
  is_space c = false -> exists t, trim_start (a ++ [c]) = t ++ [c].
Proof.
  intros Hc. induction a as [|x a IH].
  - exists []. cbn [app trim_start]. now rewrite Hc.
  - cbn [app trim_start]. destruct (is_space x); [exact IH|].
    now exists (x :: a).
Qed.

(** The trim of a text whose first character that is not white space is
    [c] starts with [c]. *)
Lemma trim_first p c s :
  forallb is_space p = true -> is_space c = false ->
  exists t, trim (p ++ c :: s) = c :: t.
Proof.
  intros Hp Hc. unfold trim. rewrite (trim_start_spaces p _ Hp).
  cbn [trim_start]. rewrite Hc. cbn [rev].
  destruct (trim_start_keeps_last (rev s) c Hc) as [t ->].
  exists (rev t). now rewrite rev_app_distr.
Qed.

Lemma closing_brace c :
  cset_mem (pos [one "}"]%char) c = true ->
  is_space c = false /\
  cset_mem (pos [one "}"; one "]"]%char) c = true.
Proof.
  unfold cset_mem, in_ranges. cbn [negated ranges pos existsb xorb fst snd one].
  intros H. rewrite orb_false_r in H. apply andb_prop in H as [H1 H2].
  apply N.leb_le in H1, H2.
  assert (E : c = code "}") by lia. subst c. split; reflexivity.
Qed.

Lemma js_close_else_shape line :
  test js_close_else line = true ->
  exists c t, trim line = c :: t /\
              cset_mem (pos [one "}"; one "]"]%char) c = true.
Proof.
  unfold test. destruct (exec js_close_else line) as [m|] eqn:E; [|discriminate].
  intros _. unfold js_close_else in E. cbn [seqs] in E.
  apply anchored_match in E as (rest' & E).
  unfold star at 1 in E. cbn [rmatch] in E.
  unfold ws at 1 in E.
  apply star_class_inv in E as (p & r1 & Hline & Hp & E).
  unfold chr at 1 in E. cbn [rmatch] in E.
  destruct r1 as [|c r1]; [discriminate|].
  destruct (cset_mem (pos [one "}"]%char) c) eqn:Hc; [|discriminate].
  apply closing_brace in Hc as [Hsp Hc].
  destruct (trim_first p c r1 Hp Hsp) as [t Ht].
  exists c, t. now rewrite Hline, Ht.
Qed.

Lemma js_close_start_head c t :
  cset_mem (pos [one "}"; one "]"]%char) c = true ->
  test js_close_start (c :: t) = true.
Proof.
  intros Hc. unfold test, exec. rewrite search_from_unfold.
  unfold js_close_start. cbn [seqs rmatch].
  now rewrite Nat.eqb_refl, Hc.
Qed.

(** X15.  The third test of [isJsClosingLine] (a closing brace followed
    by [else] at the start of the line) never decides: every line it
    accepts is accepted by the second test already, so the function is
    the net brace count being negative or the trimmed line starting with
    a closing brace or bracket. *)
Theorem isJsClosingLine_else_test_redundant line :
  isJsClosingLine line =
    (netChange (trim line) <? 0) || test js_close_start (trim line).
Proof.
  unfold isJsClosingLine.
  destruct (netChange (trim line) <? 0); [reflexivity|].
  destruct (test js_close_start (trim line)) eqn:E2; [reflexivity|].
  destruct (test js_close_else line) eqn:E3; [|reflexivity].
  apply js_close_else_shape in E3 as (c & t & Ht & Hc).
  rewrite Ht, (js_close_start_head c t Hc) in E2. discriminate.
Qed.

(** X16.  Both script line classifiers look at the line up to the white
    space around it: they give the same answer on a line and on its
    trim, although [isJsClosingLine] runs its third test on the line as
    given. *)
Theorem js_classifiers_ignore_outer_space line :
  isJsClosingLine (trim line) = isJsClosingLine line /\
  isJsOpeningLine (trim line) = isJsOpeningLine line.
Proof.
  unfold isJsClosingLine, isJsOpeningLine. rewrite trim_idempotent.
  split; [|reflexivity].
  destruct (netChange (trim line) <? 0); [reflexivity|].
  destruct (test js_close_start (trim line)) eqn:E2; [reflexivity|].
  assert (H : forall l, trim l = trim line -> test js_close_else l = false).
  { intros l Hl. destruct (test js_close_else l) eqn:E3; [|reflexivity].
    apply js_close_else_shape in E3 as (c & t & Ht & Hc).
    rewrite <- Hl, Ht, (js_close_start_head c t Hc) in E2. discriminate. }
  now rewrite (H line eq_refl), (H (trim line) (trim_idempotent line)).
Qed.

(** X17.  The rule [format] applies to a line of a script or style
    region agrees with the two classifiers in this sense: it lowers the
    markup depth before the line only if [isJsClosingLine] holds of the
    line, and raises it after the line exactly if [isJsOpeningLine]
    holds. *)
Theorem script_rule_follows_classifiers line st :
  (htmlIndentLevel (script_before (trim line) st) < htmlIndentLevel st ->
   isJsClosingLine line = true) /\
  (htmlIndentLevel st < htmlIndentLevel (script_after (trim line) st) <->
   isJsOpeningLine line = true).
Proof.
  unfold script_before, script_after, isJsClosingLine, isJsOpeningLine.
  split.
  - destruct (netChange (trim line) <? 0); [reflexivity|]. lia.
  - destruct (0 <? netChange (trim line)) eqn:E.
    + apply Z.ltb_lt in E. cbn [htmlIndentLevel set_htmlIndentLevel].
      split; [reflexivity | lia].
    + split; [lia | discriminate].
Qed.

Lemma script_rule_follows_classifiers_witness :
  htmlIndentLevel (script_before (trim (u " }); ")) in_script_state) <
    htmlIndentLevel in_script_state /\
  isJsClosingLine (u " }); ") = true.
Proof.
  assert (H : htmlIndentLevel (script_before (trim (u " }); ")) in_script_state) <
              htmlIndentLevel in_script_state) by (vm_compute; reflexivity).
  split; [exact H|].
  exact (proj1 (script_rule_follows_classifiers (u " }); ") in_script_state) H).
Defined.

(** * Formatting twice *)

(** ** Matches under extension of the text *)

Lemma star_loop_extend extra step step' g k k' :
  (forall h h', ext extra h h' -> ext extra (step h) (step' h')) ->
  ext extra k k' ->
  forall fuel fuel' rest c1 c2,
    (fuel <= fuel')%nat ->
    star_loop step g k fuel rest c1 <> None ->
    star_loop step' g k' fuel' (rest ++ extra) c2 <> None.
Proof.
  intros Hstep Hk.
  induction fuel as [|fuel IH]; intros fuel' rest c1 c2 Hle H.
  - cbn [star_loop] in H. pose proof (Hk rest c1 c2 H) as Hk'.
    destruct fuel' as [|fuel']; [exact Hk'|].
    cbn [star_loop]. destruct g.
    + match goal with |- match ?a with _ => _ end <> None => destruct a end;
        [discriminate | exact Hk'].
    + destruct (k' (rest ++ extra) c2); [discriminate | congruence].
  - destruct fuel' as [|fuel']; [lia|].
    cbn [star_loop] in H |- *.
    set (K := fun rest' caps' =>
                if (length rest' <? length rest)%nat
                then star_loop step g k fuel rest' caps' else None) in *.
    set (K' := fun rest' caps' =>
                 if (length rest' <? length (rest ++ extra))%nat
                 then star_loop step' g k' fuel' rest' caps' else None).
    assert (HK : ext extra K K').
    { intros r d1 d2 Hr. unfold K in Hr. unfold K'.
      destruct (length r <? length rest)%nat eqn:El; [|congruence].
      apply Nat.ltb_lt in El.
      assert (El' : (length (r ++ extra) <? length (rest ++ extra))%nat = true)
        by (apply Nat.ltb_lt; rewrite !length_app; lia).
      rewrite El'. apply (IH fuel' r d1 d2); [lia | exact Hr]. }
    pose proof (Hstep K K' HK rest c1 c2) as Hagain.
    destruct g.
    + change (match step K rest c1 with
              | Some x => Some x
              | None => k rest c1
              end <> None) in H.
      change (match step' K' (rest ++ extra) c2 with
              | Some x => Some x
              | None => k' (rest ++ extra) c2
              end <> None).
      destruct (step K rest c1) eqn:E.
      * destruct (step' K' (rest ++ extra) c2); [discriminate|].
        exfalso. apply Hagain; [discriminate | reflexivity].
      * destruct (step' K' (rest ++ extra) c2); [discriminate|].
        now apply (Hk rest c1 c2).
    + change (match k rest c1 with
              | Some x => Some x
              | None => step K rest c1
              end <> None) in H.
      change (match k' (rest ++ extra) c2 with
              | Some x => Some x
              | None => step' K' (rest ++ extra) c2
              end <> None).
      destruct (k rest c1) eqn:E.
      * pose proof (Hk rest c1 c2) as Hk'. rewrite E in Hk'.
        destruct (k' (rest ++ extra) c2); [discriminate|].
        exfalso. apply Hk'; [discriminate | reflexivity].
      * destruct (k' (rest ++ extra) c2); [discriminate|].
        now apply Hagain.
Qed.

(** A local pattern that matches at the start of a text matches at the
    start of every extension of the text. *)
Lemma rmatch_ext_local extra r : forall len len' k k',
  local r = true -> ext extra k k' ->
  ext extra (rmatch len r k) (rmatch len' r k').
Proof.
  induction r as [ | cs | r1 IH1 r2 IH2 | r1 IH1 r2 IH2 | g r1 IH1
                 | n r1 IH1 | n | | ];
    intros len len' k k' Hl Hk rest c1 c2 H; cbn [local] in Hl;
    try discriminate; cbn [rmatch] in H |- *.
  - now apply (Hk rest c1 c2).
  - destruct rest as [|x rest]; [congruence|]. cbn [app].
    destruct (cset_mem cs x); [|congruence]. now apply (Hk rest c1 c2).
  - apply andb_prop in Hl as [Hl1 Hl2].
    refine (IH1 len len' _ _ Hl1 _ rest c1 c2 H).
    intros r d1 d2. apply (IH2 len len' k k' Hl2 Hk).
  - apply andb_prop in Hl as [Hl1 Hl2].
    destruct (rmatch len r1 k rest c1) eqn:E.
    + pose proof (IH1 len len' k k' Hl1 Hk rest c1 c2) as H1. rewrite E in H1.
      destruct (rmatch len' r1 k' (rest ++ extra) c2); [discriminate|].
      exfalso. apply H1; [discriminate | reflexivity].
    + destruct (rmatch len' r1 k' (rest ++ extra) c2); [discriminate|].
      now apply (IH2 len len' k k' Hl2 Hk rest c1 c2).
  - assert (Hstep : forall h h', ext extra h h' ->
                      ext extra (rmatch len r1 h) (rmatch len' r1 h'))
      by (intros h h' Hh; now apply IH1).
    apply (star_loop_extend extra (rmatch len r1) (rmatch len' r1) g k k' Hstep Hk
             (length rest) (length (rest ++ extra)) rest c1 c2);
      [rewrite length_app; lia | exact H].
  - refine (IH1 len len' _ _ Hl _ rest c1 c2 H).
    intros r d1 d2. apply Hk.
Qed.

Lemma search_from_hit len r : forall p s0 pre,
  rmatch len r accept s0 [] <> None ->
  search_from len r pre (p ++ s0) <> None.
Proof.
  induction p as [|x p IH]; intros s0 pre H; rewrite search_from_unfold.
  - cbn [app]. destruct (rmatch len r accept s0 []) as [[r' c']|];
      [discriminate | congruence].
  - cbn [app]. destruct (rmatch len r accept (x :: p ++ s0) []) as [[r' c']|];
      [discriminate|]. now apply IH.
Qed.

(** A local pattern found in a text is found in every text that holds
    it. *)
Lemma test_ext r a t b :
  local r = true -> test r t = true -> test r (a ++ t ++ b) = true.
Proof.
  intros Hl. unfold test.
  destruct (exec r t) as [m|] eqn:E; [|discriminate]. intros _.
  unfold exec in E.
  apply search_from_found_at in E as (t0 & r' & [p Hp] & E).
  assert (H : rmatch (length (a ++ t ++ b)) r accept (t0 ++ b) [] <> None).
  { assert (Ha : ext b accept accept) by (intros r0 d1 d2 _; discriminate).
    apply (rmatch_ext_local b r (length t) (length (a ++ t ++ b))
             accept accept Hl Ha t0 [] []).
    rewrite E. discriminate. }
  replace (a ++ t ++ b) with ((a ++ p) ++ t0 ++ b) in *
    by (rewrite Hp, <- !app_assoc; reflexivity).
  pose proof (search_from_hit _ r (a ++ p) (t0 ++ b) [] H) as Hs.
  unfold exec.
  destruct (search_from _ r [] ((a ++ p) ++ t0 ++ b)); [reflexivity|congruence].
Qed.

(** ** What the split pattern matches *)

Lemma lazy_scan len d1 d2 (k0 K : cont) :
  (forall rest caps,
     k0 rest caps =
       match rest with
       | c :: c' :: r => if is_char d1 c && is_char d2 c' then K r caps else None
       | _ => None
       end) ->
  (forall r c, K r c <> None) ->
  forall fuel rest caps,
    (length rest <= fuel)%nat ->
    star_loop (rmatch len dot) false k0 fuel rest caps =
      match scan d1 d2 rest with Some r => K r caps | None => None end.
Proof.
  intros Hk0 HK. induction fuel as [|fuel IH]; intros rest caps Hlen.
  - destruct rest; [|cbn [length] in Hlen; lia].
    cbn [star_loop scan]. now rewrite Hk0.
  - cbn [star_loop]. rewrite Hk0. unfold dot. cbn [rmatch].
    destruct rest as [|c [|c' r]]; cbn [scan].
    + reflexivity.
    + destruct (cset_mem (neg line_terminators) c); [|reflexivity].
      cbn [length Nat.ltb Nat.leb]. rewrite IH by (cbn [length]; lia).
      reflexivity.
    + destruct (is_char d1 c && is_char d2 c').
      * specialize (HK r caps). destruct (K r caps); [reflexivity | congruence].
      * destruct (cset_mem (neg line_terminators) c); [|reflexivity].
        assert (El : (length (c' :: r) <? length (c :: c' :: r))%nat = true)
          by (apply Nat.ltb_lt; cbn [length]; lia).
        rewrite El. apply IH. cbn [length] in *. lia.
Qed.

Lemma is_char_eq d c : is_char d c = N.eqb d c.
Proof.
  unfold is_char, cset_mem, in_ranges. cbn [negated ranges pos existsb xorb fst snd].
  rewrite orb_false_r.
  destruct (N.eqb d c) eqn:E.
  - apply N.eqb_eq in E. subst. now rewrite N.leb_refl.
  - apply N.eqb_neq in E. apply andb_false_iff.
    destruct (N.leb_spec d c), (N.leb_spec c d); auto. lia.
Qed.

(** The pattern of [splitTwigLine] at the start of a text: it matches
    exactly when [span_end] finds the end of a span, and leaves the
    text that [span_end] leaves. *)
Lemma split_rmatch len s caps :
  option_map fst (rmatch len Re.split accept s caps) = span_end s.
Proof.
  unfold Re.split. cbn [alts seqs lit]. unfold chr, one, star_lazy.
  cbn [rmatch].
  set (KG := fun rest' caps' =>
               accept rest' ((1%nat, firstn (length s - length rest') s) :: caps')).
  assert (HKG : forall r c, KG r c <> None) by (intros r c; discriminate).
  assert (Hk0 : forall d1 d2 rest caps0,
             rmatch len (Seq (Cls (pos [(d1, d1)])) (Cls (pos [(d2, d2)]))) KG
               rest caps0 =
             match rest with
             | c :: c' :: r =>
                 if is_char d1 c && is_char d2 c' then KG r caps0 else None
             | _ => None
             end).
  { intros d1 d2 rest caps0. cbn [rmatch].
    destruct rest as [|x [|y r]]; try reflexivity.
    - change (cset_mem (pos [(d1, d1)]) x) with (is_char d1 x).
      destruct (is_char d1 x); reflexivity.
    - change (cset_mem (pos [(d1, d1)]) x) with (is_char d1 x).
      change (cset_mem (pos [(d2, d2)]) y) with (is_char d2 y).
      destruct (is_char d1 x), (is_char d2 y); reflexivity. }
  destruct s as [|c0 [|c1 s2]]; cbn [span_end].
  - reflexivity.
  - change (cset_mem (pos [(code "{", code "{")]) c0) with (is_char (code "{") c0).
    destruct (is_char (code "{") c0); reflexivity.
  - change (cset_mem (pos [(code "{", code "{")]) c0) with (is_char (code "{") c0).
    change (cset_mem (pos [(code "{", code "{")]) c1) with (is_char (code "{") c1).
    change (cset_mem (pos [(code "%", code "%")]) c1) with (is_char (code "%") c1).
    destruct (is_char (code "{") c0); [|reflexivity].
    destruct (is_char (code "%") c1) eqn:E1.
    + rewrite (lazy_scan len (code "%") (code "}") _ KG
                 (Hk0 (code "%") (code "}")) HKG) by lia.
      assert (E2 : is_char (code "{") c1 = false).
      { rewrite is_char_eq in *. apply N.eqb_eq in E1. subst c1. reflexivity. }
      rewrite E2.
      destruct (scan (code "%") (code "}") s2); reflexivity.
    + destruct (is_char (code "{") c1); [|reflexivity].
      rewrite (lazy_scan len (code "}") (code "}") _ KG
                 (Hk0 (code "}") (code "}")) HKG) by lia.
      destruct (scan (code "}") (code "}") s2); reflexivity.
Qed.

Lemma scan_shape d1 d2 : forall s r,
  scan d1 d2 s = Some r -> exists b, s = b ++ [d1; d2] ++ r.
Proof.
  induction s as [|c s IH]; intros r H; cbn [scan] in H; [discriminate|].
  destruct s as [|c' s'']; [discriminate|].
  destruct (is_char d1 c && is_char d2 c') eqn:E.
  - injection H as <-. apply andb_prop in E as [E1 E2].
    rewrite is_char_eq in E1, E2. apply N.eqb_eq in E1, E2. subst.
    now exists [].
  - destruct (cset_mem (neg line_terminators) c); [|discriminate].
    apply IH in H as [b Hb]. exists (c :: b). cbn [app]. now rewrite Hb.
Qed.

Lemma scan_ext d1 d2 e : forall s r,
  scan d1 d2 s = Some r -> scan d1 d2 (s ++ e) = Some (r ++ e).
Proof.
  induction s as [|c s IH]; intros r H; cbn [scan] in H; [discriminate|].
  destruct s as [|c' s'']; [discriminate|].
  cbn [app scan].
  destruct (is_char d1 c && is_char d2 c').
  - now injection H as <-.
  - destruct (cset_mem (neg line_terminators) c); [|discriminate].
    now apply IH.
Qed.

Lemma scan_trunc d1 d2 post : forall b,
  scan d1 d2 (b ++ post) = Some post -> scan d1 d2 b = Some [].
Proof.
  induction b as [|c b IH]; intros H.
  - cbn [app] in H. apply scan_shape in H as [b0 Hb].
    apply (f_equal (@length char)) in Hb. rewrite !length_app in Hb.
    cbn [length] in Hb. lia.
  - cbn [app scan] in H.
    destruct (b ++ post) as [|c' s''] eqn:Es; [discriminate|].
    destruct (is_char d1 c && is_char d2 c') eqn:E.
    + injection H as ->.
      destruct b as [|x b].
      * cbn [app] in Es. apply (f_equal (@length char)) in Es.
        cbn [length] in Es. lia.
      * cbn [app] in Es. injection Es as -> Es.
        assert (b = []).
        { apply (f_equal (@length char)) in Es. rewrite length_app in Es.
          destruct b; [reflexivity | cbn [length] in Es; lia]. }
        subst b. cbn [scan]. now rewrite E.
    + destruct (cset_mem (neg line_terminators) c) eqn:Ed; [|discriminate].
      specialize (IH H).
      destruct b as [|x b]; [discriminate|].
      cbn [app] in Es. injection Es as -> Es.
      cbn [scan]. now rewrite E, Ed.
Qed.

Lemma span_end_shape s r :
  span_end s = Some r -> exists b, s = [code "{"] ++ b ++ [code "}"] ++ r.
Proof.
  unfold span_end. destruct s as [|c0 [|c1 s2]]; try discriminate.
  destruct (is_char (code "{") c0) eqn:E0; [|discriminate].
  rewrite is_char_eq in E0. apply N.eqb_eq in E0. subst c0.
  destruct (is_char (code "%") c1).
  - intros H. apply scan_shape in H as [b ->].
    exists (c1 :: b ++ [code "%"]). cbn [app]. now rewrite <- !app_assoc.
  - destruct (is_char (code "{") c1); [|discriminate].
    intros H. apply scan_shape in H as [b ->].
    exists (c1 :: b ++ [code "}"]). cbn [app]. now rewrite <- !app_assoc.
Qed.

Lemma span_end_ext e s r :
  span_end s = Some r -> span_end (s ++ e) = Some (r ++ e).
Proof.
  unfold span_end. destruct s as [|c0 [|c1 s2]]; try discriminate.
  cbn [app].
  destruct (is_char (code "{") c0); [|discriminate].
  destruct (is_char (code "%") c1); [apply scan_ext|].
  destruct (is_char (code "{") c1); [apply scan_ext | discriminate].
Qed.

Lemma span_end_trunc x post :
  span_end (x ++ post) = Some post -> span_end x = Some [].
Proof.
  intros H. pose proof (span_end_shape _ _ H) as [b Hb].
  apply (f_equal (@length char)) in Hb. rewrite !length_app in Hb.
  cbn [length] in Hb.
  destruct x as [|c0 [|c1 x2]]; cbn [length] in Hb; try lia.
  unfold span_end in *. cbn [app] in H.
  destruct (is_char (code "{") c0); [|discriminate].
  destruct (is_char (code "%") c1); [now apply scan_trunc in H|].
  destruct (is_char (code "{") c1); [now apply scan_trunc in H | discriminate].
Qed.

Lemma span_end_space c s : is_space c = true -> span_end (c :: s) = None.
Proof.
  intros Hc. unfold span_end. destruct s as [|c1 s2]; [reflexivity|].
  rewrite is_char_eq. destruct (N.eqb_spec (code "{") c) as [<-|]; [|reflexivity].
  vm_compute in Hc. discriminate.
Qed.

Lemma trim_tight x : no_lead x -> no_lead (rev x) -> trim x = x.
Proof.
  intros H1 H2. unfold trim.
  now rewrite (trim_start_no_lead x H1), (trim_start_no_lead _ H2), rev_involutive.
Qed.

(** A span starts and ends with a brace: it is its own trim. *)
Lemma span_trim x : span_end x = Some [] -> trim x = x /\ x <> [].
Proof.
  intros H. apply span_end_shape in H as [b ->]. split; [|discriminate].
  apply trim_tight.
  - reflexivity.
  - rewrite !rev_app_distr. reflexivity.
Qed.

(** ** Where the search finds its match *)

Lemma search_from_none len r : forall w pre,
  (forall a b, w = a ++ b -> rmatch len r accept b [] = None) ->
  search_from len r pre w = None.
Proof.
  induction w as [|x w IH]; intros pre H; rewrite search_from_unfold.
  - now rewrite (H [] [] eq_refl).
  - rewrite (H [] (x :: w) eq_refl). apply IH.
    intros a b ->. apply (H (x :: a) b). reflexivity.
Qed.

Lemma search_from_none_inv len r : forall w pre,
  search_from len r pre w = None ->
  forall a b, w = a ++ b -> rmatch len r accept b [] = None.
Proof.
  induction w as [|x w IH]; intros pre H a b Hw;
    rewrite search_from_unfold in H;
    destruct (rmatch len r accept _ []) as [[r' c']|] eqn:E; try discriminate.
  - destruct a; [|discriminate]. cbn [app] in Hw. now subst b.
  - destruct a as [|y a].
    + cbn [app] in Hw. now subst b.
    + cbn [app] in Hw. injection Hw as -> Hw. now apply (IH _ H a b).
Qed.

Lemma search_from_first len r : forall rest pre m,
  search_from len r pre rest = Some m ->
  exists skipped,
    rest = skipped ++ m_text m ++ m_post m /\
    m_pre m = rev pre ++ skipped /\
    rmatch len r accept (m_text m ++ m_post m) [] = Some (m_post m, m_caps m) /\
    forall a b, skipped = a ++ b -> b <> [] ->
      rmatch len r accept (b ++ m_text m ++ m_post m) [] = None.
Proof.
  assert (Hhere : forall rest pre r' c',
            rmatch len r accept rest [] = Some (r', c') ->
            let m := {| m_pre := rev pre;
                        m_text := firstn (length rest - length r') rest;
                        m_post := r'; m_caps := c' |} in
            rest = [] ++ m_text m ++ m_post m /\
            m_pre m = rev pre ++ [] /\
            rmatch len r accept (m_text m ++ m_post m) [] = Some (m_post m, m_caps m) /\
            forall a b, [] = a ++ b -> b <> [] ->
              rmatch len r accept (b ++ m_text m ++ m_post m) [] = None).
  { intros rest pre r' c' E. cbn [m_pre m_text m_post m_caps app].
    pose proof E as E'.
    apply rmatch_inv in E' as (r0 & c0 & [p Hp] & E'). injection E' as <- <-.
    assert (Ef : firstn (length rest - length r0) rest = p).
    { rewrite Hp, length_app.
      replace (length p + length r0 - length r0)%nat with (length p) by lia.
      rewrite firstn_app, Nat.sub_diag, firstn_all. cbn [firstn].
      now rewrite app_nil_r. }
    rewrite Ef, <- Hp. repeat split.
    - now rewrite app_nil_r.
    - exact E.
    - intros a b Hab Hb. destruct a, b; try discriminate. congruence. }
  induction rest as [|x rest IH]; intros pre m H;
    rewrite search_from_unfold in H;
    destruct (rmatch len r accept _ []) as [[r' c']|] eqn:E; try discriminate.
  - injection H as <-. exists []. exact (Hhere [] pre r' c' E).
  - injection H as <-. exists []. exact (Hhere (x :: rest) pre r' c' E).
  - apply IH in H as (sk & Hrest & Hpre & Hm & Hno).
    exists (x :: sk). repeat split.
    + cbn [app]. now rewrite <- Hrest.
    + rewrite Hpre. cbn [rev]. now rewrite <- app_assoc.
    + exact Hm.
    + intros a b Hab Hb. destruct a as [|y a].
      * cbn [app] in Hab. subst b. cbn [app]. now rewrite <- Hrest.
      * cbn [app] in Hab. injection Hab as -> Hab. now apply (Hno a b).
Qed.

Lemma search_from_at len r x c : forall ind pre,
  (forall a b, ind = a ++ b -> b <> [] ->
     rmatch len r accept (b ++ x) [] = None) ->
  rmatch len r accept x [] = Some ([], c) ->
  search_from len r pre (ind ++ x) =
    Some {| m_pre := rev pre ++ ind; m_text := x; m_post := []; m_caps := c |}.
Proof.
  induction ind as [|y ind IH]; intros pre Hno Hx.
  - cbn [app]. rewrite search_from_unfold, Hx. cbn [length].
    now rewrite Nat.sub_0_r, firstn_all, app_nil_r.
  - pose proof (Hno [] (y :: ind) eq_refl) as Hy. cbn [app] in Hy |- *.
    rewrite search_from_unfold, Hy by discriminate.
    rewrite IH; [|intros a b ->; apply (Hno (y :: a) b); reflexivity | exact Hx].
    cbn [rev]. now rewrite <- app_assoc.
Qed.

(** ** Items are split no further *)

Lemma split_none len s caps :
  span_end s = None -> rmatch len Re.split accept s caps = None.
Proof.
  intros H. pose proof (split_rmatch len s caps) as E. rewrite H in E.
  destruct (rmatch len Re.split accept s caps); [discriminate | reflexivity].
Qed.

Lemma split_some len s caps r :
  span_end s = Some r ->
  exists c, rmatch len Re.split accept s caps = Some (r, c).
Proof.
  intros H. pose proof (split_rmatch len s caps) as E. rewrite H in E.
  destruct (rmatch len Re.split accept s caps) as [[r' c']|]; [|discriminate].
  cbn [option_map fst] in E. injection E as ->. now exists c'.
Qed.

Lemma split_rmatch_some len s caps r c :
  rmatch len Re.split accept s caps = Some (r, c) -> span_end s = Some r.
Proof.
  intros H. pose proof (split_rmatch len s caps) as E. now rewrite H in E.
Qed.

Lemma split_rmatch_none len s caps :
  rmatch len Re.split accept s caps = None -> span_end s = None.
Proof.
  intros H. pose proof (split_rmatch len s caps) as E. now rewrite H in E.
Qed.

(** The trim of a text is a part of the text. *)
Lemma trim_decompose s : exists p q, s = p ++ trim s ++ q.
Proof.
  destruct (trim_start_suffix s) as [p Hp].
  destruct (trim_start_suffix (rev (trim_start s))) as [q Hq].
  exists p, (rev q). unfold trim.
  rewrite <- rev_app_distr, <- Hq, rev_involutive. exact Hp.
Qed.

Lemma nonblank_not_nil x : is_empty (trim x) = false -> trim x <> [].
Proof. intros H E. now rewrite E in H. Qed.

Lemma forallb_suffix (f : char -> bool) a b :
  forallb f (a ++ b) = true -> forallb f b = true.
Proof. rewrite forallb_app. intros H. now apply andb_prop in H as [_ H]. Qed.

(** A text between two spans, or after the last one, holds no span;
    neither does its trim behind an indent. *)
Lemma gap_stable g tail :
  (forall a b, g = a ++ b -> b <> [] -> span_end (b ++ tail) = None) ->
  is_empty (trim g) = false -> stable g.
Proof.
  intros Hno Hne ind Hind.
  destruct (trim_decompose g) as (p & q & Hg).
  pose proof (nonblank_not_nil g Hne) as Ht.
  set (t := trim g) in *.
  assert (Hnone : forall a b, ind ++ t = a ++ b -> span_end b = None).
  { assert (Hin_t : forall l b, t = l ++ b -> span_end b = None).
    { intros l b Hb. destruct b as [|c b]; [reflexivity|].
      destruct (span_end (c :: b)) as [r|] eqn:E; [|reflexivity].
      apply (span_end_ext (q ++ tail)) in E.
      rewrite app_assoc in E.
      rewrite (Hno (p ++ l) ((c :: b) ++ q)) in E.
      - discriminate.
      - rewrite Hg, Hb, <- !app_assoc. reflexivity.
      - discriminate. }
    intros a b Hab. apply app_eq_app in Hab as [l [[H1 H2] | [H1 H2]]].
    - (* [b] starts in the indent *)
      destruct l as [|c l].
      + cbn [app] in H2. subst b. now apply (Hin_t [] t).
      + subst b. cbn [app]. apply span_end_space.
        rewrite H1 in Hind. apply forallb_suffix in Hind.
        cbn [forallb] in Hind. now apply andb_prop in Hind as [Hc _].
    - (* [b] starts in the text *)
      now apply (Hin_t l b). }
  unfold splitTwigLine. cbn [split_loop].
  rewrite (search_from_none _ Re.split (ind ++ t) [])
    by (intros a b Hab; apply split_none; now apply (Hnone a b)).
  assert (Hnn : ind ++ t <> []).
  { intros E. apply app_eq_nil in E as [_ E]. contradiction. }
  destruct (ind ++ t) as [|c w] eqn:Ew; [congruence|].
  cbn [nonempty filter]. rewrite <- Ew.
  assert (Etrim : trim (ind ++ t) = t).
  { rewrite (trim_after_spaces _ _ Hind). unfold t. apply trim_idempotent. }
  rewrite Etrim. fold t in Hne. rewrite Hne. cbn [negb map].
  now rewrite Etrim.
Qed.

(** A span comes back whole. *)
Lemma span_stable x : span_end x = Some [] -> stable x.
Proof.
  intros Hx ind Hind.
  destruct (span_trim x Hx) as [Et Hnn]. rewrite Et.
  destruct (split_some (length (ind ++ x)) x [] [] Hx) as [c Hc].
  assert (Hno : forall a b, ind = a ++ b -> b <> [] ->
            rmatch (length (ind ++ x)) Re.split accept (b ++ x) [] = None).
  { intros a b Hab Hb. destruct b as [|y b]; [congruence|].
    apply split_none. cbn [app]. apply span_end_space.
    rewrite Hab in Hind. apply forallb_suffix in Hind.
    cbn [forallb] in Hind. now apply andb_prop in Hind as [Hy _]. }
  unfold splitTwigLine. cbn [split_loop].
  rewrite (search_from_at _ Re.split x c ind [] Hno Hc).
  cbn [m_pre m_text m_post rev app length skipn].
  assert (Erest : forall fuel pre,
            split_loop fuel (length (ind ++ x)) pre [] = []).
  { intros fuel pre. destruct fuel as [|fuel]; [reflexivity|].
    cbn [split_loop]. rewrite search_from_unfold.
    now rewrite (split_none _ [] [] eq_refl). }
  rewrite Erest, filter_app.
  assert (Eind : filter (fun s => negb (is_empty (trim s))) (nonempty ind) = []).
  { destruct ind as [|i ind']; [reflexivity|]. cbn [nonempty filter].
    rewrite is_empty_trim. unfold all_space. now rewrite Hind. }
  rewrite Eind. cbn [app filter]. rewrite Et.
  destruct x as [|x0 x']; [congruence|]. cbn [is_empty negb map].
  now rewrite Et.
Qed.

Lemma split_loop_stable len : forall fuel pre rest,
  (length rest < fuel)%nat ->
  Forall (fun x => is_empty (trim x) = false -> stable x)
    (split_loop fuel len pre rest).
Proof.
  assert (Hgap : forall g tail,
            (forall a b, g = a ++ b -> b <> [] -> span_end (b ++ tail) = None) ->
            Forall (fun x => is_empty (trim x) = false -> stable x) (nonempty g)).
  { intros g tail Hno. destruct g as [|c g]; [constructor|].
    cbn [nonempty]. constructor; [|constructor].
    intros Hne. now apply (gap_stable _ tail). }
  induction fuel as [|fuel IH]; intros pre rest Hlen; [lia|].
  cbn [split_loop].
  destruct (search_from len Re.split pre rest) as [m|] eqn:E.
  - apply search_from_first in E as (sk & Hrest & Hpre & Hm & Hno).
    apply split_rmatch_some in Hm. pose proof (span_end_trunc _ _ Hm) as Hx.
    rewrite Hpre, skipn_app, length_rev, Nat.sub_diag, skipn_all2
      by (rewrite length_rev; lia).
    cbn [skipn app].
    apply Forall_app. split; [|constructor].
    + apply (Hgap sk (m_text m ++ m_post m)).
      intros a b Hab Hb. apply (split_rmatch_none len _ []).
      now apply (Hno a b).
    + intros _. now apply span_stable.
    + apply IH. destruct (span_trim _ Hx) as [_ Hnn].
      rewrite Hrest, !length_app in Hlen.
      destruct (m_text m); [congruence|]. cbn [length] in Hlen. lia.
  - apply (Hgap rest []).
    intros a b Hab Hb. rewrite app_nil_r.
    apply (split_rmatch_none len _ []).
    now apply (search_from_none_inv len Re.split rest pre E a b).
Qed.

Lemma splitTwigLine_stable line : Forall stable (splitTwigLine line).
Proof.
  unfold splitTwigLine. apply Forall_forall. intros x Hin.
  apply filter_In in Hin as [Hin Hf].
  pose proof (split_loop_stable (length line) (S (length line)) [] line
                (Nat.lt_succ_diag_r _)) as HF.
  rewrite Forall_forall in HF. apply (HF x Hin).
  now apply negb_true_iff in Hf.
Qed.

(** ** The tests of the loop body on an item *)

Lemma trim_no_lead s : no_lead (trim s) /\ no_lead (rev (trim s)).
Proof.
  unfold trim.
  set (a := trim_start s). set (b := trim_start (rev a)).
  assert (Hb : no_lead b) by apply no_lead_trim_start.
  assert (Hrb : no_lead (rev b)).
  { destruct (trim_start_suffix (rev a)) as [p Hp]. fold b in Hp.
    apply (f_equal (@rev char)) in Hp.
    rewrite rev_involutive, rev_app_distr in Hp.
    pose proof (no_lead_trim_start s) as Ha. fold a in Ha.
    destruct (rev b) as [|y ys]; [exact I|].
    rewrite Hp in Ha. exact Ha. }
  split; [exact Hrb | now rewrite rev_involutive].
Qed.

Lemma trim_start_core a t b :
  no_lead t -> t <> [] -> exists a', trim_start (a ++ t ++ b) = a' ++ t ++ b.
Proof.
  intros Hl Hn. induction a as [|x a IH].
  - exists []. cbn [app]. apply trim_start_no_lead.
    destruct t; [congruence | exact Hl].
  - cbn [app trim_start]. destruct (is_space x); [exact IH|].
    now exists (x :: a).
Qed.

(** A text without white space at either end that is part of a text is
    part of its trim. *)
Lemma trim_core a t b :
  no_lead t -> no_lead (rev t) -> t <> [] ->
  exists a' b', trim (a ++ t ++ b) = a' ++ t ++ b'.
Proof.
  intros H1 H2 Hn. unfold trim.
  destruct (trim_start_core a t b H1 Hn) as [a' ->].
  rewrite !rev_app_distr, <- app_assoc.
  assert (Hrn : rev t <> []).
  { intros E. apply (f_equal (@rev char)) in E.
    rewrite rev_involutive in E. contradiction. }
  destruct (trim_start_core (rev b) (rev t) (rev a') H2 Hrn) as [b' ->].
  exists a', (rev b'). now rewrite !rev_app_distr, !rev_involutive, <- app_assoc.
Qed.

Lemma strip_prefix_ext p : forall s b r,
  strip_prefix p s = Some r -> strip_prefix p (s ++ b) = Some (r ++ b).
Proof.
  induction p as [|x p IH]; intros s b r H; cbn [strip_prefix] in *.
  - now injection H as <-.
  - destruct s as [|y s]; [discriminate|]. cbn [app].
    destruct (N.eqb x y); [now apply IH | discriminate].
Qed.

Lemma includes_ext p a t b :
  includes p t = true -> includes p (a ++ t ++ b) = true.
Proof.
  intros H.
  assert (Hr : includes p (t ++ b) = true).
  { revert H. induction t as [|x t IH]; intros H.
    - cbn [includes] in H. rewrite orb_false_r in H.
      unfold starts_with in H.
      destruct (strip_prefix p []) as [r|] eqn:E; [|discriminate].
      apply (strip_prefix_ext p [] b) in E. cbn [app] in E |- *.
      destruct b; cbn [includes]; unfold starts_with; now rewrite E.
    - cbn [includes app] in *. apply orb_prop in H as [H | H].
      + unfold starts_with in *.
        destruct (strip_prefix p (x :: t)) as [r|] eqn:E; [|discriminate].
        apply (strip_prefix_ext p _ b) in E. cbn [app] in E. now rewrite E.
      + rewrite (IH H). apply orb_true_r. }
  induction a as [|y a IH]; [exact Hr|].
  cbn [app includes]. rewrite IH. apply orb_true_r.
Qed.

Lemma in_concat_part (x : str) : forall ps,
  In x ps -> exists a b, concat ps = a ++ x ++ b.
Proof.
  induction ps as [|p ps IH]; intros H; [destruct H|].
  destruct H as [-> | H].
  - exists [], (concat ps). reflexivity.
  - destruct (IH H) as (a & b & E). exists (p ++ a), b.
    cbn [concat]. now rewrite E, app_assoc.
Qed.

(** The trim of an item is a part of the trim of the line. *)
Lemma item_in_trimmed_line line x :
  In x (splitTwigLine line) ->
  exists a b, trim line = a ++ trim x ++ b.
Proof.
  intros Hin. unfold splitTwigLine in Hin.
  apply filter_In in Hin as [Hin Hf]. apply negb_true_iff in Hf.
  apply in_concat_part in Hin as (a & b & E).
  rewrite split_loop_concat in E.
  destruct (trim_decompose x) as (p & q & Hx).
  destruct (trim_no_lead x) as [H1 H2].
  destruct (trim_core (a ++ p) (trim x) (q ++ b) H1 H2
              (nonblank_not_nil x Hf)) as (a' & b' & Ht).
  exists a', b'. rewrite <- Ht. f_equal.
  rewrite E. rewrite Hx at 1. now rewrite <- !app_assoc.
Qed.

Lemma plain_tests_part t a b : plain_tests (a ++ t ++ b) -> plain_tests t.
Proof.
  intros (H1 & H2 & H3 & H4 & H5 & H6).
  repeat split.
  - destruct (includes (u "{#") t) eqn:E; [|reflexivity].
    now rewrite (includes_ext _ a t b E) in H1.
  - destruct (test Re.verbatim t) eqn:E; [|reflexivity].
    now rewrite (test_ext Re.verbatim a t b eq_refl E) in H2.
  - destruct (test Re.script_open t) eqn:E; [|reflexivity].
    now rewrite (test_ext Re.script_open a t b eq_refl E) in H3.
  - destruct (test Re.script_close t) eqn:E; [|reflexivity].
    now rewrite (test_ext Re.script_close a t b eq_refl E) in H4.
  - destruct (test Re.style_open t) eqn:E; [|reflexivity].
    now rewrite (test_ext Re.style_open a t b eq_refl E) in H5.
  - destruct (test Re.style_close t) eqn:E; [|reflexivity].
    now rewrite (test_ext Re.style_close a t b eq_refl E) in H6.
Qed.

Lemma normal_path_inv st line :
  normal_path st line = true ->
  flags_off st /\ is_empty (trim line) = false /\ plain_tests (trim line).
Proof.
  unfold normal_path, reaches_tag_rules. intros H.
  repeat (apply andb_prop in H; destruct H as [H ?]).
  repeat match goal with
         | E : negb _ = true |- _ => apply negb_true_iff in E
         end.
  match goal with E : _ || _ = false |- _ => apply orb_false_iff in E as [? ?] end.
  unfold isScriptOpening, isScriptClosing, isStyleOpening, isStyleClosing in *.
  repeat match goal with
         | E : test ?r ?t = false, F : context [test ?r ?t] |- _ =>
             rewrite E in F; cbn [negb] in F; rewrite ?andb_true_r in F
         end.
  unfold flags_off, plain_tests. repeat split; assumption.
Qed.

Lemma normal_path_intro st o :
  flags_off st -> no_attribute_rule o -> is_empty (trim o) = false ->
  plain_tests (trim o) -> normal_path st o = true.
Proof.
  intros (F1 & F2 & F3 & F4 & F5) [A1 A2] Hb (T1 & T2 & T3 & T4 & T5 & T6).
  unfold normal_path, reaches_tag_rules,
    isScriptOpening, isScriptClosing, isStyleOpening, isStyleClosing.
  now rewrite F1, F2, F3, F4, F5, A1, A2, Hb, T1, T2, T3, T4, T5, T6.
Qed.

(** ** Formatting the output again *)

Lemma process_item_trim cfg st x y :
  trim x = trim y -> process_item cfg st x = process_item cfg st y.
Proof. unfold process_item. now intros ->. Qed.

Lemma process_item_pushed cfg st x :
  exists ind,
    forallb is_space ind = true /\
    formattedLines (process_item cfg st x) = formattedLines st ++ [ind ++ trim x].
Proof.
  unfold process_item. break_if.
  - exists (indent cfg st). split; [apply all_space_indent | reflexivity].
  - destruct (item_after_lines (trim x)
                (emit cfg (trim x) (item_before (trim x) st))) as [E _].
    destruct (item_before_lines (trim x) st) as [F _].
    rewrite E. unfold emit, push. cbn [formattedLines set_formattedLines].
    rewrite F. eexists. split; [apply all_space_indent | reflexivity].
Qed.

Lemma flags_off_same st st' : same_flags st st' -> flags_off st -> flags_off st'.
Proof.
  unfold same_flags, flags_off.
  intros (-> & -> & -> & -> & ->) H. tauto.
Qed.

(** An item that is formatted again, as a line of its own and from the
    state in which it was formatted as an item, gives the same state. *)
Lemma item_replay cfg st x :
  flags_off st -> is_empty (trim x) = false -> stable x ->
  plain_tests (trim x) ->
  exists o,
    formattedLines (process_item cfg st x) = formattedLines st ++ [o] /\
    (no_attribute_rule o -> format_line cfg st o = process_item cfg st x).
Proof.
  intros Hoff Hne Hst Ht.
  destruct (process_item_pushed cfg st x) as (ind & Hind & E).
  exists (ind ++ trim x). split; [exact E|]. intros Ha.
  assert (Et : trim (ind ++ trim x) = trim x)
    by (rewrite (trim_after_spaces _ _ Hind); apply trim_idempotent).
  assert (Hn : normal_path st (ind ++ trim x) = true).
  { apply normal_path_intro; [exact Hoff | exact Ha | |]; now rewrite Et. }
  rewrite (format_line_normal_path cfg st _ Hn).
  specialize (Hst ind Hind).
  destruct (splitTwigLine (ind ++ trim x)) as [|y [|z ys]]; try discriminate.
  cbn [map] in Hst. injection Hst as Hy. cbn [fold_left].
  now apply process_item_trim.
Qed.

Lemma items_replay cfg items : forall st,
  flags_off st ->
  Forall (fun x => is_empty (trim x) = false /\ stable x /\
                   plain_tests (trim x)) items ->
  exists O,
    formattedLines (fold_left (process_item cfg) items st) =
      formattedLines st ++ O /\
    (Forall no_attribute_rule O ->
     fold_left (format_line cfg) O st = fold_left (process_item cfg) items st).
Proof.
  induction items as [|x items IH]; intros st Hoff HF.
  - exists []. cbn [fold_left]. now rewrite app_nil_r.
  - inversion HF as [|? ? (Hne & Hst & Ht) HF']; subst. cbn [fold_left].
    destruct (item_replay cfg st x Hoff Hne Hst Ht) as (o & Eo & Ho).
    destruct (IH (process_item cfg st x)
                (flags_off_same _ _ (process_item_flags cfg st x) Hoff) HF')
      as (O & EO & HO).
    exists (o :: O). split.
    + rewrite EO, Eo, <- app_assoc. reflexivity.
    + intros HA. inversion HA as [|? ? Hao HAO]; subst.
      cbn [fold_left]. rewrite (Ho Hao). now apply HO.
Qed.

(** Outside the split into items, what the loop body does with a line
    depends on the trimmed line only. *)
Lemma format_line_same_trim cfg st l1 l2 :
  insideTwigAttribute st = false ->
  no_attribute_rule l1 -> no_attribute_rule l2 ->
  trim l1 = trim l2 ->
  normal_path st l2 = false ->
  format_line cfg st l1 = format_line cfg st l2.
Proof.
  intros Hin [A1 A2] [B1 B2] Et Hn.
  unfold format_line. rewrite Hin, A1, A2, B1, B2, Et.
  destruct (is_empty (trim l2)) eqn:Hb; cbn [andb negb].
  { destruct (preserveNewLines cfg); reflexivity. }
  destruct (includes (u "{#") (trim l2)) eqn:H1; [reflexivity|].
  destruct (inComment st) eqn:H2; [reflexivity|].
  destruct (test Re.verbatim (trim l2)) eqn:H3; [reflexivity|].
  destruct (inVerbatim st) eqn:H4; [reflexivity|].
  destruct (isScriptOpening (trim l2)) eqn:H5; [reflexivity|].
  destruct (isStyleOpening (trim l2)) eqn:H6; [reflexivity|].
  destruct (isScriptClosing (trim l2)) eqn:H7; [reflexivity|].
  destruct (isStyleClosing (trim l2)) eqn:H8; [reflexivity|].
  destruct (inScriptTag st || inStyleTag st) eqn:H9; [reflexivity|].
  exfalso. unfold normal_path, reaches_tag_rules in Hn.
  rewrite Hin, B1, B2, Hb, H1, H2, H3, H4, H5, H6, H7, H8, H9 in Hn.
  discriminate.
Qed.

(** A line that is not blank and is not split pushes one line, whose
    trim is the trimmed line. *)
Lemma whole_line_pushed cfg st line :
  insideTwigAttribute st = false ->
  no_attribute_rule line ->
  is_empty (trim line) = false ->
  normal_path st line = false ->
  exists o,
    formattedLines (format_line cfg st line) = formattedLines st ++ [o] /\
    trim o = trim line.
Proof.
  intros Hin [A1 A2] Hb Hn.
  assert (Hemit : forall st', formattedLines st' = formattedLines st ->
            exists o,
              formattedLines (emit cfg (trim line) st') =
                formattedLines st ++ [o] /\
              trim o = trim line).
  { intros st' E. exists (indent cfg st' ++ trim line).
    unfold emit, push. cbn [formattedLines set_formattedLines].
    rewrite E. split; [reflexivity | apply trim_indented]. }
  unfold format_line. rewrite Hin, A1, A2, Hb. cbn [andb].
  destruct (includes (u "{#") (trim line)) eqn:H1.
  { cbn [inComment set_inComment].
    break_if; [change (formattedLines (set_inComment false ?s)) with (formattedLines s)|];
      now apply Hemit. }
  destruct (inComment st) eqn:H2.
  { break_if; [change (formattedLines (set_inComment false ?s)) with (formattedLines s)|];
      now apply Hemit. }
  destruct (test Re.verbatim (trim line)) eqn:H3.
  { cbn [inVerbatim set_inVerbatim].
    break_if; [change (formattedLines (set_inVerbatim false ?s)) with (formattedLines s)|];
      now apply Hemit. }
  destruct (inVerbatim st) eqn:H4.
  { break_if; [change (formattedLines (set_inVerbatim false ?s)) with (formattedLines s)|];
      now apply Hemit. }
  destruct (isScriptOpening (trim line)) eqn:H5.
  { cbn [formattedLines set_htmlIndentLevel set_scriptTagBaseIndent set_inScriptTag].
    now apply Hemit. }
  destruct (isStyleOpening (trim line)) eqn:H6.
  { cbn [formattedLines set_htmlIndentLevel set_styleTagBaseIndent set_inStyleTag].
    now apply Hemit. }
  destruct (isScriptClosing (trim line)) eqn:H7; [now apply Hemit|].
  destruct (isStyleClosing (trim line)) eqn:H8; [now apply Hemit|].
  destruct (inScriptTag st || inStyleTag st) eqn:H9.
  - unfold script_body_line.
    assert (E : formattedLines
                  (script_after (trim line)
                     (emit cfg (trim line) (script_before (trim line) st))) =
                formattedLines
                  (emit cfg (trim line) (script_before (trim line) st)))
      by (unfold script_after; break_if; reflexivity).
    rewrite E. apply Hemit. unfold script_before. break_if; reflexivity.
  - exfalso. unfold normal_path, reaches_tag_rules in Hn.
    rewrite Hin, A1, A2, Hb, H1, H2, H3, H4, H5, H6, H7, H8, H9 in Hn.
    discriminate.
Qed.

Lemma blank_line cfg st line :
  insideTwigAttribute st = false ->
  no_attribute_rule line ->
  is_empty (trim line) = true ->
  format_line cfg st line = if preserveNewLines cfg then push [] st else st.
Proof.
  intros Hin [A1 A2] Hb. unfold format_line. rewrite Hin, A1, A2, Hb.
  destruct (preserveNewLines cfg); reflexivity.
Qed.

(** The lines that one input line pushes, formatted from the state
    before that line, lead to the state after it. *)
Lemma line_replay cfg st line :
  insideTwigAttribute st = false ->
  no_attribute_rule line ->
  exists O,
    formattedLines (format_line cfg st line) = formattedLines st ++ O /\
    (Forall no_attribute_rule O ->
     fold_left (format_line cfg) O st = format_line cfg st line).
Proof.
  intros Hin Ha.
  destruct (is_empty (trim line)) eqn:Hb.
  { rewrite (blank_line cfg st line Hin Ha Hb).
    destruct (preserveNewLines cfg) eqn:Hp.
    - exists [[]]. split; [reflexivity|]. intros HA.
      inversion HA as [|? ? Hnil _]; subst. cbn [fold_left].
      rewrite (blank_line cfg st [] Hin Hnil eq_refl). now rewrite Hp.
    - exists []. split; [now rewrite app_nil_r | reflexivity]. }
  destruct (normal_path st line) eqn:Hn.
  - rewrite (format_line_normal_path cfg st line Hn).
    destruct (normal_path_inv st line Hn) as (Hoff & _ & Ht).
    apply items_replay; [exact Hoff|].
    apply Forall_forall. intros x Hin_x.
    pose proof (splitTwigLine_items_not_blank line) as Hnb.
    pose proof (splitTwigLine_stable line) as Hst.
    rewrite Forall_forall in Hnb, Hst.
    split; [now apply Hnb|]. split; [now apply Hst|].
    destruct (item_in_trimmed_line line x Hin_x) as (a & b & E).
    rewrite E in Ht. now apply plain_tests_part in Ht.
  - destruct (whole_line_pushed cfg st line Hin Ha Hb Hn) as (o & Eo & To).
    exists [o]. split; [exact Eo|]. intros HA.
    inversion HA as [|? ? Hao _]; subst. cbn [fold_left].
    now apply format_line_same_trim.
Qed.

Lemma fold_replay cfg lines : forall st,
  insideTwigAttribute st = false ->
  Forall no_attribute_rule lines ->
  exists O,
    formattedLines (fold_left (format_line cfg) lines st) =
      formattedLines st ++ O /\
    (Forall no_attribute_rule O ->
     fold_left (format_line cfg) O st = fold_left (format_line cfg) lines st).
Proof.
  induction lines as [|l lines IH]; intros st Hin HF.
  - exists []. cbn [fold_left]. now rewrite app_nil_r.
  - inversion HF as [|? ? Hl HF']; subst. cbn [fold_left].
    destruct (line_replay cfg st l Hin Hl) as (O1 & E1 & H1).
    assert (Hin' : insideTwigAttribute (format_line cfg st l) = false).
    { destruct (format_line_not_buffering cfg st l Hin) as [(q & Hq & _) | (_ & E)];
        [destruct Hl; congruence | exact E]. }
    destruct (IH (format_line cfg st l) Hin' HF') as (O2 & E2 & H2).
    exists (O1 ++ O2). split.
    + rewrite E2, E1, <- app_assoc. reflexivity.
    + intros HA. apply Forall_app in HA as [HA1 HA2].
      rewrite fold_left_app, (H1 HA1). now apply H2.
Qed.

(** When no attribute rule takes a line of the input or a line of the
    output, the output lines formatted again give the output lines. *)
Lemma format_lines_replay cfg lines :
  Forall no_attribute_rule lines ->
  Forall no_attribute_rule (formattedLines (format_lines cfg lines)) ->
  format_lines cfg (formattedLines (format_lines cfg lines)) =
    format_lines cfg lines.
Proof.
  intros H1 H2.
  destruct (fold_replay cfg lines init_state eq_refl H1) as (O & E & H).
  cbn [formattedLines init_state app] in E.
  fold (format_lines cfg lines) in E, H. rewrite E in *.
  now apply H.
Qed.

(** ** Text without quotes *)

Lemma requires_some_sound f len r : forall k rest caps,
  requires_some f r = true -> Forall (fun c => f c = false) rest ->
  rmatch len r k rest caps = None.
Proof.
  induction r as [ | cs | r1 IH1 r2 IH2 | r1 IH1 r2 IH2 | g r1 IH1
                 | n r1 IH1 | n | | ];
    intros k rest caps Hreq Hnot; cbn [requires_some] in Hreq;
    try discriminate; cbn [rmatch].
  - destruct rest as [|x rest]; [reflexivity|].
    destruct (cset_mem cs x) eqn:Hmem; [|reflexivity].
    exfalso. inversion Hnot as [|? ? Hx _]; subst.
    apply andb_prop in Hreq as [Hneg Hall].
    unfold cset_mem in Hmem. destruct (negated cs); [discriminate|].
    cbn [xorb] in Hmem. unfold in_ranges in Hmem.
    apply existsb_exists in Hmem as (rg & Hin & Hrg).
    rewrite forallb_forall in Hall. specialize (Hall rg Hin).
    apply andb_prop in Hall as [H1 H2]. apply andb_prop in Hrg as [H3 H4].
    apply N.eqb_eq in H1. apply N.leb_le in H3, H4.
    assert (x = fst rg) by lia. subst x. congruence.
  - apply orb_prop in Hreq as [Hreq | Hreq].
    + now apply IH1.
    + destruct (rmatch len r1 _ rest caps) eqn:E; [|reflexivity].
      apply rmatch_inv in E as (r' & c' & [pre Hpre] & E).
      rewrite IH2 in E; [discriminate | exact Hreq |].
      rewrite Hpre in Hnot. now apply Forall_app in Hnot as [_ Hnot].
  - apply andb_prop in Hreq as [H1 H2].
    rewrite IH1 by assumption. now apply IH2.
  - now apply IH1.
Qed.

Lemma requires_some_exec f r s :
  requires_some f r = true -> Forall (fun c => f c = false) s ->
  exec r s = None.
Proof.
  intros Hreq. unfold exec. generalize (length s) as len.
  generalize (@nil char) as pre.
  induction s as [|x s IH]; intros pre len Hs;
    rewrite search_from_unfold, (requires_some_sound f len r _ _ _ Hreq Hs).
  - reflexivity.
  - apply IH. now inversion Hs.
Qed.

(** Both attribute patterns hold a quote. *)
Lemma quote_free_no_attribute_rule l : quote_free l -> no_attribute_rule l.
Proof.
  intros H. split.
  - now apply (requires_some_exec is_quote).
  - unfold test. now rewrite (requires_some_exec is_quote Re.attr_inline l eq_refl H).
Qed.

Lemma quote_not_space c : is_quote c = true -> is_space c = false.
Proof.
  unfold is_quote. intros H. apply orb_prop in H as [H | H];
    apply N.eqb_eq in H; subst c; reflexivity.
Qed.

(** The output of a text without quotes holds no quote. *)
Lemma quote_free_output cfg lines :
  Forall quote_free lines ->
  Forall quote_free (formattedLines (format_lines cfg lines)).
Proof.
  intros HF.
  assert (Ha : Forall (fun l => exec Re.attr_start l = None /\
                                test Re.attr_inline l = false) lines).
  { eapply Forall_impl; [|exact HF]. intros l Hl.
    exact (quote_free_no_attribute_rule l Hl). }
  pose proof (strip_ws_fold_lines cfg lines init_state eq_refl Ha) as E.
  cbn [formattedLines init_state concat app] in E.
  fold (format_lines cfg lines) in E.
  apply Forall_forall. intros o Ho. apply Forall_forall. intros c Hc.
  destruct (is_quote c) eqn:Hq; [exfalso | reflexivity].
  assert (Hin : In c (strip_ws (concat (formattedLines (format_lines cfg lines))))).
  { unfold strip_ws. apply filter_In. split.
    - apply in_concat. now exists o.
    - now rewrite (quote_not_space c Hq). }
  rewrite E in Hin. unfold strip_ws in Hin. apply filter_In in Hin as [Hin _].
  apply in_concat in Hin as (l & Hl & Hcl).
  rewrite Forall_forall in HF. specialize (HF l Hl).
  unfold quote_free in HF. rewrite Forall_forall in HF.
  specialize (HF c Hcl). congruence.
Qed.

Lemma quote_free_lines text :
  quote_free text -> Forall quote_free (split_char NL text).
Proof.
  intros H. apply (split_char_pieces _ NL) in H.
  eapply Forall_impl; [|exact H]. now intros l [Hl _].
Qed.

(** ** Formatting twice *)

Lemma format_empty cfg : format cfg [] = [].
Proof.
  unfold format, format_lines. cbn [split_char fold_left].
  assert (Ha : no_attribute_rule []) by (split; vm_compute; reflexivity).
  rewrite (blank_line cfg init_state [] eq_refl Ha eq_refl).
  destruct (preserveNewLines cfg); reflexivity.
Qed.

Lemma format_twice cfg text :
  Forall no_attribute_rule (split_char NL text) ->
  Forall no_attribute_rule
    (formattedLines (format_lines cfg (split_char NL text))) ->
  format cfg (format cfg text) = format cfg text.
Proof.
  intros H1 H2.
  destruct (formattedLines (format_lines cfg (split_char NL text)))
    as [|o O] eqn:EO.
  - unfold format at 2. rewrite EO. cbn [join]. rewrite format_empty.
    unfold format. now rewrite EO.
  - assert (Hne : formattedLines (format_lines cfg (split_char NL text)) <> [])
      by (rewrite EO; discriminate).
    unfold format at 1.
    rewrite (format_output_lines cfg text Hne).
    rewrite <- EO in H2. rewrite (format_lines_replay cfg _ H1 H2).
    reflexivity.
Qed.

(** C1, as the code has it.  Formatting is idempotent wherever the
    attribute rules stay out of the way: when no line of the text and
    no line of its formatted text starts a multi-line attribute or holds
    a single-line attribute with Twig, formatting the formatted text
    again changes nothing, under any configuration.  This covers every
    text without quotes, whatever it holds of template tags, markup,
    comments, verbatim, script and style regions. *)
Theorem format_idempotent_without_attribute_rules cfg text :
  (attribute_free text -> attribute_free (format cfg text) ->
   format cfg (format cfg text) = format cfg text) /\
  (quote_free text ->
   attribute_free text /\ attribute_free (format cfg text) /\
   format cfg (format cfg text) = format cfg text).
Proof.
  assert (Hcore : attribute_free text -> attribute_free (format cfg text) ->
                  format cfg (format cfg text) = format cfg text).
  { unfold attribute_free. intros H1 H2.
    destruct (formattedLines (format_lines cfg (split_char NL text)))
      as [|o O] eqn:EO.
    - apply format_twice; [exact H1 | rewrite EO; constructor].
    - apply format_twice; [exact H1|].
      rewrite <- (format_output_lines cfg text); [exact H2|].
      rewrite EO. discriminate. }
  split; [exact Hcore|].
  intros Hq.
  pose proof (quote_free_lines text Hq) as Hl.
  pose proof (quote_free_output cfg _ Hl) as Ho.
  assert (H1 : attribute_free text).
  { unfold attribute_free. eapply Forall_impl; [|exact Hl].
    apply quote_free_no_attribute_rule. }
  assert (H2 : attribute_free (format cfg text)).
  { unfold attribute_free.
    destruct (formattedLines (format_lines cfg (split_char NL text)))
      as [|o O] eqn:EO.
    - unfold format. rewrite EO. cbn [join split_char].
      constructor; [split; vm_compute; reflexivity | constructor].
    - rewrite <- EO in Ho.
      rewrite (format_output_lines cfg text) by (rewrite EO; discriminate).
      eapply Forall_impl; [|exact Ho]. apply quote_free_no_attribute_rule. }
  split; [exact H1|]. split; [exact H2|]. now apply Hcore.
Qed.

Lemma format_idempotent_without_attribute_rules_witness :
  (attribute_free quoted_markup_text /\
   attribute_free (format default_config quoted_markup_text) /\
   format default_config (format default_config quoted_markup_text) =
     format default_config quoted_markup_text) /\
  (quote_free quote_free_text /\
   format default_config (format default_config quote_free_text) =
     format default_config quote_free_text).
Proof.
  assert (H1 : attribute_free quoted_markup_text).
  { unfold attribute_free.
    let v := eval vm_compute in (split_char NL quoted_markup_text) in
    replace (split_char NL quoted_markup_text) with v
      by (vm_compute; reflexivity).
    repeat (constructor; [split; vm_compute; reflexivity|]). constructor. }
  assert (H2 : attribute_free (format default_config quoted_markup_text)).
  { unfold attribute_free.
    let v := eval vm_compute in
               (split_char NL (format default_config quoted_markup_text)) in
    replace (split_char NL (format default_config quoted_markup_text)) with v
      by (vm_compute; reflexivity).
    repeat (constructor; [split; vm_compute; reflexivity|]). constructor. }
  assert (H3 : quote_free quote_free_text).
  { unfold quote_free. apply Forall_forall. intros c Hc.
    assert (Hb : forallb (fun c => negb (is_quote c)) quote_free_text = true)
      by (vm_compute; reflexivity).
    rewrite forallb_forall in Hb. apply Hb in Hc.
    now apply negb_true_iff in Hc. }
  split.
  - split; [exact H1|]. split; [exact H2|].
    exact (proj1 (format_idempotent_without_attribute_rules default_config
                    quoted_markup_text) H1 H2).
  - split; [exact H3|].
    exact (proj2 (proj2 (proj2 (format_idempotent_without_attribute_rules
                                  default_config quote_free_text) H3))).
Defined.
